(** * Gather collective of Boost.MPI: a shallow embedding of
    [boost/mpi/collectives/gather.hpp] and the properties of its
    specification.

    Conventions of the embedding.
    - A C++ [int] is a [Z]; the results of [int] arithmetic and of the
      narrowing conversion [int(size_t)] are reduced to the 32-bit
      two's-complement range by [Int.wrap].  Signed overflow is undefined in
      C++; the theorems on [gather] carry range hypotheses under which no
      such overflow happens, so that the choice made for overflow is
      immaterial there, and a theorem that speaks of [int] sums of arbitrary
      values says so.
    - A [std::vector<T>] and a buffer reached through a [T*] are a [list T];
      a pointer that may be null is an [option (list T)].  Every indexed
      access is checked and an access outside the vector is the fault
      [OutOfBounds] (undefined behaviour in C++).
    - A call returns an [outcome]: it returns normally, throws a C++
      exception (the memory written so far stays visible to the caller), or
      the process dies on a failed assertion or on undefined behaviour.
    - The collective calls [MPI_Gather] and [MPI_Gatherv] are the two
      visible actions of a participant's program ([coll]); a group of
      participants is run in lock step by [run_group]. *)

From Stdlib Require Import ZArith Lia.
From Stdlib Require Import Strings.Byte.
From stdpp Require Import base tactics option list.

Local Open Scope Z_scope.

(** ** Machine integers *)

Module Int.

Definition min_int : Z := - 2 ^ 31.
Definition max_int : Z := 2 ^ 31 - 1.

(** Reduction of a mathematical integer to the range of [int]. *)
Definition wrap (z : Z) : Z := (z + 2 ^ 31) mod 2 ^ 32 - 2 ^ 31.

Definition add (a b : Z) : Z := wrap (a + b).
Definition mul (a b : Z) : Z := wrap (a * b).

Definition in_range (z : Z) : Prop := min_int <= z <= max_int.

End Int.

(** [std::size_t] is 64 bits wide; [a - b] on it is taken modulo [2^64]. *)
Definition size_t_sub (a b : Z) : Z := (a - b) mod 2 ^ 64.

(** ** Outcomes of a call *)

Inductive fault : Type :=
| AssertionFailed   (* [assert] / [BOOST_ASSERT] aborts the process *)
| OutOfBounds       (* indexed access outside a vector or buffer *)
| NullPointer.      (* access through a null pointer *)

Inductive exn : Type :=
| MpiException (code : Z)  (* thrown by [BOOST_MPI_CHECK_RESULT] *)
| DecodeError              (* thrown by the input archive *)
| LengthError.             (* thrown by [std::vector] for an impossible size *)

Inductive outcome (S : Type) : Type :=
| Returned (s : S)
| Threw (e : exn) (s : S)
| Crashed (f : fault).

Arguments Returned {S} s.
Arguments Threw {S} e s.
Arguments Crashed {S} f.

(** ** Vectors and counted loops *)

(** [v.size()] *)
Definition size {A} (v : list A) : Z := Z.of_nat (length v).

(** [v[i]] as an rvalue. *)
Definition vec_get {A} (v : list A) (i : Z) : option A :=
  if 0 <=? i then v !! Z.to_nat i else None.

(** [v[i] = x]. *)
Definition vec_set {A} (v : list A) (i : Z) (x : A) : option (list A) :=
  if (0 <=? i) && (i <? size v) then Some (<[Z.to_nat i := x]> v) else None.

(** [count] iterations of a loop body, the counter starting at [i]; a body
    that does not return normally ends the loop. *)
Fixpoint for_loop {S} (count : nat) (i : Z) (body : Z -> S -> outcome S) (s : S)
  : outcome S :=
  match count with
  | O => Returned s
  | Datatypes.S c =>
      match body i s with
      | Returned s' => for_loop c (i + 1) body s'
      | o => o
      end
  end.

(** [for (int i = lo; i < hi; ++i) body], for a bound [hi] that the body does
    not change. *)
Definition for_range {S} (lo hi : Z) (body : Z -> S -> outcome S) (s : S)
  : outcome S :=
  for_loop (Z.to_nat (hi - lo)) lo body s.

(** [std::accumulate(v.begin(), v.end(), 0)] on [int]. *)
Definition accumulate (v : list Z) : Z :=
  foldl Int.add 0 v.

(** The mathematical sum, for the statements. *)
Definition sumZ (v : list Z) : Z := foldr Z.add 0 v.

(** ** [detail::sizes2offset] *)

(** One iteration: [offsets[i+1] = offsets[i] + sizes[i]].  The counter [i]
    and the index [i+1] are [int]s in the source; they are exact here for
    vectors of at most [INT_MAX] elements, the vectors that an [int] counter
    can walk. *)
Definition sizes2offset_body (sizes : list Z) (i : Z) (offsets : list Z)
  : outcome (list Z) :=
  match vec_get offsets i, vec_get sizes i with
  | Some o, Some s =>
      match vec_set offsets (i + 1) (Int.add o s) with
      | Some offsets' => Returned offsets'
      | None => Crashed OutOfBounds
      end
  | _, _ => Crashed OutOfBounds
  end.

Definition sizes2offset (sizes offsets : list Z) : outcome (list Z) :=
  if negb (size offsets =? size sizes) then Crashed AssertionFailed
  else
    match vec_set offsets 0 0 with
    | None => Crashed OutOfBounds
    | Some offsets0 =>
        for_range 0 (size_t_sub (size sizes) 1) (sizes2offset_body sizes) offsets0
    end.

(** ** Collective calls of one participant *)

(** [comm.rank()] and [comm.size()]. *)
Record communicator : Type := { rank : Z; comm_size : Z }.

Definition MPI_SUCCESS : Z := 0.

(** A pointer to a buffer of [T]; [None] is the null pointer. *)
Abbreviation buffer T := (option (list T)) (only parsing).

(** The program of one participant: it returns, or performs a collective
    call and goes on with what the call reports, the status and the memory of
    the receive buffer after the call.  [E] is the type of the elements moved
    by [MPI_Gather]; [MPI_Gatherv] is only used with [MPI_BYTE]. *)
Inductive coll (E R : Type) : Type :=
| Ret (r : R)
| MPI_Gather (sendbuf : list E) (sendcount : Z)
             (recvbuf : buffer E) (recvcount : Z) (root : Z)
             (k : Z -> buffer E -> coll E R)
| MPI_Gatherv (sendbuf : list byte) (sendcount : Z)
              (recvbuf : list byte) (recvcounts displs : list Z) (root : Z)
              (k : Z -> list byte -> coll E R).

Arguments Ret {E R} r.
Arguments MPI_Gather {E R} sendbuf sendcount recvbuf recvcount root k.
Arguments MPI_Gatherv {E R} sendbuf sendcount recvbuf recvcounts displs root k.

Fixpoint coll_bind {E A B} (m : coll E A) (f : A -> coll E B) : coll E B :=
  match m with
  | Ret a => f a
  | MPI_Gather sb sc rb rc root k =>
      MPI_Gather sb sc rb rc root (fun st mem => coll_bind (k st mem) f)
  | MPI_Gatherv sb sc rb rcs ds root k =>
      MPI_Gatherv sb sc rb rcs ds root (fun st mem => coll_bind (k st mem) f)
  end.

Definition coll_map {E A B} (f : A -> B) (m : coll E A) : coll E B :=
  coll_bind m (fun a => Ret (f a)).

Definition outcome_map {S S'} (f : S -> S') (o : outcome S) : outcome S' :=
  match o with
  | Returned s => Returned (f s)
  | Threw e s => Threw e (f s)
  | Crashed f' => Crashed f'
  end.

(** A local computation [o] inside a call whose caller-visible memory is [s]:
    its value is passed on, its exception leaves the call with [s]. *)
Definition within {E A S} (o : outcome A) (s : S)
    (k : A -> coll E (outcome S)) : coll E (outcome S) :=
  match o with
  | Returned a => k a
  | Threw e _ => Ret (Threw e s)
  | Crashed f => Ret (Crashed f)
  end.

(** Modelled from the spec: the macro [BOOST_MPI_CHECK_RESULT] of
    [boost/mpi/exception.hpp]; a status other than success is thrown as an
    exception that carries the status (spec, section 7, transport failure). *)
Definition BOOST_MPI_CHECK_RESULT {S} (status : Z) (s : S) : outcome S :=
  if status =? MPI_SUCCESS then Returned s else Threw (MpiException status) s.

(** [BOOST_ASSERT(cond)] followed by [k]. *)
Definition BOOST_ASSERT {E S} (cond : bool) (k : coll E (outcome S))
  : coll E (outcome S) :=
  if cond then k else Ret (Crashed AssertionFailed).

(** [std::vector<A> v(count)] for an [int] count: a negative count converts
    to a [size_t] above [max_size()] and the constructor throws. *)
Definition vec_new {A} (x : A) (count : Z) : outcome (list A) :=
  if count <? 0 then Threw LengthError [] else Returned (replicate (Z.to_nat count) x).

(** A type with a default constructor; [value_init] is [T()]. *)
Class DefaultConstructible (T : Type) : Type := value_init : T.

#[export] Instance int_default : DefaultConstructible Z := 0.
#[export] Instance nat_default : DefaultConstructible nat := O.

(** [v.resize(count)] for an [int] count, new elements value-initialised. *)
Definition vec_resize {A} `{DefaultConstructible A} (v : list A) (count : Z)
  : outcome (list A) :=
  if count <? 0 then Threw LengthError v
  else Returned (resize (Z.to_nat count) value_init v).

(** [p[i] = x] through a pointer. *)
Definition buf_set {T} (p : buffer T) (i : Z) (x : T) : outcome (buffer T) :=
  match p with
  | None => Crashed NullPointer
  | Some mem =>
      match vec_set mem i x with
      | Some mem' => Returned (Some mem')
      | None => Crashed OutOfBounds
      end
  end.

(** ** The direct path: [detail::gather_impl(..., mpl::true_)] *)

Section Direct.
Context {T : Type}.

(** Root: lines 32-41. *)
Definition gather_impl_direct_root (comm : communicator) (in_values : list T)
    (n : Z) (out_values : buffer T) (root : Z) : coll T (outcome (buffer T)) :=
  MPI_Gather in_values n out_values n root
    (fun status out_values' => Ret (BOOST_MPI_CHECK_RESULT status out_values')).

(** Non-root: lines 45-54; the receive buffer is the null pointer. *)
Definition gather_impl_direct_nonroot (comm : communicator) (in_values : list T)
    (n : Z) (root : Z) : coll T (outcome unit) :=
  MPI_Gather in_values n None n root
    (fun status _ => Ret (BOOST_MPI_CHECK_RESULT status tt)).

End Direct.

(** ** The public overloads, lines 124-185

    The six overloads of [gather], over the two overloads of
    [detail::gather_impl] that overload resolution on [is_mpi_datatype<T>()]
    selects for [T]. *)

Section Public.
Context {T E : Type} `{DefaultConstructible T}.
Variable impl_root :
  communicator -> list T -> Z -> buffer T -> Z -> coll E (outcome (buffer T)).
Variable impl_nonroot :
  communicator -> list T -> Z -> Z -> coll E (outcome unit).

(** [gather(comm, in_value, T* out_values, root)], lines 124-133. *)
Definition gather_scalar_ptr (comm : communicator) (in_value : T)
    (out_values : buffer T) (root : Z) : coll E (outcome (buffer T)) :=
  if rank comm =? root then impl_root comm [in_value] 1 out_values root
  else coll_map (outcome_map (fun _ => out_values))
         (impl_nonroot comm [in_value] 1 root).

(** [gather(comm, in_value, root)], lines 135-140. *)
Definition gather_scalar_nonroot (comm : communicator) (in_value : T)
    (root : Z) : coll E (outcome unit) :=
  BOOST_ASSERT (negb (rank comm =? root))
    (impl_nonroot comm [in_value] 1 root).

(** What a call through [&out_values[0]] leaves in the vector. *)
Definition through_data (out_values : list T) (o : outcome (buffer T))
  : outcome (list T) :=
  outcome_map (fun p => default out_values p) o.

(** [gather(comm, in_value, std::vector<T>& out_values, root)], lines 142-153.
    The vector has just been resized to [comm.size()] elements, at least one
    in every communicator, and [&out_values[0]] is the address of its
    storage. *)
Definition gather_scalar_vec (comm : communicator) (in_value : T)
    (out_values : list T) (root : Z) : coll E (outcome (list T)) :=
  if rank comm =? root then
    within (vec_resize out_values (comm_size comm)) out_values (fun out_values' =>
      coll_map (through_data out_values')
        (gather_scalar_ptr comm in_value (Some out_values') root))
  else
    coll_map (outcome_map (fun _ => out_values))
      (gather_scalar_nonroot comm in_value root).

(** [gather(comm, in_values, n, T* out_values, root)], lines 155-165. *)
Definition gather_array_ptr (comm : communicator) (in_values : list T) (n : Z)
    (out_values : buffer T) (root : Z) : coll E (outcome (buffer T)) :=
  if rank comm =? root then impl_root comm in_values n out_values root
  else coll_map (outcome_map (fun _ => out_values))
         (impl_nonroot comm in_values n root).

(** [gather(comm, in_values, n, root)], lines 180-185. *)
Definition gather_array_nonroot (comm : communicator) (in_values : list T)
    (n : Z) (root : Z) : coll E (outcome unit) :=
  BOOST_ASSERT (negb (rank comm =? root))
    (impl_nonroot comm in_values n root).

(** [&out_values[0]]: [out_values[0]] is an indexed access, outside the
    vector when the vector is empty; its address is the vector's storage. *)
Definition address_of_first (out_values : list T) : outcome (buffer T) :=
  match vec_get out_values 0 with
  | Some _ => Returned (Some out_values)
  | None => Crashed OutOfBounds
  end.

(** [gather(comm, in_values, n, std::vector<T>& out_values, root)],
    lines 167-178.  The vector has just been resized to [comm.size() * n]
    elements, none when [n] is zero. *)
Definition gather_array_vec (comm : communicator) (in_values : list T) (n : Z)
    (out_values : list T) (root : Z) : coll E (outcome (list T)) :=
  if rank comm =? root then
    within (vec_resize out_values (Int.mul (comm_size comm) n)) out_values
      (fun out_values' =>
        within (address_of_first out_values') out_values' (fun data =>
          coll_map (through_data out_values')
            (gather_array_ptr comm in_values n data root)))
  else
    coll_map (outcome_map (fun _ => out_values))
      (gather_array_nonroot comm in_values n root).

End Public.

(** [gather<int>(comm, in_value, std::vector<int>&, root)], the overload
    declared ahead on lines 26-27 as instantiated for [int]: [int] has an MPI
    datatype, so overload resolution selects [gather_impl(..., mpl::true_)]. *)
Definition gather_int
  : communicator -> Z -> list Z -> Z -> coll Z (outcome (list Z)) :=
  gather_scalar_vec gather_impl_direct_root gather_impl_direct_nonroot.

(** ** Archives *)

(** Modelled from the spec: the serialization of a value of [T], which
    [packed_oarchive] and [packed_iarchive] (not part of this file) drive.
    [save v] is the byte string that [oa << v] appends to the output buffer;
    [load buf pos] is what [ia >> x] reads from the buffer at position [pos]:
    the value and the position after it, or nothing when the bytes do not
    decode (spec, section 6: [encode(value) -> bytes],
    [decode(bytes, offset) -> value]). *)
Record serializer (T : Type) : Type := {
  save : T -> list byte;
  load : list byte -> Z -> option (T * Z)
}.

Arguments save {T} _ _.
Arguments load {T} _ _ _.

(** Modelled from the spec: [packed_iarchive ia(comm, buffer, no_header,
    position)], an input buffer and the position of the next read. *)
Record packed_iarchive : Type := {
  ia_buffer : list byte;
  ia_position : Z
}.

(** One use of [ia >> x], for sender [ev_src], at position [ev_position].
    The list of these events is ghost state of the decoding loop: it records
    which reads the loop performs, in order. *)
Record ia_event : Type := { ev_src : Z; ev_position : Z }.

(** ** The serialized path: [detail::gather_impl(..., mpl::false_)] *)

Section Serialized.
Context {T : Type} (ser : serializer T).

(** Modelled from the spec: [packed_oarchive oa(comm)] starts with an empty
    buffer (no header), spec section 4.4 step 1. *)
Definition oa_new : list byte := [].

(** [oa << v] *)
Definition oa_save (oa : list byte) (v : T) : list byte := oa ++ save ser v.

(** [ia >> x] *)
Definition ia_load (ia : packed_iarchive) : option (T * packed_iarchive) :=
  match load ser (ia_buffer ia) (ia_position ia) with
  | Some (v, pos') => Some (v, {| ia_buffer := ia_buffer ia; ia_position := pos' |})
  | None => None
  end.

(** Lines 81-84: [for (int i = 0; i < n; ++i) oa << in_values[i];] *)
Definition encode_values (in_values : list T) (n : Z) : outcome (list byte) :=
  for_range 0 n
    (fun i oa =>
       match vec_get in_values i with
       | Some v => Returned (oa_save oa v)
       | None => Crashed OutOfBounds
       end) oa_new.

(** Line 101: [std::copy(in_values, in_values + n, out_values + dst)].  With
    a negative [n] the end of the range lies before its start, which is no
    range of [in_values]. *)
Definition copy_values (in_values : list T) (n : Z) (out_values : buffer T)
    (dst : Z) : outcome (buffer T) :=
  if n <? 0 then Crashed OutOfBounds
  else
    for_range 0 n
      (fun i out =>
         match vec_get in_values i with
         | Some v => buf_set out (dst + i) v
         | None => Crashed OutOfBounds
         end) out_values.

(** The memory behind [out_values] and the reads done so far. *)
Local Abbreviation decode_state := (buffer T * list ia_event)%type (only parsing).

(** Lines 103-106: an input archive at [offset] and [n] reads from it into
    [out_values[n*src + i]]. *)
Definition decode_segment (recv_buffer : list byte) (offset : Z) (n src : Z)
    (st : decode_state) : outcome decode_state :=
  outcome_map snd
    (for_range 0 n
       (fun i '(ia, (out, tr)) =>
          let tr' := tr ++ [{| ev_src := src; ev_position := ia_position ia |}] in
          match ia_load ia with
          | None => Threw DecodeError (ia, (out, tr'))
          | Some (v, ia') =>
              outcome_map (fun out' => (ia', (out', tr')))
                (buf_set out (Int.add (Int.mul n src) i) v)
          end)
       ({| ia_buffer := recv_buffer; ia_position := offset |}, st)).

(** Lines 100-107: the body of the loop over the senders. *)
Definition decode_sender (in_values : list T) (n : Z) (root : Z)
    (recv_buffer : list byte) (offsets : list Z) (src : Z) (st : decode_state)
  : outcome decode_state :=
  let '(out, tr) := st in
  if src =? root then
    outcome_map (fun out' => (out', tr))
      (copy_values in_values n out (Int.mul n src))
  else
    match vec_get offsets src with
    | Some offset => decode_segment recv_buffer offset n src (out, tr)
    | None => Crashed OutOfBounds
    end.

(** Lines 99-108: the loop over the senders, run by the root. *)
Definition decode_phase (comm : communicator) (in_values : list T) (n : Z)
    (out_values : buffer T) (root : Z) (recv_buffer : list byte)
    (offsets : list Z) : outcome decode_state :=
  for_range 0 (comm_size comm)
    (decode_sender in_values n root recv_buffer offsets)
    (out_values, []).

(** Lines 87-109: the exchange of the payloads, once the sizes are
    gathered, and the decoding on the root. *)
Definition payload_exchange (comm : communicator)
    (in_values : list T) (n : Z) (out_values : buffer T) (root : Z)
    (oa : list byte) (asizes : list Z) : coll Z (outcome (buffer T)) :=
  let nproc := comm_size comm in
  within (vec_new 0 nproc) out_values (fun offsets0 =>
  within (if rank comm =? root then sizes2offset asizes offsets0
          else Returned offsets0) out_values (fun offsets =>
  within (vec_new x00 (accumulate asizes)) out_values (fun recv_buffer =>
  MPI_Gatherv oa (Int.wrap (size oa)) recv_buffer asizes offsets root
    (fun status recv_buffer' =>
  within (BOOST_MPI_CHECK_RESULT status tt) out_values (fun _ =>
  if rank comm =? root then
    Ret (outcome_map fst
           (decode_phase comm in_values n out_values root recv_buffer' offsets))
  else Ret (Returned out_values)))))).

(** Lines 72-110.  The same function is run by the root, with its receive
    buffer, and by the others, with the null pointer: the values are encoded
    (lines 81-84), the sizes are gathered by [gather] itself (lines 85-86),
    and the payloads are exchanged. *)
Definition gather_impl_serialized_root (comm : communicator)
    (in_values : list T) (n : Z) (out_values : buffer T) (root : Z)
  : coll Z (outcome (buffer T)) :=
  within (encode_values in_values n) out_values (fun oa =>
  coll_bind (gather_int comm (Int.wrap (size oa)) [] root) (fun gathered =>
  within gathered out_values (fun asizes =>
  payload_exchange comm in_values n out_values root oa asizes))).

(** Lines 115-121: [gather_impl(comm, in_values, n, (T* )0, root, is_mpi_type)]. *)
Definition gather_impl_serialized_nonroot (comm : communicator)
    (in_values : list T) (n : Z) (root : Z) : coll Z (outcome unit) :=
  coll_map (outcome_map (fun _ => tt))
    (gather_impl_serialized_root comm in_values n None root).

End Serialized.

(** ** Dispatch on [is_mpi_datatype<T>()] *)

(** The tag type of [T]: [mpl::true_] when [T] has an MPI datatype,
    [mpl::false_] when it has to be serialized. *)
Inductive mpi_tag (T : Type) : Type :=
| mpl_true
| mpl_false (ser : serializer T).

Arguments mpl_true {T}.
Arguments mpl_false {T} ser.

(** The elements that [MPI_Gather] moves for [T]: values of [T] itself on the
    direct path, the [int] sizes on the serialized path. *)
Definition wire {T} (tag : mpi_tag T) : Type :=
  match tag with
  | mpl_true => T
  | mpl_false _ => Z
  end.

Definition gather_impl_root {T} (tag : mpi_tag T)
  : communicator -> list T -> Z -> buffer T -> Z ->
    coll (wire tag) (outcome (buffer T)) :=
  match tag with
  | mpl_true => gather_impl_direct_root
  | mpl_false ser => gather_impl_serialized_root ser
  end.

Definition gather_impl_nonroot {T} (tag : mpi_tag T)
  : communicator -> list T -> Z -> Z -> coll (wire tag) (outcome unit) :=
  match tag with
  | mpl_true => gather_impl_direct_nonroot
  | mpl_false ser => gather_impl_serialized_nonroot ser
  end.

(** The public overloads of [gather] for a type [T] with tag [tag]. *)
Module Gather.
Section Overloads.
Context {T : Type} `{DefaultConstructible T} (tag : mpi_tag T).

Definition scalar_ptr := gather_scalar_ptr (gather_impl_root tag) (gather_impl_nonroot tag).
Definition scalar_nonroot := gather_scalar_nonroot (gather_impl_nonroot tag).
Definition scalar_vec := gather_scalar_vec (gather_impl_root tag) (gather_impl_nonroot tag).
Definition array_ptr := gather_array_ptr (gather_impl_root tag) (gather_impl_nonroot tag).
Definition array_nonroot := gather_array_nonroot (gather_impl_nonroot tag).
Definition array_vec := gather_array_vec (gather_impl_root tag) (gather_impl_nonroot tag).

End Overloads.
End Gather.

(** ** The transport: a group of participants run in lock step *)

(** [seg] written into [mem] from index [pos] on. *)
Definition write_at {A} (mem : list A) (pos : nat) (seg : list A) : list A :=
  take pos mem ++ seg ++ drop (pos + length seg) mem.

(** [len] elements of [mem] from index [start] on. *)
Definition slice {A} (mem : list A) (start len : Z) : list A :=
  take (Z.to_nat len) (drop (Z.to_nat start) mem).

Fixpoint all_some {A} (l : list (option A)) : option (list A) :=
  match l with
  | [] => Some []
  | Some x :: l' => match all_some l' with Some xs => Some (x :: xs) | None => None end
  | None :: _ => None
  end.

Section Transport.
Context {E R : Type}.

Record gather_call : Type := {
  g_sendbuf : list E; g_sendcount : Z;
  g_recvbuf : buffer E; g_recvcount : Z; g_root : Z;
  g_resume : Z -> buffer E -> coll E R
}.

Record gatherv_call : Type := {
  gv_sendbuf : list byte; gv_sendcount : Z;
  gv_recvbuf : list byte; gv_recvcounts : list Z; gv_displs : list Z;
  gv_root : Z;
  gv_resume : Z -> list byte -> coll E R
}.

Definition returned (p : coll E R) : option R :=
  match p with Ret r => Some r | _ => None end.

Definition pending_gather (p : coll E R) : option gather_call :=
  match p with
  | MPI_Gather sb sc rb rc root k =>
      Some {| g_sendbuf := sb; g_sendcount := sc; g_recvbuf := rb;
              g_recvcount := rc; g_root := root; g_resume := k |}
  | _ => None
  end.

Definition pending_gatherv (p : coll E R) : option gatherv_call :=
  match p with
  | MPI_Gatherv sb sc rb rcs ds root k =>
      Some {| gv_sendbuf := sb; gv_sendcount := sc; gv_recvbuf := rb;
              gv_recvcounts := rcs; gv_displs := ds; gv_root := root;
              gv_resume := k |}
  | _ => None
  end.

(** Modelled from the spec: [bulk_transfer_fixed] of section 6, that is
    [MPI_Gather].  The block of [count] elements sent by rank [k] lands at
    [k * count] in the receive buffer of the root. *)
Definition gather_deliver (count : Z) (sends : list (list E)) (mem : list E)
  : list E :=
  foldl (fun m '(k, s) => write_at m (Z.to_nat (k * count)) (take (Z.to_nat count) s))
    mem (zip (seqZ 0 (size sends)) sends).

(** Modelled from the spec: [bulk_transfer_variable] of section 6, that is
    [MPI_Gatherv].  The [counts[k]] bytes sent by rank [k] land at
    [displs[k]] in the receive buffer of the root. *)
Definition gatherv_deliver (sends : list (list byte)) (counts displs : list Z)
    (mem : list byte) : list byte :=
  foldl (fun m '(s, (c, d)) => write_at m (Z.to_nat d) (take (Z.to_nat c) s))
    mem (zip sends (zip counts displs)).

(** Modelled from the spec: the contract of the transport (section 3, Group,
    and section 6).  The calls of a group match when all name the same root,
    a rank of the group, every sender has the elements it announces and
    announces as many as the root expects from it, and what the root receives
    fits its buffer. *)
Definition gather_matches (calls : list gather_call) (root : Z) (mem : list E)
    (count : Z) : bool :=
  (0 <=? root) && (root <? size calls) && (0 <=? count)
  && forallb (fun c => (g_root c =? root) && (g_sendcount c =? count)
                       && (count <=? size (g_sendbuf c))) calls
  && (size calls * count <=? size mem).

Definition gatherv_matches (calls : list gatherv_call) (root : Z)
    (mem : list byte) (counts displs : list Z) : bool :=
  (0 <=? root) && (root <? size calls)
  && (size calls =? size counts) && (size calls =? size displs)
  && forallb (fun c => (gv_root c =? root) && (0 <=? gv_sendcount c)
                       && (gv_sendcount c <=? size (gv_sendbuf c))) calls
  && bool_decide (map gv_sendcount calls = counts)
  && forallb (fun '(c, d) => (0 <=? d) && (d + c <=? size mem)) (zip counts displs).

(** Modelled from the spec: one collective call of the whole group (section
    5: every participant joins the call before any goes on).  The root is the
    one named by rank 0; every participant resumes with success, the root
    with its receive buffer filled.  A group whose calls do not match is
    outside the contract of the transport and has no next state. *)
Definition step_gather (calls : list gather_call) : option (list (coll E R)) :=
  match calls !! O with
  | None => None
  | Some c0 =>
      let root := g_root c0 in
      match calls !! Z.to_nat root with
      | Some cr =>
          match g_recvbuf cr with
          | Some mem =>
              if gather_matches calls root mem (g_recvcount cr) then
                let mem' := gather_deliver (g_recvcount cr) (map g_sendbuf calls) mem in
                Some (map (fun '(k, c) =>
                             g_resume c MPI_SUCCESS
                               (if k =? root then Some mem' else g_recvbuf c))
                        (zip (seqZ 0 (size calls)) calls))
              else None
          | None => None
          end
      | None => None
      end
  end.

Definition step_gatherv (calls : list gatherv_call) : option (list (coll E R)) :=
  match calls !! O with
  | None => None
  | Some c0 =>
      let root := gv_root c0 in
      match calls !! Z.to_nat root with
      | Some cr =>
          let mem := gv_recvbuf cr in
          if gatherv_matches calls root mem (gv_recvcounts cr) (gv_displs cr) then
            let mem' := gatherv_deliver (map gv_sendbuf calls)
                          (gv_recvcounts cr) (gv_displs cr) mem in
            Some (map (fun '(k, c) =>
                         gv_resume c MPI_SUCCESS
                           (if k =? root then mem' else gv_recvbuf c))
                    (zip (seqZ 0 (size calls)) calls))
          else None
      | None => None
      end
  end.

Definition step_group (ps : list (coll E R)) : option (list (coll E R)) :=
  match all_some (map pending_gather ps) with
  | Some calls => step_gather calls
  | None =>
      match all_some (map pending_gatherv ps) with
      | Some calls => step_gatherv calls
      | None => None
      end
  end.

(** Modelled from the spec: the group runs until every participant has
    returned; [fuel] bounds the number of collective calls. *)
Fixpoint run_group (fuel : nat) (ps : list (coll E R)) : option (list R) :=
  match all_some (map returned ps) with
  | Some rs => Some rs
  | None =>
      match fuel with
      | O => None
      | S fuel' =>
          match step_group ps with
          | Some ps' => run_group fuel' ps'
          | None => None
          end
      end
  end.

End Transport.

(** [P] holds of whatever the program returns, whatever its collective calls
    report. *)
Inductive leaves {E R} (P : R -> Prop) : coll E R -> Prop :=
| leaves_Ret r : P r -> leaves P (Ret r)
| leaves_Gather sb sc rb rc root k :
    (forall status mem, leaves P (k status mem)) ->
    leaves P (MPI_Gather sb sc rb rc root k)
| leaves_Gatherv sb sc rb rcs ds root k :
    (forall status mem, leaves P (k status mem)) ->
    leaves P (MPI_Gatherv sb sc rb rcs ds root k).

(** The memory that an outcome leaves to the caller, when the process is
    still there. *)
Definition leaves_memory {St} (s : St) (o : outcome St) : Prop :=
  match o with
  | Returned s' | Threw _ s' => s' = s
  | Crashed _ => True
  end.

(** The programs of a group of [nproc] participants, one per rank. *)
Definition group {E R} (nproc : Z) (prog : communicator -> coll E R)
  : list (coll E R) :=
  map (fun k => prog {| rank := k; comm_size := nproc |}) (seqZ 0 nproc).

(** ** Vocabulary of the statements *)

(** Byte [b] lies in the segment of sender [k]. *)
Definition segment (offsets sizes : list Z) (k : nat) (b : Z) : Prop :=
  exists o s, offsets !! k = Some o /\ sizes !! k = Some s /\ o <= b < o + s.

Definition segments_disjoint (offsets sizes : list Z) : Prop :=
  forall j k b, j <> k -> segment offsets sizes j b -> ~ segment offsets sizes k b.

Definition segments_cover (offsets sizes : list Z) : Prop :=
  forall b, 0 <= b < sumZ sizes <-> exists k, segment offsets sizes k b.

(** [offsets[0] == 0] and [offsets[k] == offsets[k-1] + sizes[k-1]], the sum
    taken by [plus]. *)
Definition offsets_recurrence (plus : Z -> Z -> Z) (sizes offsets : list Z) : Prop :=
  length offsets = length sizes /\
  offsets !! O = Some 0 /\
  forall k, (S k < length sizes)%nat ->
    exists o s, offsets !! k = Some o /\ sizes !! k = Some s /\
                offsets !! S k = Some (plus o s).

(** The bytes that [oa << v] appends for the values [vs], in order. *)
Definition encoded {T} (ser : serializer T) (vs : list T) : list byte :=
  concat (map (save ser) vs).

(** The values that up to [count] successive reads yield from position
    [pos] on; the reads end with the first one that fails. *)
Fixpoint read_prefix {T} (ser : serializer T) (buf : list byte) (pos : Z)
    (count : nat) : list T :=
  match count with
  | O => []
  | S c =>
      match load ser buf pos with
      | Some (v, pos') => v :: read_prefix ser buf pos' c
      | None => []
      end
  end.

(** The positions at which these reads happen, the failing one included. *)
Fixpoint read_positions {T} (ser : serializer T) (buf : list byte) (pos : Z)
    (count : nat) : list Z :=
  match count with
  | O => []
  | S c =>
      pos :: match load ser buf pos with
             | Some (_, pos') => read_positions ser buf pos' c
             | None => []
             end
  end.

(** What the decoding loop stores for sender [src]: the root's own values
    for the root, the values read at the sender's offset for the others. *)
Definition received {T} (ser : serializer T) (in_values : list T) (n root : Z)
    (buf : list byte) (offsets : list Z) (src : Z) : list T :=
  if src =? root then take (Z.to_nat n) in_values
  else read_prefix ser buf (default 0 (vec_get offsets src)) (Z.to_nat n).

(** The reads that the decoding loop performs for sender [src]. *)
Definition read_events {T} (ser : serializer T) (n root : Z)
    (buf : list byte) (offsets : list Z) (src : Z) : list ia_event :=
  if src =? root then []
  else map (fun p => {| ev_src := src; ev_position := p |})
         (read_positions ser buf (default 0 (vec_get offsets src)) (Z.to_nat n)).

(** The contract of the serialization (spec, section 6): a read at the
    start of the bytes written for [v] yields [v] and ends after them. *)
Definition roundtrip {T} (ser : serializer T) : Prop :=
  forall pre v post,
    load ser (pre ++ save ser v ++ post) (size pre)
    = Some (v, size pre + size (save ser v)).

(** What the path taken for [T] needs of the values of a group: nothing on
    the direct path; on the serialized path, that reads undo writes and that
    the [int] quantities of [gather_impl] are [int]s: the number of
    participants, the number of gathered values, and the sum of the sizes of
    the encoded payloads. *)
Definition transmissible {T} (tag : mpi_tag T) (N n : Z) (vals : Z -> list T)
  : Prop :=
  match tag with
  | mpl_true => True
  | mpl_false ser =>
      roundtrip ser /\
      N <= Int.max_int /\ N * n <= Int.max_int /\
      sumZ (map (fun k => size (encoded ser (take (Z.to_nat n) (vals k))))
              (seqZ 0 N)) <= Int.max_int
  end.

(** The layout that the specification states for the offsets of [sizes]. *)
Definition offsets_layout (sizes offsets : list Z) : Prop :=
  offsets_recurrence Z.add sizes offsets /\
  segments_disjoint offsets sizes /\
  segments_cover offsets sizes /\
  (length sizes = 1%nat -> offsets = [0]).

(** A serialization of the natural numbers for the examples: [v] is written
    as [v] bytes [x01] and a closing [x00]. *)
Fixpoint scan_unary (bs : list byte) : option nat :=
  match bs with
  | x00 :: _ => Some O
  | x01 :: bs' =>
      match scan_unary bs' with Some v => Some (S v) | None => None end
  | _ => None
  end.

Definition unary : serializer nat := {|
  save v := replicate v x01 ++ [x00];
  load buf pos :=
    if pos <? 0 then None
    else match scan_unary (drop (Z.to_nat pos) buf) with
         | Some v => Some (v, pos + Z.of_nat v + 1)
         | None => None
         end
|}.

(** A serialization with a flaw, for the examples: the value 7 is written
    as a byte that does not decode. *)
Definition flawed : serializer nat := {|
  save v := if Nat.eqb v 7 then [x02] else save unary v;
  load := load unary
|}.

(** A group of three for the examples: rank [k] contributes
    [scenario_vals k], rank 2 is the root and owns a buffer of three. *)
Definition scenario_vals (k : Z) : list nat :=
  nth (Z.to_nat k) [[1]; [7]; [3]]%nat [].

Definition scenario_outs (k : Z) : buffer nat :=
  if k =? 2 then Some [9; 9; 9]%nat else None.

(** * Properties *)

(** ** Machine integers, vectors, loops *)

Lemma wrap_in_range z : Int.in_range z -> Int.wrap z = z.
Proof.
  unfold Int.in_range, Int.min_int, Int.max_int, Int.wrap. intros Hz.
  rewrite Z.mod_small; lia.
Qed.

Lemma wrap_small z : 0 <= z <= Int.max_int -> Int.wrap z = z.
Proof.
  intros Hz. apply wrap_in_range.
  unfold Int.in_range, Int.min_int, Int.max_int in *. lia.
Qed.

Lemma size_nonneg {A} (v : list A) : 0 <= size v.
Proof. unfold size. lia. Qed.

Lemma to_nat_size {A} (v : list A) (z : Z) : size v = z -> Z.to_nat z = length v.
Proof. unfold size. lia. Qed.

Lemma vec_get_lookup {A} (v : list A) (i : nat) :
  vec_get v (Z.of_nat i) = v !! i.
Proof.
  unfold vec_get. destruct (Z.leb_spec 0 (Z.of_nat i)); [|lia].
  by rewrite Nat2Z.id.
Qed.

Lemma vec_get_None {A} (v : list A) (i : Z) :
  ~ (0 <= i < size v) -> vec_get v i = None.
Proof.
  unfold vec_get, size. intros Hi.
  destruct (Z.leb_spec 0 i); [|done].
  apply lookup_ge_None. lia.
Qed.

Lemma vec_set_insert {A} (v : list A) (i : nat) (x : A) :
  (i < length v)%nat -> vec_set v (Z.of_nat i) x = Some (<[i := x]> v).
Proof.
  unfold vec_set, size. intros Hi.
  destruct (Z.leb_spec 0 (Z.of_nat i)); [|lia].
  destruct (Z.ltb_spec (Z.of_nat i) (Z.of_nat (length v))); [|lia].
  by rewrite Nat2Z.id.
Qed.

Lemma vec_set_None {A} (v : list A) (i : Z) (x : A) :
  ~ (0 <= i < size v) -> vec_set v i x = None.
Proof.
  unfold vec_set. intros Hi.
  destruct (Z.leb_spec 0 i), (Z.ltb_spec i (size v)); simpl; try done. lia.
Qed.

(** The rule of the counted loop: an invariant that every iteration keeps,
    and whose iterations all return, holds when the loop is left. *)
Lemma for_loop_invariant {St} (I : Z -> St -> Prop) body count lo (s : St) :
  I lo s ->
  (forall i s, lo <= i < lo + Z.of_nat count -> I i s ->
     exists s', body i s = Returned s' /\ I (i + 1) s') ->
  exists s', for_loop count lo body s = Returned s' /\ I (lo + Z.of_nat count) s'.
Proof.
  revert lo s. induction count as [|c IH]; intros lo s HI Hbody.
  - exists s. split; [done|]. by replace (lo + Z.of_nat 0) with lo by lia.
  - destruct (Hbody lo s) as (s1 & Hs1 & HI1); [lia|done|].
    destruct (IH (lo + 1) s1) as (s2 & Hs2 & HI2); [done| |].
    + intros i s' Hi. apply Hbody. lia.
    + exists s2. simpl. rewrite Hs1. split; [done|].
      by replace (lo + Z.of_nat (S c)) with (lo + 1 + Z.of_nat c) by lia.
Qed.

Lemma for_range_invariant {St} (I : Z -> St -> Prop) body lo hi (s : St) :
  lo <= hi ->
  I lo s ->
  (forall i s, lo <= i < hi -> I i s ->
     exists s', body i s = Returned s' /\ I (i + 1) s') ->
  exists s', for_range lo hi body s = Returned s' /\ I hi s'.
Proof.
  intros Hle HI Hbody. unfold for_range.
  destruct (for_loop_invariant I body (Z.to_nat (hi - lo)) lo s) as (s' & Hs & HI');
    [done| |].
  - intros i s' Hi. apply Hbody. lia.
  - exists s'. split; [done|]. by replace hi with (lo + Z.of_nat (Z.to_nat (hi - lo))) at 1 by lia.
Qed.

(** ** [sizes2offset] *)

Lemma size_t_sub_small a b : 0 <= a - b < 2 ^ 64 -> size_t_sub a b = a - b.
Proof. intros Hab. unfold size_t_sub. by apply Z.mod_small. Qed.

Lemma max_int_lt_size_t : Int.max_int < 2 ^ 64.
Proof. unfold Int.max_int. lia. Qed.

Lemma sizes2offset_body_returns sizes offsets (i : nat) :
  length offsets = length sizes ->
  (S i < length sizes)%nat ->
  exists o s, offsets !! i = Some o /\ sizes !! i = Some s /\
    sizes2offset_body sizes (Z.of_nat i) offsets
    = Returned (<[S i := Int.add o s]> offsets).
Proof.
  intros Hlen Hi. unfold sizes2offset_body.
  destruct (lookup_lt_is_Some_2 offsets i) as [o Ho]; [lia|].
  destruct (lookup_lt_is_Some_2 sizes i) as [s Hs]; [lia|].
  exists o, s. rewrite !vec_get_lookup, Ho, Hs.
  replace (Z.of_nat i + 1) with (Z.of_nat (S i)) by lia.
  rewrite vec_set_insert by lia. done.
Qed.

(** The loop, for any bound within the vector. *)
Lemma sizes2offset_loop sizes offsets hi :
  length offsets = length sizes ->
  0 <= hi <= size sizes - 1 ->
  exists offs,
    for_range 0 hi (sizes2offset_body sizes) (<[O := 0]> offsets) = Returned offs /\
    length offs = length sizes /\ offs !! O = Some 0 /\
    forall k, Z.of_nat k < hi ->
      exists o s, offs !! k = Some o /\ sizes !! k = Some s /\
                  offs !! S k = Some (Int.add o s).
Proof.
  intros Hlen Hhi.
  set (I := fun (i : Z) (offs : list Z) =>
    length offs = length sizes /\ offs !! O = Some 0 /\
    forall k, Z.of_nat k < i ->
      exists o s, offs !! k = Some o /\ sizes !! k = Some s /\
                  offs !! S k = Some (Int.add o s)).
  apply (for_range_invariant I).
  - lia.
  - split; [by rewrite length_insert|]. split.
    + apply list_lookup_insert_eq. unfold size in Hhi. lia.
    + intros k Hk. lia.
  - intros i offs Hi (Hl & H0 & Hrec).
    destruct (sizes2offset_body_returns sizes offs (Z.to_nat i))
      as (o & s & Ho & Hs & Hbody); [done|unfold size in Hhi; lia|].
    rewrite Z2Nat.id in Hbody by lia.
    eexists. split; [exact Hbody|]. split; [by rewrite length_insert|]. split.
    + rewrite list_lookup_insert_ne by lia. done.
    + intros k Hk. destruct (decide (k = Z.to_nat i)) as [->|Hne'].
      * exists o, s. split; [|split; [done|]].
        -- rewrite list_lookup_insert_ne by lia. done.
        -- apply list_lookup_insert_eq. unfold size in Hhi. lia.
      * destruct (Hrec k) as (o' & s' & Ho' & Hs' & Hn'); [lia|].
        exists o', s'. rewrite !list_lookup_insert_ne by lia. done.
Qed.

Lemma sizes2offset_unfold sizes offsets :
  sizes <> [] ->
  length offsets = length sizes ->
  sizes2offset sizes offsets
  = for_range 0 (size_t_sub (size sizes) 1) (sizes2offset_body sizes)
      (<[O := 0]> offsets).
Proof.
  intros Hne Hlen.
  assert (0 < length sizes)%nat as Hpos by (destruct sizes; [done|simpl; lia]).
  unfold sizes2offset.
  replace (size offsets =? size sizes) with true
    by (symmetry; apply Z.eqb_eq; unfold size; lia).
  simpl. change 0 with (Z.of_nat 0) at 1. by rewrite vec_set_insert by lia.
Qed.

(** On a non-empty vector and an output of the same length the function
    returns: no access leaves the vectors, whatever the unsigned bound of the
    loop is. *)
Lemma sizes2offset_in_bounds sizes offsets :
  sizes <> [] ->
  length offsets = length sizes ->
  exists offs, sizes2offset sizes offsets = Returned offs /\
               length offs = length sizes.
Proof.
  intros Hne Hlen.
  assert (0 < length sizes)%nat as Hpos by (destruct sizes; [done|simpl; lia]).
  rewrite sizes2offset_unfold by done.
  destruct (sizes2offset_loop sizes offsets (size_t_sub (size sizes) 1))
    as (offs & Hrun & Hl & _); [done| |by exists offs].
  unfold size_t_sub, size. split.
  - apply Z.mod_pos_bound. lia.
  - apply Z.mod_le; lia.
Qed.

(** When the length is an [int], what it returns obeys the recurrence in
    [int] arithmetic. *)
Lemma sizes2offset_returns sizes offsets :
  sizes <> [] ->
  length offsets = length sizes ->
  size sizes <= Int.max_int ->
  exists offs, sizes2offset sizes offsets = Returned offs /\
               offsets_recurrence Int.add sizes offs.
Proof.
  intros Hne Hlen Hmax.
  assert (0 < length sizes)%nat as Hpos by (destruct sizes; [done|simpl; lia]).
  pose proof max_int_lt_size_t as Hsz.
  rewrite sizes2offset_unfold by done.
  rewrite size_t_sub_small by (unfold size in *; lia).
  destruct (sizes2offset_loop sizes offsets (size sizes - 1))
    as (offs & Hrun & Hl & H0 & Hrec); [done|unfold size; lia|].
  exists offs. split; [done|]. split; [done|]. split; [done|].
  intros k Hk. apply Hrec. unfold size. lia.
Qed.

(** Partial sums of non-negative numbers. *)
Lemma sumZ_app (l1 l2 : list Z) : sumZ (l1 ++ l2) = sumZ l1 + sumZ l2.
Proof. unfold sumZ. induction l1 as [|x l1 IH]; simpl; [done|]. rewrite IH. lia. Qed.

Lemma sumZ_nonneg (l : list Z) : Forall (fun s => 0 <= s) l -> 0 <= sumZ l.
Proof. unfold sumZ. induction 1; simpl; lia. Qed.

Lemma sumZ_take_S (l : list Z) (k : nat) (s : Z) :
  l !! k = Some s -> sumZ (take (S k) l) = sumZ (take k l) + s.
Proof.
  intros Hk. rewrite (take_S_r _ _ _ Hk), sumZ_app. unfold sumZ. simpl. lia.
Qed.

Lemma sumZ_take_le (l : list Z) (k : nat) :
  Forall (fun s => 0 <= s) l -> 0 <= sumZ (take k l) <= sumZ l.
Proof.
  intros Hl. rewrite <- (take_drop k l) at 3. rewrite sumZ_app.
  pose proof (sumZ_nonneg (take k l) (Forall_take _ _ _ Hl)).
  pose proof (sumZ_nonneg (drop k l) (Forall_drop _ _ _ Hl)). lia.
Qed.

Lemma sumZ_take_mono (l : list Z) (j k : nat) :
  Forall (fun s => 0 <= s) l -> (j <= k)%nat ->
  sumZ (take j l) <= sumZ (take k l).
Proof.
  intros Hl Hjk. replace (take j l) with (take j (take k l))
    by (rewrite take_take; f_equal; lia).
  apply sumZ_take_le. by apply Forall_take.
Qed.

(** With non-negative sizes whose sum is an [int], every offset is the sum of
    the sizes before it. *)
Lemma recurrence_prefix_sums sizes offs :
  Forall (fun s => 0 <= s) sizes ->
  sumZ sizes <= Int.max_int ->
  offsets_recurrence Int.add sizes offs ->
  forall k, (k < length sizes)%nat -> offs !! k = Some (sumZ (take k sizes)).
Proof.
  intros Hnn Hsum (Hlen & H0 & Hrec) k. induction k as [|k IH]; intros Hk.
  - by rewrite take_0.
  - destruct (Hrec k Hk) as (o & s & Ho & Hs & Hn).
    rewrite IH in Ho by lia. injection Ho as <-.
    rewrite Hn, (sumZ_take_S _ _ _ Hs). f_equal.
    unfold Int.add. apply wrap_small.
    pose proof (sumZ_take_le sizes (S k) Hnn) as Hle.
    rewrite (sumZ_take_S _ _ _ Hs) in Hle. lia.
Qed.

Lemma prefix_sums_disjoint sizes offs :
  Forall (fun s => 0 <= s) sizes ->
  (forall k, (k < length sizes)%nat -> offs !! k = Some (sumZ (take k sizes))) ->
  segments_disjoint offs sizes.
Proof.
  intros Hnn Hoff.
  assert (forall j k b, (j < k)%nat ->
            segment offs sizes j b -> ~ segment offs sizes k b) as Hlt.
  { intros j k b Hjk (oj & sj & Hoj & Hsj & Hbj) (ok & sk & Hok & Hsk & Hbk).
    pose proof (lookup_lt_Some _ _ _ Hsj) as Hj.
    pose proof (lookup_lt_Some _ _ _ Hsk) as Hk.
    rewrite Hoff in Hoj by done. rewrite Hoff in Hok by done.
    injection Hoj as <-. injection Hok as <-.
    pose proof (sumZ_take_mono sizes (S j) k Hnn ltac:(lia)) as Hmono.
    rewrite (sumZ_take_S _ _ _ Hsj) in Hmono. lia. }
  intros j k b Hjk Hj Hk.
  destruct (Nat.lt_total j k) as [Hlt'|[->|Hgt]]; [|done|].
  - exact (Hlt j k b Hlt' Hj Hk).
  - exact (Hlt k j b Hgt Hk Hj).
Qed.

Lemma prefix_sums_cover sizes offs :
  Forall (fun s => 0 <= s) sizes ->
  (forall k, (k < length sizes)%nat -> offs !! k = Some (sumZ (take k sizes))) ->
  segments_cover offs sizes.
Proof.
  intros Hnn Hoff b. split.
  - intros Hb.
    assert (forall m, (m <= length sizes)%nat -> b < sumZ (take m sizes) ->
              exists k, segment offs sizes k b) as Hfind.
    { induction m as [|m IH]; intros Hm Hlt.
      - rewrite take_0 in Hlt. unfold sumZ in Hlt. simpl in Hlt. lia.
      - destruct (lookup_lt_is_Some_2 sizes m) as [s Hs]; [lia|].
        rewrite (sumZ_take_S _ _ _ Hs) in Hlt.
        destruct (Z.lt_ge_cases b (sumZ (take m sizes))) as [Hlt'|Hge].
        + apply IH; [lia|done].
        + exists m, (sumZ (take m sizes)), s.
          split; [apply Hoff; lia|]. split; [done|lia]. }
    apply (Hfind (length sizes)); [done|]. rewrite firstn_all. lia.
  - intros (k & o & s & Ho & Hs & Hb).
    pose proof (lookup_lt_Some _ _ _ Hs) as Hk.
    rewrite Hoff in Ho by done. injection Ho as <-.
    pose proof (sumZ_take_le sizes k Hnn).
    pose proof (sumZ_take_le sizes (S k) Hnn) as Hle.
    rewrite (sumZ_take_S _ _ _ Hs) in Hle. lia.
Qed.

Lemma recurrence_exact sizes offs :
  Forall (fun s => 0 <= s) sizes ->
  sumZ sizes <= Int.max_int ->
  offsets_recurrence Int.add sizes offs ->
  offsets_recurrence Z.add sizes offs.
Proof.
  intros Hnn Hsum Hrec.
  pose proof (recurrence_prefix_sums sizes offs Hnn Hsum Hrec) as Hoff.
  destruct Hrec as (Hlen & H0 & Hrec).
  split; [done|]. split; [done|]. intros k Hk.
  destruct (Hrec k Hk) as (o & s & Ho & Hs & Hn).
  exists o, s. split; [done|]. split; [done|].
  rewrite Hoff in Ho by lia. injection Ho as <-.
  rewrite Hoff by done. by rewrite (sumZ_take_S _ _ _ Hs).
Qed.

(** C2: for every non-empty vector of sizes, of a length that is an [int],
    the offset computation returns offsets with [offsets[0] == 0] and
    [offsets[k] == offsets[k-1] + s[k-1]], the sum taken in [int]; for a
    single size the loop bound is zero, so the loop body never runs, and the
    result is [[0]]; and for sizes that are byte lengths, non-negative and of
    a sum that is an [int], the recurrence holds exactly and the byte
    segments [[offsets[k], offsets[k] + s[k])] are pairwise disjoint and
    jointly cover [[0, sum(s))]. *)
Theorem sizes2offset_layout sizes offsets :
  sizes <> [] ->
  length offsets = length sizes ->
  size sizes <= Int.max_int ->
  exists offs,
    sizes2offset sizes offsets = Returned offs /\
    offsets_recurrence Int.add sizes offs /\
    (length sizes = 1%nat -> size_t_sub (size sizes) 1 = 0 /\ offs = [0]) /\
    (Forall (fun s => 0 <= s) sizes -> sumZ sizes <= Int.max_int ->
       offsets_layout sizes offs).
Proof.
  intros Hne Hlen Hmax.
  destruct (sizes2offset_returns sizes offsets Hne Hlen Hmax) as (offs & Hrun & Hrec).
  assert (length sizes = 1%nat -> offs = [0]) as Hone.
  { intros H1. destruct Hrec as (Hl & H0 & _). rewrite H1 in Hl.
    destruct offs as [|o [|? ?]]; simpl in *; try lia. by injection H0 as ->. }
  exists offs. split; [done|]. split; [done|]. split.
  - intros H1. split; [|by apply Hone]. unfold size. by rewrite H1.
  - intros Hnn Hsum.
    pose proof (recurrence_prefix_sums sizes offs Hnn Hsum Hrec) as Hoff.
    split; [by apply recurrence_exact|].
    split; [by apply prefix_sums_disjoint|].
    split; [by apply prefix_sums_cover|done].
Qed.

Lemma sizes2offset_layout_witness :
  exists offs,
    sizes2offset [5; 0; 4] [7; 7; 7] = Returned offs /\
    offsets_recurrence Int.add [5; 0; 4] offs /\
    offsets_layout [5; 0; 4] offs.
Proof.
  destruct (sizes2offset_layout [5; 0; 4] [7; 7; 7])
    as (offs & Hrun & Hrec & _ & Hlayout).
  - done.
  - reflexivity.
  - vm_compute. discriminate.
  - exists offs. split; [done|]. split; [done|]. apply Hlayout.
    + repeat constructor; lia.
    + vm_compute. discriminate.
Defined.

(** C10: the offset computation checks only that the two vectors have the
    same length.  Called with two empty vectors it passes the assertion and
    writes [offsets[0]] out of bounds (and the unsigned bound of its loop,
    [sizes.size() - 1], is then [2^64 - 1]).  When [sizes] is non-empty, of
    at most [INT_MAX] elements so that the [int] counter of the loop can
    walk it, and [offsets] has the same length, the bound of the loop is
    [sizes.size() - 1] and the call returns: none of its accesses, the ones
    of the loop included, leaves the vectors. *)
Theorem sizes2offset_bounds :
  (forall sizes offsets,
     length offsets <> length sizes ->
     sizes2offset sizes offsets = Crashed AssertionFailed) /\
  sizes2offset [] [] = Crashed OutOfBounds /\
  size_t_sub (size (@nil Z)) 1 = 2 ^ 64 - 1 /\
  (forall sizes offsets,
     sizes <> [] ->
     length offsets = length sizes ->
     size sizes <= Int.max_int ->
     size_t_sub (size sizes) 1 = size sizes - 1 /\
     exists offs, sizes2offset sizes offsets = Returned offs /\
                  length offs = length sizes).
Proof.
  split; [|split; [|split]].
  - intros sizes offsets Hlen. unfold sizes2offset.
    replace (size offsets =? size sizes) with false; [done|].
    symmetry. apply Z.eqb_neq. unfold size. lia.
  - reflexivity.
  - reflexivity.
  - intros sizes offsets Hne Hlen Hmax. split.
    + apply size_t_sub_small. pose proof max_int_lt_size_t.
      destruct sizes; [done|]. unfold size in *. simpl in *. lia.
    + by apply sizes2offset_in_bounds.
Qed.

Lemma sizes2offset_bounds_witness :
  sizes2offset [3; 4] [0] = Crashed AssertionFailed /\
  size_t_sub (size [3; 4]) 1 = size [3; 4] - 1 /\
  exists offs, sizes2offset [3; 4] [9; 9] = Returned offs /\
               length offs = length [3; 4].
Proof.
  destruct sizes2offset_bounds as (Hassert & _ & _ & Hret). split.
  - apply Hassert. simpl. lia.
  - apply Hret; [done|reflexivity|vm_compute; discriminate].
Defined.

(** ** The public overloads *)

(** C8: the two overloads without a receive buffer assert that the caller is
    not the root.  Called by the root they end in a failed assertion, which
    is not an exception, before any collective call; called by another
    participant they are the non-root [gather_impl] for the type. *)
Theorem nonroot_overloads_assert {T} (tag : mpi_tag T) (comm : communicator)
    (in_value : T) (in_values : list T) (n root : Z) :
  (rank comm = root ->
     Gather.scalar_nonroot tag comm in_value root = Ret (Crashed AssertionFailed) /\
     Gather.array_nonroot tag comm in_values n root = Ret (Crashed AssertionFailed)) /\
  (rank comm <> root ->
     Gather.scalar_nonroot tag comm in_value root
     = gather_impl_nonroot tag comm [in_value] 1 root /\
     Gather.array_nonroot tag comm in_values n root
     = gather_impl_nonroot tag comm in_values n root).
Proof.
  unfold Gather.scalar_nonroot, Gather.array_nonroot,
    gather_scalar_nonroot, gather_array_nonroot, BOOST_ASSERT.
  split; intros Hr.
  - apply Z.eqb_eq in Hr. by rewrite Hr.
  - apply Z.eqb_neq in Hr. by rewrite Hr.
Qed.

Lemma nonroot_overloads_assert_witness :
  Gather.scalar_nonroot (mpl_false unary) {| rank := 2; comm_size := 4 |} 7%nat 2
  = Ret (Crashed AssertionFailed) /\
  Gather.array_nonroot (mpl_false unary) {| rank := 2; comm_size := 4 |}
    [7%nat; 8%nat] 2 2
  = Ret (Crashed AssertionFailed) /\
  Gather.scalar_nonroot (@mpl_true Z) {| rank := 1; comm_size := 4 |} 7 2
  = gather_impl_nonroot mpl_true {| rank := 1; comm_size := 4 |} [7] 1 2.
Proof.
  destruct (nonroot_overloads_assert (mpl_false unary)
              {| rank := 2; comm_size := 4 |} 7%nat [7%nat; 8%nat] 2 2)
    as [Hroot _].
  destruct (nonroot_overloads_assert (@mpl_true Z)
              {| rank := 1; comm_size := 4 |} 7 [] 0 2) as [_ Hother].
  split; [apply Hroot; reflexivity|].
  split; [apply Hroot; reflexivity|].
  apply Hother. simpl. lia.
Defined.

Lemma leaves_coll_bind {E A B} (P : B -> Prop) (m : coll E A) (f : A -> coll E B) :
  (forall a, leaves P (f a)) -> leaves P (coll_bind m f).
Proof.
  intros Hf. induction m as [a|sb sc rb rc root k IH|sb sc rb rcs ds root k IH]; simpl.
  - apply Hf.
  - constructor. intros status mem. apply IH.
  - constructor. intros status mem. apply IH.
Qed.

Lemma leaves_coll_map {E A B} (P : B -> Prop) (f : A -> B) (m : coll E A) :
  (forall a, P (f a)) -> leaves P (coll_map f m).
Proof.
  intros Hf. apply leaves_coll_bind. intros a. constructor. apply Hf.
Qed.

Lemma leaves_memory_const {St A} (s : St) (o : outcome A) :
  leaves_memory s (outcome_map (fun _ => s) o).
Proof. by destruct o. Qed.

Lemma length_resize_Z {A} (x : A) (v : list A) (c : Z) :
  0 <= c -> size (resize (Z.to_nat c) x v) = c.
Proof. intros Hc. unfold size. rewrite length_resize. lia. Qed.

Lemma address_of_first_nonempty {T} (v : list T) :
  0 < size v -> address_of_first v = Returned (Some v).
Proof. unfold address_of_first, size. by destruct v; [simpl; lia|]. Qed.

Lemma address_of_first_empty {T} (v : list T) :
  size v = 0 -> address_of_first v = Crashed OutOfBounds.
Proof. unfold address_of_first, size. by destruct v; [|simpl; lia]. Qed.

(** C7: the overloads that take a [std::vector].  On the root the vector is
    resized to exactly [comm.size()] elements (scalar form) or
    [comm.size() * n] elements (array form) and the call is then the pointer
    overload on the storage of the resized vector; in the array form with no
    element at all, [out_values[0]] is outside the resized vector and the
    pointer overload is not reached.  On any other participant the vector
    the call leaves is the one it was given, whatever the collective calls
    report. *)
Theorem vector_overloads_resize {T} `{DefaultConstructible T} (tag : mpi_tag T)
    (comm : communicator) (in_value : T) (in_values : list T) (n root : Z)
    (out_values : list T) :
  (rank comm = root -> 0 <= comm_size comm ->
     exists resized,
       size resized = comm_size comm /\
       Gather.scalar_vec tag comm in_value out_values root
       = coll_map (through_data resized)
           (Gather.scalar_ptr tag comm in_value (Some resized) root)) /\
  (rank comm = root -> 0 <= comm_size comm * n <= Int.max_int ->
     exists resized,
       vec_resize out_values (Int.mul (comm_size comm) n) = Returned resized /\
       size resized = comm_size comm * n /\
       (0 < comm_size comm * n ->
          Gather.array_vec tag comm in_values n out_values root
          = coll_map (through_data resized)
              (Gather.array_ptr tag comm in_values n (Some resized) root)) /\
       (comm_size comm * n = 0 ->
          Gather.array_vec tag comm in_values n out_values root
          = Ret (Crashed OutOfBounds))) /\
  (rank comm <> root ->
     leaves (leaves_memory out_values)
       (Gather.scalar_vec tag comm in_value out_values root) /\
     leaves (leaves_memory out_values)
       (Gather.array_vec tag comm in_values n out_values root)).
Proof.
  unfold Gather.scalar_vec, Gather.array_vec, Gather.scalar_ptr, Gather.array_ptr,
    gather_scalar_vec, gather_array_vec.
  split; [|split].
  - intros Hr HN. apply Z.eqb_eq in Hr. rewrite Hr.
    exists (resize (Z.to_nat (comm_size comm)) value_init out_values).
    split; [by apply length_resize_Z|].
    unfold vec_resize. destruct (Z.ltb_spec (comm_size comm) 0); [lia|]. done.
  - intros Hr HN. apply Z.eqb_eq in Hr. rewrite Hr.
    set (resized := resize (Z.to_nat (comm_size comm * n)) value_init out_values).
    assert (size resized = comm_size comm * n) as Hsize
      by (apply length_resize_Z; lia).
    assert (vec_resize out_values (Int.mul (comm_size comm) n) = Returned resized)
      as Hresize.
    { unfold vec_resize, Int.mul. rewrite wrap_small by lia.
      by destruct (Z.ltb_spec (comm_size comm * n) 0); [lia|]. }
    exists resized. split; [done|]. split; [done|]. rewrite Hresize. cbn [within].
    split; intros Hcount.
    + by rewrite address_of_first_nonempty by lia.
    + by rewrite address_of_first_empty by lia.
  - intros Hr. apply Z.eqb_neq in Hr. rewrite Hr.
    split; apply leaves_coll_map; intros o; apply leaves_memory_const.
Qed.

Lemma vector_overloads_resize_witness :
  (exists resized,
     size resized = 3 /\
     Gather.scalar_vec (mpl_false unary) {| rank := 1; comm_size := 3 |} 5%nat
       [9%nat] 1
     = coll_map (through_data resized)
         (Gather.scalar_ptr (mpl_false unary) {| rank := 1; comm_size := 3 |}
            5%nat (Some resized) 1)) /\
  (exists resized,
     vec_resize [9%nat] (Int.mul 3 2) = Returned resized /\
     size resized = 3 * 2 /\
     Gather.array_vec (mpl_false unary) {| rank := 1; comm_size := 3 |}
       [5%nat; 6%nat] 2 [9%nat] 1
     = coll_map (through_data resized)
         (Gather.array_ptr (mpl_false unary) {| rank := 1; comm_size := 3 |}
            [5%nat; 6%nat] 2 (Some resized) 1)) /\
  leaves (leaves_memory [9%nat])
    (Gather.array_vec (mpl_false unary) {| rank := 0; comm_size := 3 |}
       [5%nat; 6%nat] 2 [9%nat] 1).
Proof.
  destruct (vector_overloads_resize (mpl_false unary)
              {| rank := 1; comm_size := 3 |} 5%nat [5%nat; 6%nat] 2 1 [9%nat])
    as (Hscalar & Harray & _).
  destruct (vector_overloads_resize (mpl_false unary)
              {| rank := 0; comm_size := 3 |} 5%nat [5%nat; 6%nat] 2 1 [9%nat])
    as (_ & _ & Hother).
  split; [apply Hscalar; simpl; lia|]. split.
  - destruct Harray as (resized & Hresize & Hsize & Hcall & _).
    + reflexivity.
    + vm_compute. split; discriminate.
    + exists resized. split; [done|]. split; [done|]. apply Hcall. simpl. lia.
  - apply Hother. simpl. lia.
Defined.

(** ** Writing into a buffer *)

Lemma write_at_nil {A} (mem : list A) pos : write_at mem pos [] = mem.
Proof.
  unfold write_at. simpl. rewrite Nat.add_0_r. apply take_drop.
Qed.

Lemma write_at_cons {A} (mem : list A) pos x seg :
  (pos < length mem)%nat ->
  write_at mem pos (x :: seg) = write_at (<[pos := x]> mem) (S pos) seg.
Proof.
  intros Hpos. unfold write_at.
  rewrite take_insert_lt by lia.
  destruct (lookup_lt_is_Some_2 mem pos Hpos) as [y Hy].
  rewrite (take_S_r _ _ _ Hy).
  rewrite insert_app_r_alt by (rewrite length_take; lia).
  rewrite length_take, Nat.min_l, Nat.sub_diag by lia. simpl.
  rewrite drop_insert_lt by lia.
  rewrite <- app_assoc. simpl. do 4 f_equal. lia.
Qed.

Lemma write_at_app {A} (pre rest seg : list A) :
  write_at (pre ++ rest) (length pre) seg = pre ++ seg ++ drop (length seg) rest.
Proof.
  unfold write_at. rewrite take_app_length.
  rewrite drop_app_ge by lia. do 3 f_equal. lia.
Qed.

Lemma length_write_at {A} (mem seg : list A) pos :
  (pos + length seg <= length mem)%nat ->
  length (write_at mem pos seg) = length mem.
Proof.
  intros Hfit. unfold write_at.
  rewrite !length_app, length_take, length_drop. lia.
Qed.

Lemma buf_set_insert {T} (mem : list T) (i : nat) (x : T) :
  (i < length mem)%nat ->
  buf_set (Some mem) (Z.of_nat i) x = Returned (Some (<[i := x]> mem)).
Proof. intros Hi. unfold buf_set. by rewrite vec_set_insert. Qed.

(** ** The local phases of the serialized path *)

Section SerializedPhases.
Context {T : Type} (ser : serializer T).

Lemma encoded_app (vs ws : list T) :
  encoded ser (vs ++ ws) = encoded ser vs ++ encoded ser ws.
Proof. unfold encoded. by rewrite map_app, concat_app. Qed.

Lemma encode_loop (in_values : list T) (c i : nat) (oa : list byte) :
  (i + c <= length in_values)%nat ->
  for_loop c (Z.of_nat i)
    (fun i oa =>
       match vec_get in_values i with
       | Some v => Returned (oa_save ser oa v)
       | None => Crashed OutOfBounds
       end) oa
  = Returned (oa ++ encoded ser (take c (drop i in_values))).
Proof.
  revert i oa. induction c as [|c IH]; intros i oa Hfit; simpl.
  - unfold encoded. simpl. by rewrite app_nil_r.
  - destruct (lookup_lt_is_Some_2 in_values i) as [v Hv]; [lia|].
    rewrite vec_get_lookup, Hv.
    replace (Z.of_nat i + 1) with (Z.of_nat (S i)) by lia.
    rewrite IH by lia. rewrite (drop_S _ _ _ Hv). simpl.
    unfold oa_save, encoded. simpl. by rewrite <- app_assoc.
Qed.

(** The encode phase writes the first [n] values, in order. *)
Lemma encode_values_encoded (in_values : list T) (n : Z) :
  0 <= n <= size in_values ->
  encode_values ser in_values n
  = Returned (encoded ser (take (Z.to_nat n) in_values)).
Proof.
  intros Hn. unfold encode_values, for_range, oa_new.
  change 0 with (Z.of_nat 0) at 2. rewrite Z.sub_0_r.
  rewrite encode_loop by (unfold size in Hn; simpl; lia).
  by rewrite drop_0.
Qed.

Lemma copy_loop (in_values mem : list T) (dst c i : nat) :
  (i + c <= length in_values)%nat ->
  (dst + i + c <= length mem)%nat ->
  for_loop c (Z.of_nat i)
    (fun i out =>
       match vec_get in_values i with
       | Some v => buf_set out (Z.of_nat dst + i) v
       | None => Crashed OutOfBounds
       end) (Some mem)
  = Returned (Some (write_at mem (dst + i) (take c (drop i in_values)))).
Proof.
  revert i mem. induction c as [|c IH]; intros i mem Hin Hout; cbn [for_loop].
  - by rewrite take_0, write_at_nil.
  - destruct (lookup_lt_is_Some_2 in_values i) as [v Hv]; [lia|].
    rewrite vec_get_lookup, Hv.
    replace (Z.of_nat dst + Z.of_nat i) with (Z.of_nat (dst + i)) by lia.
    rewrite buf_set_insert by lia.
    replace (Z.of_nat i + 1) with (Z.of_nat (S i)) by lia.
    rewrite IH by (rewrite ?length_insert; lia).
    rewrite (drop_S _ _ _ Hv). rewrite firstn_cons.
    rewrite write_at_cons by lia. do 3 f_equal. lia.
Qed.

(** [std::copy] of [n] values to [out_values + dst]. *)
Lemma copy_values_write (in_values mem : list T) (n dst : Z) :
  0 <= n <= size in_values ->
  0 <= dst -> dst + n <= size mem ->
  copy_values in_values n (Some mem) dst
  = Returned (Some (write_at mem (Z.to_nat dst) (take (Z.to_nat n) in_values))).
Proof.
  intros Hn Hdst Hfit. unfold copy_values.
  destruct (Z.ltb_spec n 0); [lia|]. unfold for_range, size in *.
  rewrite Z.sub_0_r. change 0 with (Z.of_nat 0) at 1.
  remember (Z.to_nat dst) as d eqn:Hd.
  assert (dst = Z.of_nat d) as -> by lia.
  rewrite copy_loop by lia.
  by rewrite drop_0, Nat.add_0_r.
Qed.

Lemma length_read_prefix buf pos count :
  (length (read_prefix ser buf pos count) <= count)%nat.
Proof.
  revert pos. induction count as [|c IH]; intros pos; simpl; [lia|].
  destruct (load ser buf pos) as [[v pos']|]; simpl; [|lia].
  specialize (IH pos'). lia.
Qed.

Lemma decode_loop (buf : list byte) (n src : Z) (base c i : nat) pos
    (mem : list T) tr :
  (forall j, (i <= j < i + c)%nat ->
     Int.add (Int.mul n src) (Z.of_nat j) = Z.of_nat (base + j)) ->
  (base + i + c <= length mem)%nat ->
  outcome_map snd
    (for_loop c (Z.of_nat i)
       (fun i '(ia, (out, tr)) =>
          let tr' := tr ++ [{| ev_src := src; ev_position := ia_position ia |}] in
          match ia_load ser ia with
          | None => Threw DecodeError (ia, (out, tr'))
          | Some (v, ia') =>
              outcome_map (fun out' => (ia', (out', tr')))
                (buf_set out (Int.add (Int.mul n src) i) v)
          end)
       ({| ia_buffer := buf; ia_position := pos |}, (Some mem, tr)))
  = (if (length (read_prefix ser buf pos c) =? c)%nat
     then Returned else Threw DecodeError)
      (Some (write_at mem (base + i) (read_prefix ser buf pos c)),
       tr ++ map (fun p => {| ev_src := src; ev_position := p |})
               (read_positions ser buf pos c)).
Proof.
  revert i pos mem tr. induction c as [|c IH]; intros i pos mem tr Hidx Hfit.
  - simpl. by rewrite write_at_nil, app_nil_r.
  - simpl. unfold ia_load at 1. simpl.
    destruct (load ser buf pos) as [[v pos']|] eqn:Hload; simpl.
    + rewrite Hidx by lia. rewrite vec_set_insert by lia. simpl.
      replace (Z.of_nat i + 1) with (Z.of_nat (S i)) by lia.
      rewrite IH; [|intros j Hj; apply Hidx; lia|rewrite length_insert; lia].
      rewrite write_at_cons by lia.
      rewrite <- app_assoc. simpl.
      replace (base + S i)%nat with (S (base + i)) by lia. done.
    + by rewrite write_at_nil.
Qed.

(** The reads of one sender: the values that decode are written from
    [n * src] on; the loop returns when all [n] reads succeed and throws at
    the first that fails. *)
Lemma decode_segment_reads (buf : list byte) (offset n src : Z) (mem : list T) tr :
  0 <= n -> 0 <= src -> n * src + n <= size mem -> n * src + n <= Int.max_int ->
  decode_segment ser buf offset n src (Some mem, tr)
  = (if (length (read_prefix ser buf offset (Z.to_nat n)) =? Z.to_nat n)%nat
     then Returned else Threw DecodeError)
      (Some (write_at mem (Z.to_nat (n * src))
               (read_prefix ser buf offset (Z.to_nat n))),
       tr ++ map (fun p => {| ev_src := src; ev_position := p |})
               (read_positions ser buf offset (Z.to_nat n))).
Proof.
  intros Hn Hsrc Hfit Hmax. unfold decode_segment, for_range.
  rewrite Z.sub_0_r. change 0 with (Z.of_nat 0) at 1.
  rewrite (decode_loop buf n src (Z.to_nat (n * src))).
  - by rewrite Nat.add_0_r.
  - intros j Hj. unfold Int.add, Int.mul.
    assert (0 <= n * src) by lia.
    rewrite (wrap_small (n * src)) by lia. rewrite wrap_small by lia. lia.
  - unfold size in Hfit. lia.
Qed.

End SerializedPhases.

(** ** Loops that end early, blocks of equal length *)

Lemma for_loop_app {St} (body : Z -> St -> outcome St) (a b : nat) lo (s : St) :
  for_loop (a + b) lo body s
  = match for_loop a lo body s with
    | Returned s' => for_loop b (lo + Z.of_nat a) body s'
    | o => o
    end.
Proof.
  revert lo s. induction a as [|a IH]; intros lo s.
  - simpl. by rewrite Z.add_0_r.
  - cbn [for_loop Nat.add]. destruct (body lo s) as [s'|e s'|f]; [|done|done].
    rewrite IH. replace (lo + 1 + Z.of_nat a) with (lo + Z.of_nat (S a)) by lia.
    done.
Qed.

Lemma for_loop_S_r {St} (body : Z -> St -> outcome St) (a : nat) lo (s : St) :
  for_loop (S a) lo body s
  = match for_loop a lo body s with
    | Returned s' => body (lo + Z.of_nat a) s'
    | o => o
    end.
Proof.
  replace (S a) with (a + 1)%nat by lia. rewrite for_loop_app.
  destruct (for_loop a lo body s) as [s'|e s'|f]; [|done|done].
  simpl. by destruct (body (lo + Z.of_nat a) s').
Qed.

(** A loop whose iteration [j] does not return ends there. *)
Lemma for_loop_stops {St} (body : Z -> St -> outcome St) (j count : nat) lo
    (s sj : St) :
  (j < count)%nat ->
  for_loop j lo body s = Returned sj ->
  (forall s', body (lo + Z.of_nat j) sj <> Returned s') ->
  for_loop count lo body s = body (lo + Z.of_nat j) sj.
Proof.
  intros Hj Hrun Hstop.
  replace count with (S j + (count - S j))%nat by lia.
  rewrite for_loop_app, for_loop_S_r, Hrun.
  destruct (body (lo + Z.of_nat j) sj) as [s'|e s'|f]; [|done|done].
  by destruct (Hstop s').
Qed.

Lemma length_concat_blocks {A B} (f : A -> list B) (l : list A) (n : nat) :
  (forall x, x ∈ l -> length (f x) = n) ->
  length (concat (map f l)) = (length l * n)%nat.
Proof.
  induction l as [|x l IH]; intros Hf; simpl; [done|].
  rewrite length_app, Hf by left. rewrite IH; [lia|].
  intros y Hy. apply Hf. by right.
Qed.

(** Block [k] of a concatenation of blocks of [n] elements starts at
    [k * n]. *)
Lemma slice_blocks {B} (f : Z -> list B) (j k n : Z) (rest : list B) :
  0 <= n -> 0 <= k < j ->
  (forall i, 0 <= i < j -> size (f i) = n) ->
  slice (concat (map f (seqZ 0 j)) ++ rest) (n * k) n = f k.
Proof.
  intros Hn Hk Hf. unfold slice.
  replace j with (k + (1 + (j - k - 1))) by lia.
  rewrite seqZ_app, (seqZ_app (0 + k)) by lia.
  rewrite !map_app, !concat_app.
  rewrite (seqZ_cons (0 + k) 1) by lia.
  rewrite (seqZ_nil (Z.succ (0 + k)) (Z.pred 1)) by lia. simpl.
  rewrite app_nil_r, <- !app_assoc, !Z.add_0_l.
  rewrite drop_app_length'.
  - rewrite take_app_length'; [done|]. specialize (Hf k). unfold size in Hf. lia.
  - rewrite (length_concat_blocks f _ (Z.to_nat n)).
    + rewrite length_seqZ. nia.
    + intros i Hi. apply elem_of_seqZ in Hi. specialize (Hf i).
      unfold size in Hf. lia.
Qed.

(** Behind the blocks the memory is as it was. *)
Lemma slice_behind_blocks {B} (pre mem : list B) (p k n : Z) :
  0 <= n -> size pre = p -> p <= n * k ->
  slice (pre ++ drop (Z.to_nat p) mem) (n * k) n = slice mem (n * k) n.
Proof.
  intros Hn Hpre Hk. unfold slice, size in *. f_equal.
  rewrite drop_app_ge by lia. rewrite drop_drop. f_equal. lia.
Qed.

(** ** The decoding loop of the root *)

Section DecodePhase.
Context {T : Type} (ser : serializer T).
Variables (in_values : list T) (n root : Z) (buf : list byte)
  (offsets : list Z) (mem : list T) (N : Z).
Hypothesis Hn : 0 <= n <= size in_values.
Hypothesis Hoffsets : N <= size offsets.
Hypothesis Hroom : N * n <= size mem.
Hypothesis Hint : N * n <= Int.max_int.

Local Abbreviation recv := (received ser in_values n root buf offsets).
Local Abbreviation events := (read_events ser n root buf offsets).
Local Abbreviation body := (decode_sender ser in_values n root buf offsets).

(** All [n] values of sender [src] decode. *)
Local Abbreviation complete src := (length (recv src) = Z.to_nat n).

Lemma received_root_complete : complete root.
Proof.
  unfold received. rewrite Z.eqb_refl.
  rewrite length_take. unfold size in Hn. lia.
Qed.

Lemma length_received src : (length (recv src) <= Z.to_nat n)%nat.
Proof.
  unfold received. destruct (src =? root).
  - rewrite length_take. lia.
  - apply length_read_prefix.
Qed.

Lemma decode_sender_step (j : Z) (pre : list T) tr :
  0 <= j < N -> size pre = n * j ->
  body j (Some (pre ++ drop (Z.to_nat (n * j)) mem), tr)
  = (if (length (recv j) =? Z.to_nat n)%nat then Returned else Threw DecodeError)
      (Some (pre ++ recv j
               ++ drop (Z.to_nat (n * j) + length (recv j)) mem),
       tr ++ events j).
Proof.
  intros Hj Hpre. unfold decode_sender, received, read_events.
  assert (n * j + n <= N * n) as Hle by nia.
  assert (size (pre ++ drop (Z.to_nat (n * j)) mem) = size mem) as Hsize.
  { unfold size in *. rewrite length_app, length_drop. nia. }
  assert (Z.to_nat (n * j) = length pre) as Hlen by (unfold size in Hpre; lia).
  destruct (Z.eqb_spec j root) as [->|Hne].
  - unfold Int.mul. rewrite wrap_small by nia.
    rewrite copy_values_write by (rewrite ?Hsize; nia).
    rewrite length_take, Nat.min_l by (unfold size in Hn; lia).
    rewrite Nat.eqb_refl. simpl. rewrite app_nil_r.
    rewrite Hlen, write_at_app, drop_drop.
    rewrite length_take, Nat.min_l by (unfold size in Hn; lia). done.
  - destruct (vec_get offsets j) as [off|] eqn:Hoff.
    + rewrite decode_segment_reads by (rewrite ?Hsize; nia). simpl.
      rewrite Hlen, write_at_app, drop_drop. done.
    + exfalso. unfold vec_get in Hoff. destruct (Z.leb_spec 0 j); [|lia].
      apply lookup_ge_None in Hoff. unfold size in Hoffsets. lia.
Qed.

Lemma decode_prefix (j : nat) :
  Z.of_nat j <= N ->
  (forall src, 0 <= src < Z.of_nat j -> complete src) ->
  for_loop j 0 body (Some mem, [])
  = Returned (Some (concat (map recv (seqZ 0 (Z.of_nat j)))
                      ++ drop (Z.to_nat (n * Z.of_nat j)) mem),
              concat (map events (seqZ 0 (Z.of_nat j)))).
Proof.
  induction j as [|j IH]; intros Hj Hok.
  - simpl. rewrite Z.mul_0_r. by rewrite drop_0.
  - rewrite for_loop_S_r, IH; [|lia|intros src Hsrc; apply Hok; lia].
    rewrite Z.add_0_l, decode_sender_step; [|lia|].
    + rewrite (Hok (Z.of_nat j)) by lia. rewrite Nat.eqb_refl.
      rewrite seqZ_S, !map_app, !concat_app. simpl.
      rewrite !app_nil_r, <- !app_assoc, !Z.add_0_l.
      replace (Z.to_nat (n * Z.of_nat (S j)))
        with (Z.to_nat (n * Z.of_nat j) + Z.to_nat n)%nat by lia.
      done.
    + unfold size. rewrite (length_concat_blocks recv _ (Z.to_nat n)).
      * rewrite length_seqZ. lia.
      * intros src Hsrc. apply elem_of_seqZ in Hsrc. apply Hok. lia.
Qed.

Lemma size_received_prefix (j : Z) :
  0 <= j ->
  (forall src, 0 <= src < j -> complete src) ->
  size (concat (map recv (seqZ 0 j))) = n * j.
Proof.
  intros Hj Hok. unfold size.
  rewrite (length_concat_blocks recv _ (Z.to_nat n)).
  - rewrite length_seqZ. lia.
  - intros src Hsrc. apply elem_of_seqZ in Hsrc. apply Hok. lia.
Qed.

(** When the values of every sender decode, the loop returns the blocks of
    all senders in rank order, and has read for every sender but the root. *)
Lemma decode_phase_returns (comm : communicator) :
  comm_size comm = N -> 0 <= N ->
  (forall src, 0 <= src < N -> complete src) ->
  decode_phase ser comm in_values n (Some mem) root buf offsets
  = Returned (Some (concat (map recv (seqZ 0 N)) ++ drop (Z.to_nat (n * N)) mem),
              concat (map events (seqZ 0 N))).
Proof.
  intros HNc HN Hok. unfold decode_phase, for_range. rewrite HNc, Z.sub_0_r.
  rewrite decode_prefix by (rewrite ?Z2Nat.id; auto with lia).
  by rewrite Z2Nat.id by lia.
Qed.

(** When sender [j] is the first whose values do not decode, the loop throws
    there: the blocks of the senders before [j] are in place, followed by the
    values of [j] read before the failure; the memory behind is as it was. *)
Lemma decode_phase_throws (comm : communicator) (j : Z) :
  comm_size comm = N -> 0 <= j < N ->
  (forall src, 0 <= src < j -> complete src) ->
  ~ complete j ->
  decode_phase ser comm in_values n (Some mem) root buf offsets
  = Threw DecodeError
      (Some (concat (map recv (seqZ 0 j)) ++ recv j
               ++ drop (Z.to_nat (n * j) + length (recv j)) mem),
       concat (map events (seqZ 0 j)) ++ events j).
Proof.
  intros HNc Hj Hok Hfail. unfold decode_phase, for_range. rewrite HNc, Z.sub_0_r.
  pose proof (decode_prefix (Z.to_nat j)) as Hpre.
  rewrite Z2Nat.id in Hpre by lia.
  specialize (Hpre ltac:(lia) Hok).
  pose proof (decode_sender_step j (concat (map recv (seqZ 0 j)))
                (concat (map events (seqZ 0 j))) Hj
                (size_received_prefix j ltac:(lia) Hok)) as Hstep.
  destruct (Nat.eqb_spec (length (recv j)) (Z.to_nat n)) as [Heq|Hneq];
    [by destruct Hfail|].
  rewrite (for_loop_stops body (Z.to_nat j) (Z.to_nat N) 0 _ _ ltac:(lia) Hpre).
  - rewrite Z.add_0_l, Z2Nat.id by lia. exact Hstep.
  - intros s'. rewrite Z.add_0_l, Z2Nat.id by lia. rewrite Hstep. done.
Qed.

(** Either every sender below [j] is complete or there is a first one that
    is not. *)
Lemma first_incomplete (j : nat) :
  (forall src, 0 <= src < Z.of_nat j -> complete src) \/
  (exists k, 0 <= k < Z.of_nat j /\ ~ complete k /\
             forall src, 0 <= src < k -> complete src).
Proof.
  induction j as [|j [IH|IH]].
  - left. intros src Hsrc. lia.
  - destruct (decide (length (recv (Z.of_nat j)) = Z.to_nat n)) as [Hc|Hc].
    + left. intros src Hsrc.
      destruct (decide (src = Z.of_nat j)) as [->|Hne]; [done|]. apply IH. lia.
    + right. exists (Z.of_nat j). split; [lia|]. split; [done|].
      intros src Hsrc. apply IH. lia.
  - right. destruct IH as (k & Hk & Hfail & Hbefore).
    exists k. split; [lia|]. done.
Qed.

End DecodePhase.

(** ** The transport *)

Lemma lookup_map {A B} (f : A -> B) (l : list A) (i : nat) :
  map f l !! i = f <$> l !! i.
Proof.
  revert i. induction l as [|x l IH]; intros [|i]; simpl; done.
Qed.

Lemma lookup_map_seqZ {B} (f : Z -> B) (N k : Z) :
  0 <= k < N -> map f (seqZ 0 N) !! Z.to_nat k = Some (f k).
Proof.
  intros Hk. rewrite lookup_map, lookup_seqZ_lt by lia. simpl.
  f_equal. f_equal. lia.
Qed.

Lemma size_map_seqZ {B} (f : Z -> B) (N : Z) :
  0 <= N -> size (map f (seqZ 0 N)) = N.
Proof. intros HN. unfold size. rewrite length_map, length_seqZ. lia. Qed.

Lemma map_ext_elem {A B} (f g : A -> B) (l : list A) :
  (forall x, x ∈ l -> f x = g x) -> map f l = map g l.
Proof.
  induction l as [|x l IH]; intros Hfg; simpl; [done|].
  rewrite Hfg by left. rewrite IH; [done|]. intros y Hy. apply Hfg. by right.
Qed.

Lemma map_ext_seqZ {B} (f g : Z -> B) (N : Z) :
  (forall k, 0 <= k < N -> f k = g k) -> map f (seqZ 0 N) = map g (seqZ 0 N).
Proof.
  intros Hfg. apply map_ext_elem. intros k Hk. apply elem_of_seqZ in Hk.
  apply Hfg. lia.
Qed.

Lemma all_some_map_Some {A B} (f : A -> option B) (g : A -> B) (l : list A) :
  (forall x, x ∈ l -> f x = Some (g x)) ->
  all_some (map f l) = Some (map g l).
Proof.
  induction l as [|x l IH]; intros Hfg; simpl; [done|].
  rewrite Hfg by left. rewrite IH; [done|]. intros y Hy. apply Hfg. by right.
Qed.

Lemma all_some_head_None {A B} (f : A -> option B) (x : A) (l : list A) :
  f x = None -> all_some (map f (x :: l)) = None.
Proof. intros Hx. simpl. by rewrite Hx. Qed.

Lemma forallb_elem {A} (f : A -> bool) (l : list A) :
  (forall x, x ∈ l -> f x = true) -> forallb f l = true.
Proof.
  induction l as [|x l IH]; intros Hf; simpl; [done|].
  rewrite Hf by left. rewrite IH; [done|]. intros y Hy. apply Hf. by right.
Qed.

Lemma zip_map_self {A B} (g : A -> B) (l : list A) :
  zip l (map g l) = map (fun x => (x, g x)) l.
Proof. induction l as [|x l IH]; simpl; [done|]. by rewrite IH. Qed.

Section Deliver.
Context {E : Type}.

Lemma gather_deliver_from (count : Z) (sends : list (list E)) :
  0 <= count ->
  (forall s, s ∈ sends -> count <= size s) ->
  forall (m : Z) (pre rest : list E),
    0 <= m -> size pre = m * count -> size sends * count <= size rest ->
    foldl (fun mem '(k, s) =>
             write_at mem (Z.to_nat (k * count)) (take (Z.to_nat count) s))
      (pre ++ rest) (zip (seqZ m (size sends)) sends)
    = pre ++ concat (map (take (Z.to_nat count)) sends)
        ++ drop (Z.to_nat (size sends * count)) rest.
Proof.
  intros Hcount. induction sends as [|s sends IH]; intros Hsends m pre rest Hm Hpre Hfit.
  - simpl. by rewrite drop_0.
  - assert (count <= size s) as Hs by (apply Hsends; left).
    unfold size in *. cbn [length] in *.
    rewrite seqZ_cons by lia. cbn [zip zip_with foldl map concat].
    replace (Z.to_nat (m * count)) with (length pre) by lia.
    rewrite write_at_app.
    rewrite length_take, Nat.min_l by lia.
    replace (Z.pred (Z.of_nat (S (length sends)))) with (Z.of_nat (length sends)) by lia.
    rewrite (app_assoc pre).
    rewrite IH.
    + rewrite <- !app_assoc, drop_drop. do 4 f_equal. nia.
    + intros s' Hs'. apply Hsends. by right.
    + lia.
    + rewrite length_app, length_take. nia.
    + rewrite length_drop. nia.
Qed.

(** [MPI_Gather]: the receive buffer of the root holds the blocks of the
    senders in rank order. *)
Lemma gather_deliver_blocks (count : Z) (sends : list (list E)) (mem : list E) :
  0 <= count ->
  (forall s, s ∈ sends -> count <= size s) ->
  size sends * count <= size mem ->
  gather_deliver count sends mem
  = concat (map (take (Z.to_nat count)) sends)
      ++ drop (Z.to_nat (size sends * count)) mem.
Proof.
  intros Hcount Hsends Hfit. unfold gather_deliver.
  apply (gather_deliver_from count sends Hcount Hsends 0 [] mem); [lia|done|done].
Qed.

End Deliver.

Lemma gatherv_deliver_from (sends : list (list byte)) :
  forall (counts displs : list Z) (base : Z) (pre rest : list byte),
    counts = map size sends ->
    length displs = length sends ->
    (forall k, (k < length sends)%nat ->
       displs !! k = Some (base + sumZ (take k counts))) ->
    size pre = base -> sumZ counts <= size rest ->
    foldl (fun mem '(s, (c, d)) => write_at mem (Z.to_nat d) (take (Z.to_nat c) s))
      (pre ++ rest) (zip sends (zip counts displs))
    = pre ++ concat sends ++ drop (Z.to_nat (sumZ counts)) rest.
Proof.
  induction sends as [|s sends IH];
    intros counts displs base pre rest -> Hlen Hdispls Hpre Hfit.
  - simpl. by rewrite drop_0.
  - destruct displs as [|d displs]; [done|].
    pose proof (Hdispls O ltac:(simpl; lia)) as Hd.
    rewrite take_0 in Hd. simpl in Hd. rewrite Z.add_0_r in Hd. injection Hd as ->.
    cbn [map zip zip_with foldl concat].
    replace (Z.to_nat base) with (length pre) by (unfold size in Hpre; lia).
    replace (take (Z.to_nat (size s)) s) with s
      by (unfold size; by rewrite Nat2Z.id, firstn_all).
    rewrite write_at_app, (app_assoc pre).
    assert (sumZ (size s :: map size sends) = size s + sumZ (map size sends))
      as Hsum by done.
    simpl in Hfit. rewrite Hsum in *.
    pose proof (size_nonneg s) as Hs.
    assert (0 <= sumZ (map size sends)) as Hnn.
    { apply sumZ_nonneg. apply Forall_forall. intros x Hx.
      apply list_elem_of_In, in_map_iff in Hx as (y & <- & _). apply size_nonneg. }
    rewrite (IH (map size sends) displs (base + size s)); [|done|simpl in Hlen; lia| | |].
    + rewrite <- !app_assoc, drop_drop. do 4 f_equal.
      rewrite Z2Nat.inj_add by done. f_equal. unfold size. lia.
    + intros k Hk. specialize (Hdispls (S k) ltac:(simpl; lia)).
      cbn [map] in Hdispls. rewrite firstn_cons in Hdispls.
      change (sumZ (size s :: take k (map size sends)))
        with (size s + sumZ (take k (map size sends))) in Hdispls.
      rewrite lookup_cons in Hdispls. rewrite Hdispls. f_equal. lia.
    + unfold size in *. rewrite length_app. lia.
    + unfold size in *. rewrite length_drop. lia.
Qed.

(** [MPI_Gatherv] with the sizes of the payloads as counts and their prefix
    sums as displacements: the receive buffer of the root holds the payloads
    in rank order. *)
Lemma gatherv_deliver_payloads (sends : list (list byte)) (displs : list Z)
    (mem : list byte) :
  length displs = length sends ->
  (forall k, (k < length sends)%nat ->
     displs !! k = Some (sumZ (take k (map size sends)))) ->
  size mem = sumZ (map size sends) ->
  gatherv_deliver sends (map size sends) displs mem = concat sends.
Proof.
  intros Hlen Hdispls Hmem. unfold gatherv_deliver.
  pose proof (gatherv_deliver_from sends (map size sends) displs 0 [] mem
                eq_refl Hlen) as Hfrom.
  cbn [app] in Hfrom. rewrite Hfrom; [| |done|lia].
  - rewrite <- Hmem. unfold size at 1. rewrite Nat2Z.id, drop_all.
    by rewrite app_nil_r.
  - intros k Hk. by rewrite Hdispls.
Qed.

Section Steps.
Context {E R : Type}.
Implicit Types ps : Z -> coll E R.

Lemma pending_gather_not_returned (p : coll E R) c :
  pending_gather p = Some c -> returned p = None /\ pending_gatherv p = None.
Proof. by destruct p. Qed.

Lemma pending_gatherv_not_returned (p : coll E R) c :
  pending_gatherv p = Some c -> returned p = None /\ pending_gather p = None.
Proof. by destruct p. Qed.

Lemma all_some_seqZ_None {B} (f : coll E R -> option B) ps (N : Z) :
  0 < N -> f (ps 0) = None -> all_some (map f (map ps (seqZ 0 N))) = None.
Proof. intros HN H0. rewrite seqZ_cons by lia. simpl. by rewrite H0. Qed.

Lemma all_some_seqZ_Some {B} (f : coll E R -> option B) (g : Z -> B) ps (N : Z) :
  (forall k, 0 <= k < N -> f (ps k) = Some (g k)) ->
  all_some (map f (map ps (seqZ 0 N))) = Some (map g (seqZ 0 N)).
Proof.
  intros Hfg. rewrite map_map. apply all_some_map_Some.
  intros k Hk. apply elem_of_seqZ in Hk. apply Hfg. lia.
Qed.

(** A group whose participants all wait in [MPI_Gather], with matching
    arguments, moves on: each resumes with success, the root with the blocks
    of all senders in its receive buffer. *)
Lemma step_group_gather (N root count : Z) (mem : list E) ps
    (calls : Z -> gather_call) :
  0 < N -> 0 <= root < N -> 0 <= count ->
  (forall k, 0 <= k < N -> pending_gather (ps k) = Some (calls k)) ->
  (forall k, 0 <= k < N ->
     g_root (calls k) = root /\ g_sendcount (calls k) = count /\
     count <= size (g_sendbuf (calls k))) ->
  g_recvbuf (calls root) = Some mem ->
  g_recvcount (calls root) = count ->
  N * count <= size mem ->
  step_group (map ps (seqZ 0 N))
  = Some (map (fun k =>
                 g_resume (calls k) MPI_SUCCESS
                   (if k =? root
                    then Some (gather_deliver count
                                 (map (fun k => g_sendbuf (calls k)) (seqZ 0 N)) mem)
                    else g_recvbuf (calls k)))
            (seqZ 0 N)).
Proof.
  intros HN Hroot Hcount Hpending Hargs Hmem Hrc Hfit.
  unfold step_group. rewrite (all_some_seqZ_Some _ calls) by done.
  unfold step_gather.
  change (map calls (seqZ 0 N) !! O) with (map calls (seqZ 0 N) !! Z.to_nat 0).
  rewrite (lookup_map_seqZ calls N 0) by lia.
  destruct (Hargs 0 ltac:(lia)) as (Hroot0 & _). rewrite Hroot0.
  rewrite lookup_map_seqZ by lia. rewrite Hmem, Hrc.
  assert (gather_matches (map calls (seqZ 0 N)) root mem count = true) as ->.
  { unfold gather_matches. rewrite size_map_seqZ by lia.
    repeat (apply andb_true_intro; split); try (apply Z.leb_le; lia);
      try (apply Z.ltb_lt; lia).
    apply forallb_elem. intros c Hc.
    apply list_elem_of_In, in_map_iff in Hc as (k & <- & Hk).
    apply list_elem_of_In, elem_of_seqZ in Hk.
    destruct (Hargs k ltac:(lia)) as (-> & -> & Hsize).
    repeat (apply andb_true_intro; split); try (apply Z.eqb_eq; lia).
    apply Z.leb_le. lia. }
  rewrite size_map_seqZ by lia. rewrite zip_map_self, !map_map. done.
Qed.

(** The same for [MPI_Gatherv]. *)
Lemma step_group_gatherv (N root : Z) ps (calls : Z -> gatherv_call) :
  0 < N -> 0 <= root < N ->
  (forall k, 0 <= k < N -> pending_gatherv (ps k) = Some (calls k)) ->
  (forall k, 0 <= k < N ->
     gv_root (calls k) = root /\
     0 <= gv_sendcount (calls k) <= size (gv_sendbuf (calls k))) ->
  size (gv_recvcounts (calls root)) = N ->
  size (gv_displs (calls root)) = N ->
  map (fun k => gv_sendcount (calls k)) (seqZ 0 N) = gv_recvcounts (calls root) ->
  forallb (fun '(c, d) => (0 <=? d) && (d + c <=? size (gv_recvbuf (calls root))))
    (zip (gv_recvcounts (calls root)) (gv_displs (calls root))) = true ->
  step_group (map ps (seqZ 0 N))
  = Some (map (fun k =>
                 gv_resume (calls k) MPI_SUCCESS
                   (if k =? root
                    then gatherv_deliver
                           (map (fun k => gv_sendbuf (calls k)) (seqZ 0 N))
                           (gv_recvcounts (calls root)) (gv_displs (calls root))
                           (gv_recvbuf (calls root))
                    else gv_recvbuf (calls k)))
            (seqZ 0 N)).
Proof.
  intros HN Hroot Hpending Hargs Hcounts Hdispls Hsent Hfit.
  unfold step_group.
  rewrite all_some_seqZ_None;
    [|done|by destruct (pending_gatherv_not_returned _ _ (Hpending 0 ltac:(lia)))].
  rewrite (all_some_seqZ_Some _ calls) by done.
  unfold step_gatherv.
  change (map calls (seqZ 0 N) !! O) with (map calls (seqZ 0 N) !! Z.to_nat 0).
  rewrite (lookup_map_seqZ calls N 0) by lia.
  destruct (Hargs 0 ltac:(lia)) as (Hroot0 & _). rewrite Hroot0.
  rewrite lookup_map_seqZ by lia. cbn zeta.
  assert (gatherv_matches (map calls (seqZ 0 N)) root (gv_recvbuf (calls root))
            (gv_recvcounts (calls root)) (gv_displs (calls root)) = true) as ->.
  { unfold gatherv_matches. rewrite size_map_seqZ by lia.
    rewrite Hcounts, Hdispls, Hfit, map_map, Hsent.
    rewrite bool_decide_eq_true_2 by done.
    rewrite !andb_true_r.
    repeat (apply andb_true_intro; split); try (apply Z.leb_le; lia);
      try (apply Z.ltb_lt; lia); try (apply Z.eqb_eq; lia).
    apply forallb_elem. intros c Hc.
    apply list_elem_of_In, in_map_iff in Hc as (k & <- & Hk).
    apply list_elem_of_In, elem_of_seqZ in Hk.
    destruct (Hargs k ltac:(lia)) as (-> & Hsize).
    repeat (apply andb_true_intro; split); try (apply Z.eqb_eq; lia);
      apply Z.leb_le; lia. }
  rewrite size_map_seqZ by lia. rewrite zip_map_self, !map_map. done.
Qed.

Lemma run_group_returned (fuel : nat) (rs : list R) :
  run_group fuel (map (@Ret E R) rs) = Some rs.
Proof.
  assert (all_some (map (@returned E R) (map Ret rs)) = Some rs) as Hall.
  { induction rs as [|r rs IH]; simpl; [done|]. simpl in IH. by rewrite IH. }
  destruct fuel; simpl; by rewrite Hall.
Qed.

Lemma run_group_step (fuel : nat) (N : Z) ps (next : list (coll E R)) :
  0 < N -> returned (ps 0) = None ->
  step_group (map ps (seqZ 0 N)) = Some next ->
  run_group (S fuel) (map ps (seqZ 0 N)) = run_group fuel next.
Proof.
  intros HN H0 Hstep. cbn [run_group].
  rewrite all_some_seqZ_None by done. by rewrite Hstep.
Qed.

End Steps.

(** ** A group on the direct path *)

Section DirectRun.
Context {T : Type} `{DefaultConstructible T}.
Variables (N n root : Z) (vals : Z -> list T) (outs : Z -> buffer T)
  (mem : list T).
Hypothesis HN : 0 < N.
Hypothesis Hroot : 0 <= root < N.
Hypothesis Hn : 0 <= n.
Hypothesis Hvals : forall k, 0 <= k < N -> n <= size (vals k).
Hypothesis Hout : outs root = Some mem.
Hypothesis Hroom : N * n <= size mem.

Local Abbreviation prog := (fun comm : communicator =>
  Gather.array_ptr mpl_true comm (vals (rank comm)) n (outs (rank comm)) root).

(** The values that [MPI_Gather] leaves in the receive buffer of the root. *)
Local Abbreviation gathered :=
  (concat (map (fun k => take (Z.to_nat n) (vals k)) (seqZ 0 N))
     ++ drop (Z.to_nat (N * n)) mem).

Lemma direct_run (fuel : nat) :
  run_group (S fuel) (group N prog)
  = Some (map (fun k => Returned (if k =? root then Some gathered else outs k))
            (seqZ 0 N)).
Proof.
  unfold group.
  set (call := fun k : Z =>
    {| g_sendbuf := vals k; g_sendcount := n;
       g_recvbuf := if k =? root then outs k else None;
       g_recvcount := n; g_root := root;
       g_resume := fun status mem' =>
         Ret (E := T) (if k =? root then BOOST_MPI_CHECK_RESULT status mem'
              else outcome_map (fun _ => outs k)
                     (BOOST_MPI_CHECK_RESULT status tt)) |}).
  assert (forall k, 0 <= k < N ->
            pending_gather (prog {| rank := k; comm_size := N |}) = Some (call k))
    as Hpending.
  { intros k Hk. unfold Gather.array_ptr, gather_array_ptr, call. cbn.
    unfold gather_impl_direct_root, gather_impl_direct_nonroot.
    by destruct (k =? root). }
  erewrite run_group_step; [|done| |].
  3:{ apply (step_group_gather N root n mem _ call); try done.
      - intros k Hk. cbn. split; [done|]. split; [done|]. by apply Hvals.
      - cbn. by rewrite Z.eqb_refl.  }
  2:{ by destruct (pending_gather_not_returned _ _ (Hpending 0 ltac:(lia))). }
  rewrite gather_deliver_blocks.
  - rewrite ?map_map, ?size_map_seqZ by lia.
    etrans; [|apply (run_group_returned (E := T) fuel)]. f_equal.
    rewrite map_map. apply map_ext_seqZ. intros k Hk. cbn.
    by destruct (k =? root).
  - done.
  - intros s Hs. apply list_elem_of_In, in_map_iff in Hs as (k & <- & Hk).
    apply list_elem_of_In, elem_of_seqZ in Hk. cbn. apply Hvals. lia.
  - by rewrite size_map_seqZ by lia.
Qed.

End DirectRun.

(** ** The two collective calls of the serialized path *)

Lemma foldl_int_add (l : list Z) (acc : Z) :
  Forall (fun s => 0 <= s) l -> 0 <= acc -> acc + sumZ l <= Int.max_int ->
  foldl Int.add acc l = acc + sumZ l.
Proof.
  revert acc. induction l as [|x l IH]; intros acc Hnn Hacc Hmax.
  - unfold sumZ. simpl. lia.
  - apply Forall_cons in Hnn as [Hx Hl].
    change (sumZ (x :: l)) with (x + sumZ l) in *.
    pose proof (sumZ_nonneg l Hl).
    simpl. unfold Int.add at 2. rewrite wrap_small by lia.
    rewrite IH by (done || lia). lia.
Qed.

Lemma accumulate_sumZ (l : list Z) :
  Forall (fun s => 0 <= s) l -> sumZ l <= Int.max_int -> accumulate l = sumZ l.
Proof.
  intros Hnn Hmax. unfold accumulate. rewrite foldl_int_add by (done || lia). lia.
Qed.

Lemma sumZ_elem_le (l : list Z) (x : Z) :
  Forall (fun s => 0 <= s) l -> x ∈ l -> x <= sumZ l.
Proof.
  intros Hnn Hx. induction Hnn as [|y l Hy Hl IH].
  - by apply elem_of_nil in Hx.
  - change (sumZ (y :: l)) with (y + sumZ l).
    pose proof (sumZ_nonneg l Hl).
    apply elem_of_cons in Hx as [->|Hx]; [lia|]. specialize (IH Hx). lia.
Qed.

(** The size exchange on the root: one [MPI_Gather] of one [int] into a
    vector of [comm.size()] elements. *)
Lemma size_exchange_root (comm : communicator) (L root : Z) :
  rank comm = root -> 0 <= comm_size comm ->
  gather_int comm L [] root
  = MPI_Gather [L] 1 (Some (replicate (Z.to_nat (comm_size comm)) 0)) 1 root
      (fun status mem' =>
         Ret (through_data (replicate (Z.to_nat (comm_size comm)) 0)
                (BOOST_MPI_CHECK_RESULT status mem'))).
Proof.
  intros Hr HN. apply Z.eqb_eq in Hr.
  unfold gather_int, gather_scalar_vec, gather_scalar_ptr. rewrite Hr.
  unfold vec_resize. destruct (Z.ltb_spec (comm_size comm) 0); [lia|].
  rewrite resize_nil. done.
Qed.

(** On any other participant: one [MPI_Gather] of one [int], with no
    receive buffer. *)
Lemma size_exchange_nonroot (comm : communicator) (L root : Z) :
  rank comm <> root ->
  gather_int comm L [] root
  = MPI_Gather [L] 1 None 1 root
      (fun status _ =>
         Ret (outcome_map (fun _ => []) (BOOST_MPI_CHECK_RESULT status tt))).
Proof.
  intros Hr. apply Z.eqb_neq in Hr.
  unfold gather_int, gather_scalar_vec, gather_scalar_nonroot, BOOST_ASSERT.
  rewrite Hr. cbn. unfold BOOST_MPI_CHECK_RESULT.
  f_equal.
Qed.

Section PayloadExchange.
Context {T : Type} (ser : serializer T).
Variables (comm : communicator) (in_values : list T) (n : Z)
  (out_values : buffer T) (root : Z) (oa : list byte).

(** The payload exchange on the root: the offsets are computed from the
    gathered sizes, the receive buffer has the sum of the sizes, and the
    decoding loop follows the call. *)
Lemma payload_exchange_root (asizes offsets : list Z) :
  rank comm = root -> 0 <= comm_size comm ->
  sizes2offset asizes (replicate (Z.to_nat (comm_size comm)) 0) = Returned offsets ->
  0 <= accumulate asizes ->
  payload_exchange ser comm in_values n out_values root oa asizes
  = MPI_Gatherv oa (Int.wrap (size oa))
      (replicate (Z.to_nat (accumulate asizes)) x00) asizes offsets root
      (fun status recv_buffer' =>
         within (BOOST_MPI_CHECK_RESULT status tt) out_values (fun _ =>
           Ret (outcome_map fst
                  (decode_phase ser comm in_values n out_values root
                     recv_buffer' offsets)))).
Proof.
  intros Hr HN Hoffsets Hacc. apply Z.eqb_eq in Hr.
  unfold payload_exchange, vec_new. rewrite Hr.
  destruct (Z.ltb_spec (comm_size comm) 0); [lia|]. cbn [within].
  rewrite Hoffsets. cbn [within].
  destruct (Z.ltb_spec (accumulate asizes) 0); [lia|]. done.
Qed.

(** On any other participant: no offset is computed, nothing is received
    and nothing is decoded. *)
Lemma payload_exchange_nonroot :
  rank comm <> root -> 0 <= comm_size comm ->
  payload_exchange ser comm in_values n out_values root oa []
  = MPI_Gatherv oa (Int.wrap (size oa)) [] []
      (replicate (Z.to_nat (comm_size comm)) 0) root
      (fun status _ =>
         within (BOOST_MPI_CHECK_RESULT status tt) out_values (fun _ =>
           Ret (Returned out_values))).
Proof.
  intros Hr HN. apply Z.eqb_neq in Hr.
  unfold payload_exchange, vec_new. rewrite Hr.
  destruct (Z.ltb_spec (comm_size comm) 0); [lia|]. done.
Qed.

(** The serialized [gather_impl] is the encoding, the public [gather] on the
    encoded length, and the payload exchange. *)
Lemma gather_impl_serialized_phases :
  0 <= n <= size in_values ->
  gather_impl_serialized_root ser comm in_values n out_values root
  = coll_bind
      (gather_int comm
         (Int.wrap (size (encoded ser (take (Z.to_nat n) in_values)))) [] root)
      (fun gathered =>
         within gathered out_values
           (payload_exchange ser comm in_values n out_values root
              (encoded ser (take (Z.to_nat n) in_values)))).
Proof.
  intros Hn. unfold gather_impl_serialized_root.
  by rewrite encode_values_encoded.
Qed.

End PayloadExchange.

(** ** A group on the serialized path

    Every participant runs the serialized [gather_impl], the root with its
    receive buffer and the others with the null pointer, inside the public
    overload it called.  What the overload does with the outcome of
    [gather_impl] is [W]: a map on programs that leaves the collective calls
    alone and applies [w] to what is returned. *)

Section SerializedRun.
Context {T R : Type} (ser : serializer T).
Variables (N n root : Z) (vals : Z -> list T) (out_root : buffer T).
Variable W : Z -> coll Z (outcome (buffer T)) -> coll Z R.
Variable w : Z -> outcome (buffer T) -> R.
Hypothesis HW_ret : forall k r, W k (Ret r) = Ret (w k r).
Hypothesis HW_gather : forall k sb sc rb rc rt cont,
  W k (MPI_Gather sb sc rb rc rt cont)
  = MPI_Gather sb sc rb rc rt (fun st m => W k (cont st m)).
Hypothesis HW_gatherv : forall k sb sc rb rcs ds rt cont,
  W k (MPI_Gatherv sb sc rb rcs ds rt cont)
  = MPI_Gatherv sb sc rb rcs ds rt (fun st m => W k (cont st m)).
Hypothesis HN : 0 < N <= Int.max_int.
Hypothesis Hroot : 0 <= root < N.
Hypothesis Hn : 0 <= n.
Hypothesis Hvals : forall k, 0 <= k < N -> n <= size (vals k).

Local Abbreviation comm_of k := {| rank := k; comm_size := N |}.
Local Abbreviation out_of k := (if k =? root then out_root else None).
Local Abbreviation prog k :=
  (W k (gather_impl_serialized_root ser (comm_of k) (vals k) n (out_of k) root)).

(** The encoded payload of rank [k], the gathered sizes, their offsets. *)
Local Abbreviation payload k := (encoded ser (take (Z.to_nat n) (vals k))).
Local Abbreviation sizes := (map (fun k => size (payload k)) (seqZ 0 N)).
Local Abbreviation offsets_of_sizes :=
  (map (fun k => sumZ (take (Z.to_nat k) sizes)) (seqZ 0 N)).

Hypothesis Hsum : sumZ sizes <= Int.max_int.

Lemma sizes_nonneg : Forall (fun s => 0 <= s) sizes.
Proof.
  apply Forall_forall. intros s Hs.
  apply list_elem_of_In, in_map_iff in Hs as (k & <- & _). apply size_nonneg.
Qed.

Lemma payload_size_int (k : Z) :
  0 <= k < N -> Int.wrap (size (payload k)) = size (payload k).
Proof.
  intros Hk. apply wrap_small. split; [apply size_nonneg|].
  etrans; [|exact Hsum]. apply sumZ_elem_le; [apply sizes_nonneg|].
  apply list_elem_of_In, in_map_iff. exists k. split; [done|].
  apply list_elem_of_In, elem_of_seqZ. lia.
Qed.

Lemma sizes2offset_sizes :
  sizes2offset sizes (replicate (Z.to_nat N) 0) = Returned offsets_of_sizes.
Proof.
  assert (length sizes = Z.to_nat N) as Hlen by (by rewrite length_map, length_seqZ).
  destruct (sizes2offset_returns sizes (replicate (Z.to_nat N) 0))
    as (offs & Hrun & Hrec).
  - intros Hnil. rewrite Hnil in Hlen. simpl in Hlen. lia.
  - by rewrite length_replicate.
  - unfold size at 1. rewrite Hlen. lia.
  - rewrite Hrun. f_equal.
    pose proof (recurrence_prefix_sums sizes offs sizes_nonneg Hsum Hrec) as Hoff.
    destruct Hrec as (Hlen' & _).
    apply list_eq. intros i.
    destruct (decide (i < length sizes)%nat) as [Hi|Hi].
    + rewrite Hoff by done. rewrite lookup_map, lookup_seqZ_lt by lia. simpl.
      by rewrite Z.add_0_l, Nat2Z.id.
    + rewrite !lookup_ge_None_2; [done| |lia].
      rewrite length_map, length_seqZ. lia.
Qed.

Lemma lookup_offsets_of_sizes (k : nat) :
  (k < length sizes)%nat ->
  offsets_of_sizes !! k = Some (sumZ (take k sizes)).
Proof.
  intros Hk. rewrite length_map, length_seqZ in Hk.
  rewrite lookup_map, lookup_seqZ_lt by lia. simpl.
  by rewrite Z.add_0_l, Nat2Z.id.
Qed.

(** What the senders hold after the size exchange. *)
Local Abbreviation after_sizes k :=
  (W k (payload_exchange ser (comm_of k) (vals k) n (out_of k) root (payload k)
          (if k =? root then sizes else []))).

Lemma serialized_enters_gather (k : Z) :
  0 <= k < N ->
  exists resume,
    pending_gather (prog k)
    = Some {| g_sendbuf := [size (payload k)]; g_sendcount := 1;
              g_recvbuf := if k =? root then Some (replicate (Z.to_nat N) 0)
                           else None;
              g_recvcount := 1; g_root := root; g_resume := resume |} /\
    resume MPI_SUCCESS (if k =? root then Some sizes else None) = after_sizes k.
Proof.
  intros Hk.
  rewrite gather_impl_serialized_phases by (split; [done|by apply Hvals]).
  rewrite payload_size_int by done.
  destruct (Z.eqb_spec k root) as [->|Hne].
  - rewrite size_exchange_root by (cbn; lia || done).
    cbn [coll_bind]. rewrite HW_gather. cbn. eexists. split; [done|]. done.
  - rewrite size_exchange_nonroot by (cbn; lia || done).
    cbn [coll_bind]. rewrite HW_gather. cbn. eexists. split; [done|]. done.
Qed.

Lemma concat_singletons {A B} (f : A -> B) (l : list A) :
  concat (map (fun x => [f x]) l) = map f l.
Proof. induction l as [|x l IH]; simpl; [done|]. by rewrite IH. Qed.

Lemma serialized_first_step :
  step_group (map (fun k => prog k) (seqZ 0 N)) = Some (map (fun k => after_sizes k) (seqZ 0 N)).
Proof.
  set (call := fun k : Z =>
    default
      {| g_sendbuf := []; g_sendcount := 0; g_recvbuf := None; g_recvcount := 0;
         g_root := 0;
         g_resume := fun _ _ => W 0 (Ret (Crashed OutOfBounds)) |}
      (pending_gather (prog k))).
  assert (forall k, 0 <= k < N ->
    exists resume,
      pending_gather (prog k) = Some (call k) /\
      call k = {| g_sendbuf := [size (payload k)]; g_sendcount := 1;
                  g_recvbuf := if k =? root then Some (replicate (Z.to_nat N) 0)
                               else None;
                  g_recvcount := 1; g_root := root; g_resume := resume |} /\
      resume MPI_SUCCESS (if k =? root then Some sizes else None) = after_sizes k)
    as Hcall.
  { intros k Hk. destruct (serialized_enters_gather k Hk) as (resume & Hp & Hres).
    exists resume. unfold call. rewrite Hp. done. }
  rewrite (step_group_gather N root 1 (replicate (Z.to_nat N) 0) _ call);
    try done; try lia.
  - f_equal. apply map_ext_seqZ. intros k Hk.
    destruct (Hcall k Hk) as (resume & _ & Hck & Hres). rewrite Hck. cbn.
    rewrite <- Hres. destruct (k =? root); [|done]. do 2 f_equal.
    rewrite gather_deliver_blocks.
    + rewrite size_map_seqZ, Z.mul_1_r by lia.
      rewrite drop_ge by (rewrite length_replicate; lia). rewrite app_nil_r.
      rewrite map_map.
      erewrite (map_ext_seqZ (fun k => take _ _)).
      * apply (concat_singletons (fun k => size (payload k))).
      * intros j Hj. cbn. destruct (Hcall j Hj) as (? & _ & -> & _). done.
    + lia.
    + intros s Hs. apply list_elem_of_In, in_map_iff in Hs as (j & <- & Hj).
      apply list_elem_of_In, elem_of_seqZ in Hj.
      destruct (Hcall j ltac:(lia)) as (? & _ & -> & _). done.
    + rewrite size_map_seqZ by lia. unfold size. rewrite length_replicate. lia.
  - intros k Hk. by destruct (Hcall k Hk) as (? & ? & _).
  - intros k Hk. destruct (Hcall k Hk) as (? & _ & -> & _). done.
  - destruct (Hcall root Hroot) as (? & _ & -> & _). cbn. by rewrite Z.eqb_refl.
  - by destruct (Hcall root Hroot) as (? & _ & -> & _).
  - unfold size. rewrite length_replicate. lia.
Qed.

(** What every participant returns, given the bytes the root received. *)
Local Abbreviation result recv k :=
  (w k (if k =? root then
          outcome_map fst
            (decode_phase ser (comm_of k) (vals k) n out_root root recv
               offsets_of_sizes)
        else Returned None)).

Lemma size_replicate_Z {A} (x : A) (c : Z) :
  0 <= c -> size (replicate (Z.to_nat c) x) = c.
Proof. intros Hc. unfold size. rewrite length_replicate. lia. Qed.

Lemma serialized_enters_gatherv (k : Z) :
  0 <= k < N ->
  exists resume,
    pending_gatherv (after_sizes k)
    = Some {| gv_sendbuf := payload k; gv_sendcount := size (payload k);
              gv_recvbuf := if k =? root
                            then replicate (Z.to_nat (sumZ sizes)) x00 else [];
              gv_recvcounts := if k =? root then sizes else [];
              gv_displs := if k =? root then offsets_of_sizes
                           else replicate (Z.to_nat N) 0;
              gv_root := root; gv_resume := resume |} /\
    forall recv, resume MPI_SUCCESS recv = Ret (result recv k).
Proof.
  intros Hk. destruct (Z.eqb_spec k root) as [->|Hne].
  - rewrite (payload_exchange_root _ _ _ _ _ _ _ sizes offsets_of_sizes);
      [|done|cbn; lia|apply sizes2offset_sizes|].
    + rewrite accumulate_sumZ by (apply sizes_nonneg || done).
      rewrite payload_size_int by done. rewrite HW_gatherv.
      cbn. eexists. split; [done|]. intros recv. cbn. by rewrite HW_ret.
    + rewrite accumulate_sumZ by (apply sizes_nonneg || done).
      apply sumZ_nonneg, sizes_nonneg.
  - rewrite payload_exchange_nonroot by (cbn; lia || done).
    rewrite payload_size_int by done. rewrite HW_gatherv.
    cbn. eexists. split; [done|]. intros recv. cbn. by rewrite HW_ret.
Qed.

Lemma segments_fit :
  forallb (fun '(c, d) => (0 <=? d)
             && (d + c <=? size (replicate (Z.to_nat (sumZ sizes)) x00)))
    (zip sizes offsets_of_sizes) = true.
Proof.
  pose proof sizes_nonneg as Hnn.
  apply forallb_elem. intros [c d] Hcd.
  apply list_elem_of_lookup in Hcd as (i & Hi).
  apply lookup_zip_with_Some in Hi as (c' & d' & Heq & Hc & Hd).
  injection Heq as -> ->.
  pose proof (lookup_lt_Some _ _ _ Hc) as Hlt.
  rewrite lookup_offsets_of_sizes in Hd by done. injection Hd as <-.
  pose proof (sumZ_take_le sizes i Hnn) as H1.
  pose proof (sumZ_take_le sizes (S i) Hnn) as H2.
  rewrite (sumZ_take_S _ _ _ Hc) in H2.
  rewrite size_replicate_Z by lia.
  apply andb_true_intro. split; apply Z.leb_le; lia.
Qed.

Lemma serialized_second_step :
  step_group (map (fun k => after_sizes k) (seqZ 0 N))
  = Some (map (fun k => Ret (result (concat (map (fun k => payload k) (seqZ 0 N))) k))
            (seqZ 0 N)).
Proof.
  set (call := fun k : Z =>
    default
      {| gv_sendbuf := []; gv_sendcount := 0; gv_recvbuf := [];
         gv_recvcounts := []; gv_displs := []; gv_root := 0;
         gv_resume := fun _ _ => W 0 (Ret (Crashed OutOfBounds)) |}
      (pending_gatherv (after_sizes k))).
  assert (forall k, 0 <= k < N ->
    exists resume,
      pending_gatherv (after_sizes k) = Some (call k) /\
      call k = {| gv_sendbuf := payload k; gv_sendcount := size (payload k);
                  gv_recvbuf := if k =? root
                                then replicate (Z.to_nat (sumZ sizes)) x00 else [];
                  gv_recvcounts := if k =? root then sizes else [];
                  gv_displs := if k =? root then offsets_of_sizes
                               else replicate (Z.to_nat N) 0;
                  gv_root := root; gv_resume := resume |} /\
      forall recv, resume MPI_SUCCESS recv = Ret (result recv k))
    as Hcall.
  { intros k Hk. destruct (serialized_enters_gatherv k Hk) as (resume & Hp & Hres).
    exists resume. unfold call. rewrite Hp. done. }
  destruct (Hcall root Hroot) as (resume_root & _ & Hcr & _).
  rewrite Z.eqb_refl in Hcr.
  assert (gatherv_deliver (map (fun k => gv_sendbuf (call k)) (seqZ 0 N))
            (gv_recvcounts (call root)) (gv_displs (call root))
            (gv_recvbuf (call root))
          = concat (map (fun k => payload k) (seqZ 0 N))) as Hdeliver.
  { rewrite Hcr. cbn.
    erewrite (map_ext_seqZ (fun k => gv_sendbuf (call k))).
    2:{ intros j Hj. destruct (Hcall j Hj) as (? & _ & -> & _). cbn. done. }
    rewrite <- (map_map (fun k => payload k) size).
    apply gatherv_deliver_payloads.
    + by rewrite !length_map.
    + intros i Hi. rewrite map_map. apply lookup_offsets_of_sizes.
      by rewrite !length_map in *.
    + rewrite map_map. apply size_replicate_Z.
      apply sumZ_nonneg, sizes_nonneg. }
  rewrite (step_group_gatherv N root _ call); try done; try lia.
  - f_equal. apply map_ext_seqZ. intros k Hk.
    destruct (Hcall k Hk) as (resume & _ & Hck & Hres). rewrite Hdeliver.
    rewrite Hck. cbn. rewrite Hres. by destruct (k =? root).
  - intros k Hk. by destruct (Hcall k Hk) as (? & ? & _).
  - intros k Hk. destruct (Hcall k Hk) as (? & _ & -> & _). cbn.
    split; [done|]. pose proof (size_nonneg (payload k)). lia.
  - rewrite Hcr. cbn. apply size_map_seqZ. lia.
  - rewrite Hcr. cbn. apply size_map_seqZ. lia.
  - rewrite Hcr. cbn. apply map_ext_seqZ. intros k Hk.
    destruct (Hcall k Hk) as (? & _ & -> & _). done.
  - rewrite Hcr. cbn. apply segments_fit.
Qed.

(** The run of the group: after the two collective calls every participant
    has returned; the root returns what its decoding loop makes of the
    concatenated payloads, the others return with their buffer untouched. *)
Lemma serialized_run (fuel : nat) :
  run_group (S (S fuel)) (map (fun k => prog k) (seqZ 0 N))
  = Some (map (fun k => result (concat (map (fun k => payload k) (seqZ 0 N))) k)
            (seqZ 0 N)).
Proof.
  destruct (serialized_enters_gather 0 ltac:(lia)) as (r0 & Hp0 & _).
  destruct (serialized_enters_gatherv 0 ltac:(lia)) as (r1 & Hp1 & _).
  etrans.
  { apply (run_group_step (S fuel) N (fun k => prog k));
      [lia| |apply serialized_first_step].
    exact (proj1 (pending_gather_not_returned _ _ Hp0)). }
  etrans.
  { apply (run_group_step fuel N (fun k => after_sizes k));
      [lia| |apply serialized_second_step].
    exact (proj1 (pending_gatherv_not_returned _ _ Hp1)). }
  rewrite <- (map_map _ Ret). apply run_group_returned.
Qed.

(** The phases of the protocol, as every participant goes through them. *)
Lemma serialized_phases :
  (forall k, 0 <= k < N ->
     exists c, pending_gather (prog k) = Some c /\
       g_sendbuf c = [size (payload k)] /\ g_sendcount c = 1 /\ g_root c = root) /\
  step_group (map (fun k => prog k) (seqZ 0 N))
  = Some (map (fun k => after_sizes k) (seqZ 0 N)) /\
  (forall k, 0 <= k < N ->
     exists c, pending_gatherv (after_sizes k) = Some c /\
       gv_sendbuf c = payload k /\ gv_sendcount c = size (payload k) /\
       gv_root c = root /\
       gv_recvcounts c = (if k =? root then sizes else []) /\
       gv_displs c = (if k =? root then offsets_of_sizes
                      else replicate (Z.to_nat N) 0) /\
       gv_recvbuf c = (if k =? root then replicate (Z.to_nat (sumZ sizes)) x00
                       else [])) /\
  step_group (map (fun k => after_sizes k) (seqZ 0 N))
  = Some (map (fun k => Ret (result (concat (map (fun k => payload k) (seqZ 0 N))) k))
            (seqZ 0 N)).
Proof.
  split; [|split; [apply serialized_first_step|split; [|apply serialized_second_step]]].
  - intros k Hk. destruct (serialized_enters_gather k Hk) as (resume & -> & _).
    eexists. split; [done|]. done.
  - intros k Hk. destruct (serialized_enters_gatherv k Hk) as (resume & -> & _).
    eexists. split; [done|]. done.
Qed.

End SerializedRun.

(** ** Reading back what was written *)

Section Roundtrip.
Context {T : Type} (ser : serializer T).
Hypothesis Hser : roundtrip ser.

(** Successive reads recover the values written one after the other. *)
Lemma read_prefix_roundtrip (vs : list T) (pre post : list byte) :
  read_prefix ser (pre ++ encoded ser vs ++ post) (size pre) (length vs) = vs.
Proof.
  revert pre. induction vs as [|v vs IH]; intros pre; [done|].
  cbn [length read_prefix]. unfold encoded. cbn [map concat].
  rewrite <- (app_assoc (save ser v)). rewrite Hser.
  replace (size pre + size (save ser v)) with (size (pre ++ save ser v))
    by (unfold size; rewrite length_app; lia).
  rewrite (app_assoc pre). fold (encoded ser vs). by rewrite IH.
Qed.

Lemma sumZ_sizes_concat {A} (l : list (list A)) :
  sumZ (map size l) = size (concat l).
Proof.
  induction l as [|x l IH]; [done|].
  cbn [map concat]. change (sumZ (size x :: map size l)) with (size x + sumZ (map size l)).
  rewrite IH. unfold size. rewrite length_app. lia.
Qed.

Variables (N n root : Z) (vals : Z -> list T).
Hypothesis HN : 0 < N.
Hypothesis Hn : 0 <= n.
Hypothesis Hvals : forall k, 0 <= k < N -> n <= size (vals k).

Local Abbreviation payload k := (encoded ser (take (Z.to_nat n) (vals k))).
Local Abbreviation sizes := (map (fun k => size (payload k)) (seqZ 0 N)).
Local Abbreviation offsets_of_sizes :=
  (map (fun k => sumZ (take (Z.to_nat k) sizes)) (seqZ 0 N)).

(** In the buffer that holds the payloads in rank order, reading [n] values
    at the offset of a sender gives back the values of that sender. *)
Lemma received_roundtrip (in_values : list T) (src : Z) :
  0 <= src < N -> src <> root ->
  received ser in_values n root (concat (map (fun k => payload k) (seqZ 0 N)))
    offsets_of_sizes src
  = take (Z.to_nat n) (vals src).
Proof.
  intros Hsrc Hne. unfold received.
  destruct (Z.eqb_spec src root) as [|_]; [done|].
  unfold vec_get. destruct (Z.leb_spec 0 src); [|lia].
  rewrite lookup_map_seqZ by lia. cbn [default].
  set (payloads := map (fun k => payload k) (seqZ 0 N)).
  assert (payloads !! Z.to_nat src = Some (payload src)) as Hsrc'
    by (apply (lookup_map_seqZ (fun k => payload k)); lia).
  replace (map (fun k => size (payload k)) (seqZ 0 N)) with (map size payloads)
    by (unfold payloads; by rewrite map_map).
  rewrite firstn_map, sumZ_sizes_concat.
  rewrite <- (take_drop_middle payloads _ _ Hsrc') at 1.
  rewrite concat_app. cbn [concat].
  assert (length (take (Z.to_nat n) (vals src)) = Z.to_nat n) as Hlen.
  { rewrite length_take. specialize (Hvals src Hsrc). unfold size in Hvals. lia. }
  pose proof (read_prefix_roundtrip (take (Z.to_nat n) (vals src))
                (concat (take (Z.to_nat src) payloads))
                (concat (drop (S (Z.to_nat src)) payloads))) as Hread.
  rewrite Hlen in Hread. exact Hread.
Qed.

End Roundtrip.

(** ** The public overloads on the serialized path *)

Section SerializedOverloads.
Context {T : Type} (ser : serializer T).
Variables (N n root : Z) (vals : Z -> list T).
Hypothesis HN : 0 < N <= Int.max_int.
Hypothesis Hroot : 0 <= root < N.
Hypothesis Hn : 0 <= n.
Hypothesis Hvals : forall k, 0 <= k < N -> n <= size (vals k).

Local Abbreviation comm_of k := {| rank := k; comm_size := N |}.
Local Abbreviation payload k := (encoded ser (take (Z.to_nat n) (vals k))).
Local Abbreviation sizes := (map (fun k => size (payload k)) (seqZ 0 N)).
Local Abbreviation offsets_of_sizes :=
  (map (fun k => sumZ (take (Z.to_nat k) sizes)) (seqZ 0 N)).
Local Abbreviation payloads := (concat (map (fun k => payload k) (seqZ 0 N))).

Hypothesis Hsum : sumZ sizes <= Int.max_int.

(** [gather(comm, in_values, n, out_values, root)] called by every rank. *)
Lemma serialized_array_ptr_run (outs : Z -> buffer T) (fuel : nat) :
  run_group (S (S fuel))
    (group N (fun comm =>
       Gather.array_ptr (mpl_false ser) comm (vals (rank comm)) n
         (outs (rank comm)) root))
  = Some (map (fun k =>
            if k =? root then
              outcome_map fst
                (decode_phase ser (comm_of root) (vals root) n (outs root) root
                   payloads offsets_of_sizes)
            else Returned (outs k)) (seqZ 0 N)).
Proof.
  set (W := fun (k : Z) (p : coll Z (outcome (buffer T))) =>
    if k =? root then p
    else coll_map (outcome_map (fun _ => outs k))
           (coll_map (outcome_map (fun _ => tt)) p)).
  set (w := fun (k : Z) (r : outcome (buffer T)) =>
    if k =? root then r
    else outcome_map (fun _ => outs k) (outcome_map (fun _ => tt) r)).
  pose proof (serialized_run ser N n root vals (outs root) W w) as Hrun.
  unfold group. erewrite map_ext_seqZ.
  - rewrite Hrun; try done.
    + f_equal. apply map_ext_seqZ. intros k Hk. unfold w.
      by destruct (Z.eqb_spec k root) as [->|].
    + intros k r. unfold W, w. by destruct (k =? root).
    + intros k *. unfold W. by destruct (k =? root).
    + intros k *. unfold W. by destruct (k =? root).
  - intros k Hk. unfold Gather.array_ptr, gather_array_ptr, W. cbn [rank].
    by destruct (Z.eqb_spec k root) as [->|].
Qed.

(** [gather(comm, in_values, n, std::vector<T>& out_values, root)] called by
    every rank. *)
Lemma serialized_array_vec_run `{DefaultConstructible T} (outs : Z -> list T)
    (fuel : nat) :
  0 < n -> N * n <= Int.max_int ->
  run_group (S (S fuel))
    (group N (fun comm =>
       Gather.array_vec (mpl_false ser) comm (vals (rank comm)) n
         (outs (rank comm)) root))
  = Some (map (fun k =>
            if k =? root then
              through_data (resize (Z.to_nat (N * n)) value_init (outs root))
                (outcome_map fst
                   (decode_phase ser (comm_of root) (vals root) n
                      (Some (resize (Z.to_nat (N * n)) value_init (outs root)))
                      root payloads offsets_of_sizes))
            else Returned (outs k)) (seqZ 0 N)).
Proof.
  intros Hpos Hint.
  set (resized := resize (Z.to_nat (N * n)) value_init (outs root)).
  assert (size resized = N * n) as Hsize by (apply length_resize_Z; nia).
  set (W := fun (k : Z) (p : coll Z (outcome (buffer T))) =>
    if k =? root then coll_map (through_data resized) p
    else coll_map (outcome_map (fun _ => outs k))
           (coll_map (outcome_map (fun _ => tt)) p)).
  set (w := fun (k : Z) (r : outcome (buffer T)) =>
    if k =? root then through_data resized r
    else outcome_map (fun _ => outs k) (outcome_map (fun _ => tt) r)).
  pose proof (serialized_run ser N n root vals (Some resized) W w) as Hrun.
  unfold group. erewrite map_ext_seqZ.
  - rewrite Hrun; try done.
    + f_equal. apply map_ext_seqZ. intros k Hk. unfold w.
      by destruct (Z.eqb_spec k root) as [->|].
    + intros k r. unfold W, w. by destruct (k =? root).
    + intros k *. unfold W. by destruct (k =? root).
    + intros k *. unfold W. by destruct (k =? root).
  - intros k Hk.
    unfold Gather.array_vec, gather_array_vec, gather_array_ptr,
      gather_array_nonroot, BOOST_ASSERT, W. cbn [rank comm_size].
    destruct (Z.eqb_spec k root) as [->|Hne]; [|done].
    unfold vec_resize, Int.mul. rewrite wrap_small by nia.
    destruct (Z.ltb_spec (N * n) 0); [nia|]. cbn [within].
    by rewrite address_of_first_nonempty by (fold resized; nia).
Qed.

End SerializedOverloads.

(** ** Order preservation *)

Lemma take_all_Z {A} (l : list A) (n : Z) : size l = n -> take (Z.to_nat n) l = l.
Proof. intros Hn. apply take_ge. unfold size in Hn. lia. Qed.

(** With a serialization whose reads undo its writes, the decoding loop of
    the root returns the values of all senders in rank order. *)
Lemma decode_phase_roundtrip {T} (ser : serializer T) (N n root : Z)
    (vals : Z -> list T) (mem : list T) :
  roundtrip ser ->
  0 < N -> 0 <= root < N -> 0 <= n ->
  (forall k, 0 <= k < N -> size (vals k) = n) ->
  N * n <= size mem -> N * n <= Int.max_int ->
  exists trace,
    decode_phase ser {| rank := root; comm_size := N |} (vals root) n (Some mem)
      root
      (concat (map (fun k => encoded ser (take (Z.to_nat n) (vals k))) (seqZ 0 N)))
      (map (fun k =>
              sumZ (take (Z.to_nat k)
                      (map (fun k => size (encoded ser (take (Z.to_nat n) (vals k))))
                         (seqZ 0 N))))
         (seqZ 0 N))
    = Returned (Some (concat (map vals (seqZ 0 N)) ++ drop (Z.to_nat (N * n)) mem),
                trace).
Proof.
  intros Hser HN Hroot Hn Hvals Hroom Hint.
  assert (forall k, 0 <= k < N -> n <= size (vals k)) as Hvals'
    by (intros k Hk; specialize (Hvals k Hk); lia).
  assert (forall src, 0 <= src < N ->
    received ser (vals root) n root
      (concat (map (fun k => encoded ser (take (Z.to_nat n) (vals k))) (seqZ 0 N)))
      (map (fun k =>
              sumZ (take (Z.to_nat k)
                      (map (fun k => size (encoded ser (take (Z.to_nat n) (vals k))))
                         (seqZ 0 N))))
         (seqZ 0 N)) src
    = vals src) as Hrecv.
  { intros src Hsrc. destruct (decide (src = root)) as [->|Hne].
    - unfold received. rewrite Z.eqb_refl. apply take_all_Z. by apply Hvals.
    - rewrite (received_roundtrip ser Hser N n root vals) by done.
      apply take_all_Z. by apply Hvals. }
  eexists. rewrite (decode_phase_returns ser (vals root) n root _ _ mem N);
    try done.
  - rewrite (Z.mul_comm n N), (map_ext_seqZ _ vals N Hrecv). reflexivity.
  - specialize (Hvals root Hroot). lia.
  - rewrite size_map_seqZ; lia.
  - lia.
  - intros src Hsrc. rewrite Hrecv by done.
    specialize (Hvals src Hsrc). unfold size in Hvals. lia.
Qed.

(** C1: for every group size [N], count [n] and values, when every rank of
    the group calls [gather(comm, in_values, n, out_values, root)] the call
    completes for every rank and the buffer of the root then holds, at
    indices [[k*n, k*n+n)], the [n] values of rank [k] in their order, for
    every rank [k], on the direct path and on the serialized path. *)
Theorem gather_order_preserved {T} (tag : mpi_tag T) (N n root : Z)
    (vals : Z -> list T) (outs : Z -> buffer T) (mem : list T) (fuel : nat) :
  0 < N -> 0 <= root < N -> 0 <= n ->
  (forall k, 0 <= k < N -> size (vals k) = n) ->
  outs root = Some mem -> N * n <= size mem ->
  transmissible tag N n vals ->
  exists results assembled,
    run_group (S (S fuel))
      (group N (fun comm =>
         Gather.array_ptr tag comm (vals (rank comm)) n (outs (rank comm)) root))
    = Some results /\
    results !! Z.to_nat root = Some (Returned (Some assembled)) /\
    (forall k, 0 <= k < N -> k <> root ->
       results !! Z.to_nat k = Some (Returned (outs k))) /\
    forall k, 0 <= k < N -> slice assembled (k * n) n = vals k.
Proof.
  intros HN Hroot Hn Hvals Hout Hroom Htag.
  assert (forall k, 0 <= k < N -> n <= size (vals k)) as Hvals'
    by (intros k Hk; specialize (Hvals k Hk); lia).
  exists (map (fun k => Returned (if k =? root
            then Some (concat (map vals (seqZ 0 N)) ++ drop (Z.to_nat (N * n)) mem)
            else outs k)) (seqZ 0 N)),
         (concat (map vals (seqZ 0 N)) ++ drop (Z.to_nat (N * n)) mem).
  split; [|split; [|split]].
  - destruct tag as [|ser].
    + rewrite (direct_run N n root vals outs mem) by (done || lia).
      f_equal. apply map_ext_seqZ. intros k Hk.
      destruct (k =? root); [|done]. do 4 f_equal.
      apply map_ext_seqZ. intros j Hj. apply take_all_Z. by apply Hvals.
    + destruct Htag as (Hser & HNint & Hint & Hsum).
      rewrite (serialized_array_ptr_run ser N n root vals) by done.
      f_equal. apply map_ext_seqZ. intros k Hk.
      destruct (k =? root); [|done]. rewrite Hout.
      destruct (decode_phase_roundtrip ser N n root vals mem) as (trace & ->);
        try done; lia.
  - rewrite lookup_map_seqZ by done. by rewrite Z.eqb_refl.
  - intros k Hk Hne. rewrite lookup_map_seqZ by done.
    by destruct (Z.eqb_spec k root).
  - intros k Hk. rewrite (Z.mul_comm k n). by apply slice_blocks.
Qed.

Lemma scan_unary_save (v : nat) (post : list byte) :
  scan_unary (replicate v x01 ++ x00 :: post) = Some v.
Proof. induction v as [|v IH]; simpl; [done|]. by rewrite IH. Qed.

Lemma unary_roundtrip : roundtrip unary.
Proof.
  intros pre v post. unfold unary. cbn [load save].
  pose proof (size_nonneg pre) as Hpre.
  destruct (Z.ltb_spec (size pre) 0); [lia|].
  unfold size at 1. rewrite Nat2Z.id, drop_app_length.
  rewrite <- app_assoc. cbn [app]. rewrite scan_unary_save.
  do 2 f_equal. unfold size. rewrite length_app, length_replicate. simpl. lia.
Qed.

Lemma gather_order_preserved_witness :
  exists results assembled,
    run_group 2
      (group 3 (fun comm =>
         Gather.array_ptr (mpl_false unary) comm
           (nth (Z.to_nat (rank comm)) [[1; 0]; [2; 5]; [3; 1]]%nat []) 2
           (if rank comm =? 1 then Some (replicate 6 O) else None) 1))
    = Some results /\
    results !! Z.to_nat 1 = Some (Returned (Some assembled)) /\
    (forall k, 0 <= k < 3 -> k <> 1 ->
       results !! Z.to_nat k
       = Some (Returned (if k =? 1 then Some (replicate 6 O) else None))) /\
    forall k, 0 <= k < 3 ->
      slice assembled (k * 2) 2
      = nth (Z.to_nat k) [[1; 0]; [2; 5]; [3; 1]]%nat [].
Proof.
  apply (gather_order_preserved (mpl_false unary) 3 2 1
           (fun k => nth (Z.to_nat k) [[1; 0]; [2; 5]; [3; 1]]%nat [])
           (fun k => if k =? 1 then Some (replicate 6 O) else None)
           (replicate 6 O) 0).
  - lia.
  - lia.
  - lia.
  - intros k Hk.
    assert (k = 0 \/ k = 1 \/ k = 2) as [->|[->| ->]] by lia; reflexivity.
  - reflexivity.
  - vm_compute. discriminate.
  - split; [apply unary_roundtrip|].
    repeat split; vm_compute; discriminate.
Defined.

(** ** The reads of the decoding loop *)

Lemma length_read_positions {T} (ser : serializer T) buf pos count :
  length (read_prefix ser buf pos count) = count ->
  length (read_positions ser buf pos count) = count.
Proof.
  revert pos. induction count as [|c IH]; intros pos; [done|]. simpl.
  destruct (load ser buf pos) as [[v pos']|]; simpl; [|done].
  intros Hlen. f_equal. apply IH. lia.
Qed.

Lemma head_read_positions {T} (ser : serializer T) buf pos count :
  (0 < count)%nat -> head (read_positions ser buf pos count) = Some pos.
Proof. destruct count; [lia|done]. Qed.

Lemma read_events_sender {T} (ser : serializer T) (n root : Z) buf offsets
    (src offset : Z) :
  src <> root -> vec_get offsets src = Some offset ->
  length (read_prefix ser buf offset (Z.to_nat n)) = Z.to_nat n ->
  map ev_src (read_events ser n root buf offsets src) = replicate (Z.to_nat n) src /\
  (0 < n -> head (read_events ser n root buf offsets src)
            = Some {| ev_src := src; ev_position := offset |}).
Proof.
  intros Hne Hoff Hlen. unfold read_events.
  destruct (Z.eqb_spec src root) as [|_]; [done|]. rewrite Hoff.
  change (default 0 (Some offset)) with offset.
  split.
  - rewrite map_map. cbn [ev_src].
    rewrite <- (length_read_positions ser buf offset (Z.to_nat n) Hlen) at 2.
    generalize (read_positions ser buf offset (Z.to_nat n)).
    intros l. induction l as [|p l IH]; simpl; [done|]. by rewrite IH.
  - intros Hn.
    pose proof (head_read_positions ser buf offset (Z.to_nat n) ltac:(lia)) as Hhead.
    destruct (read_positions ser buf offset (Z.to_nat n)); [done|].
    simpl in *. by injection Hhead as ->.
Qed.

Lemma vec_get_in_range {A} (v : list A) (i : Z) :
  0 <= i < size v -> exists x, vec_get v i = Some x.
Proof.
  intros Hi. unfold vec_get. destruct (Z.leb_spec 0 i); [|lia].
  apply lookup_lt_is_Some_2. unfold size in Hi. lia.
Qed.

(** C3: when the decoding loop of the root returns, the slice of the root
    holds the root's own [in_values], whatever the serialization does, and
    the loop has read nothing for the root; the slice of every other sender
    holds the [n] values read one after the other from the offset of that
    sender, [n] reads that start at this offset; and the reads of the loop
    are those of the senders in increasing rank order. *)
Theorem root_contribution_copied {T} (ser : serializer T) (comm : communicator)
    (in_values : list T) (n root : Z) (mem : list T) (buf : list byte)
    (offsets : list Z) (out' : buffer T) (trace : list ia_event) :
  0 <= n <= size in_values ->
  0 <= root < comm_size comm ->
  comm_size comm <= size offsets ->
  comm_size comm * n <= size mem ->
  comm_size comm * n <= Int.max_int ->
  decode_phase ser comm in_values n (Some mem) root buf offsets
  = Returned (out', trace) ->
  exists assembled,
    out' = Some assembled /\
    slice assembled (root * n) n = take (Z.to_nat n) in_values /\
    read_events ser n root buf offsets root = [] /\
    trace = concat (map (read_events ser n root buf offsets)
                      (seqZ 0 (comm_size comm))) /\
    forall src, 0 <= src < comm_size comm -> src <> root ->
      exists offset,
        vec_get offsets src = Some offset /\
        length (read_prefix ser buf offset (Z.to_nat n)) = Z.to_nat n /\
        slice assembled (src * n) n = read_prefix ser buf offset (Z.to_nat n) /\
        map ev_src (read_events ser n root buf offsets src)
        = replicate (Z.to_nat n) src /\
        (0 < n -> head (read_events ser n root buf offsets src)
                  = Some {| ev_src := src; ev_position := offset |}).
Proof.
  intros Hn Hroot Hoffsets Hroom Hint Hrun.
  set (N := comm_size comm) in *.
  destruct (first_incomplete ser in_values n root buf offsets (Z.to_nat N))
    as [Hall|(j & Hj & Hfail & Hbefore)].
  - rewrite Z2Nat.id in Hall by lia.
    rewrite (decode_phase_returns ser in_values n root buf offsets mem N)
      in Hrun by (done || lia).
    injection Hrun as <- <-.
    assert (forall src, 0 <= src < N ->
              size (received ser in_values n root buf offsets src) = n) as Hsize.
    { intros src Hsrc. unfold size. rewrite Hall by done. lia. }
    eexists. split; [done|]. split; [|split; [|split; [done|]]].
    + rewrite (Z.mul_comm root n), slice_blocks by (done || lia).
      unfold received. by rewrite Z.eqb_refl.
    + unfold read_events. by rewrite Z.eqb_refl.
    + intros src Hsrc Hne.
      destruct (vec_get_in_range offsets src ltac:(lia)) as [offset Hoff].
      pose proof (Hall src Hsrc) as Hlen.
      assert (received ser in_values n root buf offsets src
              = read_prefix ser buf offset (Z.to_nat n)) as Hrecv.
      { unfold received. destruct (Z.eqb_spec src root); [done|]. by rewrite Hoff. }
      rewrite Hrecv in Hlen.
      exists offset. split; [done|]. split; [done|]. split.
      * rewrite (Z.mul_comm src n), slice_blocks by (done || lia). done.
      * by apply read_events_sender.
  - rewrite Z2Nat.id in Hj by lia.
    rewrite (decode_phase_throws ser in_values n root buf offsets mem N)
      with (j := j) in Hrun by done.
    discriminate.
Qed.

(** ** Decode failure *)

(** The memory the loop leaves when it stops in the block of sender [j]. *)
Lemma partial_assembly {T} (stored : Z -> list T) (mem : list T) (N n j : Z) :
  0 <= n -> 0 <= j < N -> N * n <= size mem ->
  (forall i, 0 <= i < j -> size (stored i) = n) ->
  size (stored j) <= n ->
  let assembled :=
    concat (map stored (seqZ 0 j)) ++ stored j
      ++ drop (Z.to_nat (n * j) + length (stored j)) mem in
  size assembled = size mem /\
  (forall src, 0 <= src < j -> slice assembled (src * n) n = stored src) /\
  take (length (stored j)) (slice assembled (j * n) n) = stored j /\
  (forall src, j < src < N -> slice assembled (src * n) n = slice mem (src * n) n).
Proof.
  intros Hn Hj Hroom Hsize Hshort assembled.
  assert (length (concat (map stored (seqZ 0 j))) = Z.to_nat (n * j)) as Hpre.
  { rewrite (length_concat_blocks stored _ (Z.to_nat n)).
    - rewrite length_seqZ. nia.
    - intros i Hi. apply elem_of_seqZ in Hi. specialize (Hsize i).
      unfold size in Hsize. lia. }
  unfold assembled, size in *. split; [|split; [|split]].
  - rewrite !length_app, length_drop, Hpre. nia.
  - intros src Hsrc. rewrite (Z.mul_comm src n).
    apply (slice_blocks stored); [done|lia|done].
  - unfold slice. rewrite (Z.mul_comm j n).
    rewrite drop_app_length' by done.
    rewrite take_take, Nat.min_l by lia.
    by rewrite take_app_length.
  - intros src Hsrc. rewrite (Z.mul_comm src n), app_assoc.
    replace (Z.to_nat (n * j) + length (stored j))%nat
      with (Z.to_nat (n * j + Z.of_nat (length (stored j)))) by lia.
    apply slice_behind_blocks; [done| |].
    + unfold size. rewrite length_app, Hpre. lia.
    + nia.
Qed.

(** C9: when the values of sender [j] are the first that do not decode on
    the root, the call of the root ends with the exception [DecodeError],
    thrown to its caller, while the other participants have returned; in the
    memory it leaves, the slices of the senders below [j] hold what was
    stored for them (the decoded values, the root's own values), the slice of
    [j] starts with the values of [j] that did decode, and the slices of the
    senders above [j] are as they were before the call. *)
Theorem decode_failure_propagates {T} (ser : serializer T) (N n root : Z)
    (vals : Z -> list T) (outs : Z -> buffer T) (mem : list T) (j : Z)
    (fuel : nat) :
  0 < N <= Int.max_int -> 0 <= root < N -> 0 <= n ->
  (forall k, 0 <= k < N -> n <= size (vals k)) ->
  sumZ (map (fun k => size (encoded ser (take (Z.to_nat n) (vals k)))) (seqZ 0 N))
    <= Int.max_int ->
  outs root = Some mem -> N * n <= size mem -> N * n <= Int.max_int ->
  let buf := concat (map (fun k => encoded ser (take (Z.to_nat n) (vals k)))
                       (seqZ 0 N)) in
  let offsets :=
    map (fun k =>
           sumZ (take (Z.to_nat k)
                   (map (fun k => size (encoded ser (take (Z.to_nat n) (vals k))))
                      (seqZ 0 N))))
      (seqZ 0 N) in
  let stored := received ser (vals root) n root buf offsets in
  0 <= j < N ->
  (forall src, 0 <= src < j -> length (stored src) = Z.to_nat n) ->
  length (stored j) <> Z.to_nat n ->
  exists results assembled,
    run_group (S (S fuel))
      (group N (fun comm =>
         Gather.array_ptr (mpl_false ser) comm (vals (rank comm)) n
           (outs (rank comm)) root))
    = Some results /\
    results !! Z.to_nat root = Some (Threw DecodeError (Some assembled)) /\
    (forall k, 0 <= k < N -> k <> root ->
       results !! Z.to_nat k = Some (Returned (outs k))) /\
    j <> root /\
    size assembled = size mem /\
    (forall src, 0 <= src < j -> slice assembled (src * n) n = stored src) /\
    take (length (stored j)) (slice assembled (j * n) n) = stored j /\
    (forall src, j < src < N -> slice assembled (src * n) n = slice mem (src * n) n).
Proof.
  intros HN Hroot Hn Hvals Hsum Hout Hroom Hint buf offsets stored Hj Hbefore Hfail.
  assert (0 <= n <= size (vals root)) as Hn' by (split; [done|by apply Hvals]).
  assert (N <= size offsets) as Hoffsets
    by (unfold offsets; rewrite size_map_seqZ; lia).
  pose proof (length_received ser (vals root) n root buf offsets j) as Hshort.
  destruct (partial_assembly stored mem N n j) as (Hsize & Hlow & Hpart & Hhigh);
    try done.
  { intros i Hi. unfold size. rewrite Hbefore by done. lia. }
  { unfold size, stored. lia. }
  exists (map (fun k =>
            if k =? root then
              outcome_map fst
                (decode_phase ser {| rank := root; comm_size := N |} (vals root)
                   n (outs root) root buf offsets)
            else Returned (outs k)) (seqZ 0 N)),
         (concat (map stored (seqZ 0 j)) ++ stored j
            ++ drop (Z.to_nat (n * j) + length (stored j)) mem).
  split; [|split; [|split; [|split]]]; [| | | |done].
  - apply (serialized_array_ptr_run ser N n root vals HN Hroot Hn Hvals Hsum).
  - rewrite lookup_map_seqZ by done. rewrite Z.eqb_refl, Hout.
    rewrite (decode_phase_throws ser (vals root) n root buf offsets mem N
               Hn' Hoffsets Hroom Hint {| rank := root; comm_size := N |} j
               eq_refl Hj Hbefore Hfail).
    reflexivity.
  - intros k Hk Hne. rewrite lookup_map_seqZ by done.
    by destruct (Z.eqb_spec k root).
  - intros ->. apply Hfail. by apply received_root_complete.
Qed.

(** ** No values at all *)

Lemma sumZ_replicate_0 (m : nat) : sumZ (replicate m 0) = 0.
Proof. induction m as [|m IH]; [done|]. simpl. unfold sumZ in *. simpl. lia. Qed.

Lemma sizes2offset_zeros (N : Z) (offsets : list Z) :
  0 < N <= Int.max_int -> length offsets = Z.to_nat N ->
  sizes2offset (replicate (Z.to_nat N) 0) offsets
  = Returned (replicate (Z.to_nat N) 0).
Proof.
  intros HN Hlen.
  assert (Forall (fun s => 0 <= s) (replicate (Z.to_nat N) 0)) as Hnn
    by (apply Forall_replicate; lia).
  assert (sumZ (replicate (Z.to_nat N) 0) <= Int.max_int) as Hsum
    by (rewrite sumZ_replicate_0; unfold Int.max_int; lia).
  destruct (sizes2offset_returns (replicate (Z.to_nat N) 0) offsets)
    as (offs & Hrun & Hrec).
  - intros Hnil. apply (f_equal length) in Hnil.
    rewrite length_replicate in Hnil. simpl in Hnil. lia.
  - by rewrite length_replicate.
  - unfold size. rewrite length_replicate. lia.
  - rewrite Hrun. f_equal.
    pose proof (recurrence_prefix_sums _ offs Hnn Hsum Hrec) as Hoff.
    destruct Hrec as (Hlen' & _). rewrite length_replicate in *.
    apply list_eq. intros i.
    destruct (decide (i < Z.to_nat N)%nat) as [Hi|Hi].
    + rewrite Hoff by done. rewrite lookup_replicate_2 by done.
      by rewrite take_replicate, sumZ_replicate_0.
    + rewrite !lookup_ge_None_2; [done|rewrite length_replicate; lia|lia].
Qed.

(** C4: [n = 0] on the root, through the overload that takes a
    [std::vector].  The vector is resized to [comm.size() * 0] elements, none,
    and [out_values[0]] is then an access outside the vector: the call of
    the root ends there, on either path, before any collective call, and
    yields no empty container.  The overload that takes a pointer does what
    this one misses: when every rank calls it with [n = 0] on the serialized
    path, every rank announces a payload of no bytes in the size exchange,
    sends no byte in the payload exchange, for which the root has computed
    sizes and offsets that are all zero, and returns with its buffer as it
    was. *)
Theorem gather_zero_values {T} `{DefaultConstructible T} (ser : serializer T)
    (N root : Z) (vals : Z -> list T) (outs : Z -> buffer T)
    (mem out_values : list T) (fuel : nat) :
  0 < N <= Int.max_int -> 0 <= root < N -> outs root = Some mem ->
  let prog := fun comm : communicator =>
    Gather.array_ptr (mpl_false ser) comm (vals (rank comm)) 0
      (outs (rank comm)) root in
  (forall tag : mpi_tag T,
     Gather.array_vec tag {| rank := root; comm_size := N |} (vals root) 0
       out_values root
     = Ret (Crashed OutOfBounds)) /\
  exists after,
    (forall k, 0 <= k < N ->
       exists c, pending_gather (prog {| rank := k; comm_size := N |}) = Some c /\
         g_sendbuf c = [0] /\ g_sendcount c = 1) /\
    step_group (group N prog) = Some after /\
    (forall k, 0 <= k < N ->
       exists p c, after !! Z.to_nat k = Some p /\ pending_gatherv p = Some c /\
         gv_sendbuf c = [] /\ gv_sendcount c = 0 /\
         (k = root ->
            gv_recvcounts c = replicate (Z.to_nat N) 0 /\
            gv_displs c = replicate (Z.to_nat N) 0 /\
            gv_recvbuf c = [])) /\
    run_group (S (S fuel)) (group N prog)
    = Some (map (fun k => Returned (outs k)) (seqZ 0 N)).
Proof.
  intros HN Hroot Hout prog. split.
  { intros tag. unfold Gather.array_vec, gather_array_vec. cbn [rank comm_size].
    rewrite Z.eqb_refl. unfold vec_resize, Int.mul.
    rewrite Z.mul_0_r. change (Int.wrap 0) with 0.
    change (0 <? 0) with false. change (Z.to_nat 0) with O.
    cbn [within]. by rewrite resize_0. }
  assert (map (fun k => size (encoded ser (take (Z.to_nat 0) (vals k)))) (seqZ 0 N)
          = replicate (Z.to_nat N) 0) as Hsizes.
  { apply list_eq. intros i. rewrite lookup_map.
    destruct (decide (i < Z.to_nat N)%nat) as [Hi|Hi].
    - rewrite lookup_seqZ_lt, lookup_replicate_2 by lia. done.
    - rewrite lookup_seqZ_ge, lookup_ge_None_2 by (rewrite ?length_replicate; lia).
      done. }
  assert (sumZ (map (fun k => size (encoded ser (take (Z.to_nat 0) (vals k))))
                  (seqZ 0 N)) <= Int.max_int) as Hsum
    by (rewrite Hsizes, sumZ_replicate_0; unfold Int.max_int; lia).
  assert (map (fun k =>
                 sumZ (take (Z.to_nat k)
                         (map (fun k => size (encoded ser (take (Z.to_nat 0) (vals k))))
                            (seqZ 0 N))))
            (seqZ 0 N)
          = replicate (Z.to_nat N) 0) as Hoffsets.
  { rewrite Hsizes. apply list_eq. intros i. rewrite lookup_map.
    destruct (decide (i < Z.to_nat N)%nat) as [Hi|Hi].
    - rewrite lookup_seqZ_lt, lookup_replicate_2 by lia. cbn.
      by rewrite take_replicate, sumZ_replicate_0.
    - rewrite lookup_seqZ_ge, lookup_ge_None_2 by (rewrite ?length_replicate; lia).
      done. }
  assert (forall k, 0 <= k < N -> 0 <= size (vals k)) as Hvals
    by (intros k _; apply size_nonneg).
  set (W := fun (k : Z) (p : coll Z (outcome (buffer T))) =>
    if k =? root then p
    else coll_map (outcome_map (fun _ => outs k))
           (coll_map (outcome_map (fun _ => tt)) p)).
  set (w := fun (k : Z) (r : outcome (buffer T)) =>
    if k =? root then r
    else outcome_map (fun _ => outs k) (outcome_map (fun _ => tt) r)).
  destruct (serialized_phases ser N 0 root vals (outs root) W w)
    as (Henter & Hstep1 & Henterv & _); try done.
  { intros k r. unfold W, w. by destruct (k =? root). }
  { intros k *. unfold W. by destruct (k =? root). }
  { intros k *. unfold W. by destruct (k =? root). }
  assert (forall k, 0 <= k < N ->
    prog {| rank := k; comm_size := N |}
    = W k (gather_impl_serialized_root ser {| rank := k; comm_size := N |}
             (vals k) 0 (if k =? root then outs root else None) root)) as Hprog.
  { intros k Hk. unfold prog, Gather.array_ptr, gather_array_ptr, W. cbn [rank].
    by destruct (Z.eqb_spec k root) as [->|]. }
  eexists. split; [|split; [|split]].
  - intros k Hk. rewrite Hprog by done.
    destruct (Henter k Hk) as (c & Hc & Hsb & Hsc & _).
    exists c. split; [done|]. split; [exact Hsb|exact Hsc].
  - unfold group. erewrite map_ext_seqZ; [exact Hstep1|]. intros k Hk.
    by apply Hprog.
  - intros k Hk.
    destruct (Henterv k Hk) as (c & Hc & Hsb & Hsc & _ & Hrc & Hds & Hrb).
    eexists. exists c. split; [by apply lookup_map_seqZ|]. split; [exact Hc|].
    split; [exact Hsb|]. split; [exact Hsc|].
    intros ->. rewrite Z.eqb_refl in Hrc, Hds, Hrb.
    rewrite Hsizes in Hrc. rewrite Hoffsets in Hds.
    rewrite Hsizes, sumZ_replicate_0 in Hrb.
    exact (conj Hrc (conj Hds Hrb)).
  - assert (forall src,
              received ser (vals root) 0 root
                (concat (map (fun k => encoded ser (take (Z.to_nat 0) (vals k)))
                           (seqZ 0 N)))
                (map (fun k =>
                        sumZ (take (Z.to_nat k)
                                (map (fun k =>
                                        size (encoded ser (take (Z.to_nat 0) (vals k))))
                                   (seqZ 0 N))))
                   (seqZ 0 N)) src = []) as Hrecv.
    { intros src. unfold received. destruct (src =? root); by rewrite ?take_0. }
    subst prog. cbv beta.
    rewrite (serialized_array_ptr_run ser N 0 root vals); try done.
    f_equal. apply map_ext_seqZ. intros k Hk.
    destruct (Z.eqb_spec k root) as [->|]; [|done]. rewrite Hout.
    rewrite (decode_phase_returns ser (vals root) 0 root _ _ mem N);
      try done; try lia.
    + cbn [outcome_map fst]. do 2 f_equal.
      rewrite Z.mul_0_l. change (Z.to_nat 0) with O. rewrite drop_0.
      rewrite (nil_length_inv (concat _)); [done|].
      rewrite (length_concat_blocks _ _ O); [lia|].
      intros src _. by rewrite Hrecv.
    + pose proof (size_nonneg (vals root)). lia.
    + rewrite size_map_seqZ; lia.
    + pose proof (size_nonneg mem). lia.
    + intros src _. by rewrite Hrecv.
Qed.

(** ** The size exchange *)

(** A group in which every rank [k] calls [gather] on the [int] [L k] with an
    empty vector: the vector of the root then holds the values of all ranks,
    in rank order. *)
Lemma size_exchange_run (N root : Z) (L : Z -> Z) (fuel : nat) :
  0 < N -> 0 <= root < N ->
  run_group (S fuel)
    (group N (fun comm => Gather.scalar_vec mpl_true comm (L (rank comm)) [] root))
  = Some (map (fun k => Returned (if k =? root then map L (seqZ 0 N) else []))
            (seqZ 0 N)).
Proof.
  intros HN Hroot. unfold group.
  set (zeros := replicate (Z.to_nat N) 0).
  set (call := fun k : Z =>
    {| g_sendbuf := [L k]; g_sendcount := 1;
       g_recvbuf := if k =? root then Some zeros else None;
       g_recvcount := 1; g_root := root;
       g_resume := fun status mem' =>
         Ret (E := Z)
           (if k =? root
            then through_data zeros (BOOST_MPI_CHECK_RESULT status mem')
            else outcome_map (fun _ => [])
                   (BOOST_MPI_CHECK_RESULT status tt)) |}).
  assert (forall k, 0 <= k < N ->
            pending_gather
              (Gather.scalar_vec mpl_true {| rank := k; comm_size := N |} (L k) [] root)
            = Some (call k)) as Hpending.
  { intros k Hk. change (Gather.scalar_vec (T := Z) mpl_true) with gather_int.
    unfold call. destruct (Z.eqb_spec k root) as [->|Hne].
    - rewrite size_exchange_root by (cbn; lia || done). done.
    - rewrite size_exchange_nonroot by done. done. }
  erewrite run_group_step; [|done| |].
  3:{ apply (step_group_gather N root 1 zeros _ call); try done; try lia.
      - cbn. by rewrite Z.eqb_refl.
      - unfold zeros. rewrite size_replicate_Z; lia. }
  2:{ by destruct (pending_gather_not_returned _ _ (Hpending 0 ltac:(lia))). }
  rewrite gather_deliver_blocks.
  - rewrite ?map_map, ?size_map_seqZ by lia.
    etrans; [|apply (run_group_returned (E := Z) fuel)]. f_equal.
    rewrite map_map. apply map_ext_seqZ. intros k Hk. cbn.
    destruct (k =? root); [|done]. cbn. do 2 f_equal.
    rewrite drop_ge by (unfold zeros; rewrite length_replicate; lia).
    rewrite app_nil_r. apply (concat_singletons L).
  - lia.
  - intros s Hs. apply list_elem_of_In, in_map_iff in Hs as (k & <- & Hk). done.
  - rewrite size_map_seqZ by lia. unfold zeros. rewrite size_replicate_Z; lia.
Qed.

(** C6: the size exchange of the serialized path is a call of the public
    [gather] (the overload that takes a [std::vector]) on the encoded length,
    an [int]: [gather_impl] is the encoding, that call, and the payload
    exchange.  The call takes the direct path, [gather_impl(..., mpl::true_)]
    with one [int], on the root and on the others; and in a group it leaves
    the size vector, the lengths of all ranks in rank order, on the root. *)
Theorem size_exchange_is_gather {T} (ser : serializer T) (comm : communicator)
    (in_values : list T) (n root L : Z) (out_values : buffer T) :
  gather_int = Gather.scalar_vec mpl_true /\
  (0 <= n <= size in_values ->
     gather_impl_serialized_root ser comm in_values n out_values root
     = coll_bind
         (Gather.scalar_vec mpl_true comm
            (Int.wrap (size (encoded ser (take (Z.to_nat n) in_values)))) [] root)
         (fun gathered =>
            within gathered out_values
              (payload_exchange ser comm in_values n out_values root
                 (encoded ser (take (Z.to_nat n) in_values))))) /\
  (rank comm = root -> 0 <= comm_size comm ->
     Gather.scalar_vec mpl_true comm L [] root
     = coll_map (through_data (replicate (Z.to_nat (comm_size comm)) 0))
         (gather_impl_direct_root comm [L] 1
            (Some (replicate (Z.to_nat (comm_size comm)) 0)) root)) /\
  (rank comm <> root ->
     Gather.scalar_vec mpl_true comm L [] root
     = coll_map (outcome_map (fun _ => []))
         (gather_impl_direct_nonroot comm [L] 1 root)) /\
  (forall (sizes : Z -> Z) (fuel : nat),
     0 <= root < comm_size comm ->
     run_group (S fuel)
       (group (comm_size comm) (fun c =>
          Gather.scalar_vec mpl_true c (sizes (rank c)) [] root))
     = Some (map (fun k =>
               Returned (if k =? root then map sizes (seqZ 0 (comm_size comm))
                         else []))
               (seqZ 0 (comm_size comm)))).
Proof.
  split; [done|]. split; [apply gather_impl_serialized_phases|].
  split; [|split].
  - intros Hr HN. change (Gather.scalar_vec (T := Z) mpl_true) with gather_int.
    by rewrite size_exchange_root.
  - intros Hr. change (Gather.scalar_vec (T := Z) mpl_true) with gather_int.
    by rewrite size_exchange_nonroot.
  - intros sizes fuel Hroot. apply size_exchange_run; lia.
Qed.

(** ** Every participant goes through every phase *)

(** C5: in a group on the serialized path every participant, root or not,
    encodes its values, enters the size exchange ([MPI_Gather]) with the
    length of its payload, and then enters the payload exchange
    ([MPI_Gatherv]) with its payload.  A participant that is not the root
    passes the offsets as they were created, all zero, receives into no
    buffer, decodes nothing and returns with its buffer untouched. *)
Theorem participants_symmetric {T} (ser : serializer T) (N n root : Z)
    (vals : Z -> list T) (outs : Z -> buffer T) :
  0 < N <= Int.max_int -> 0 <= root < N -> 0 <= n ->
  (forall k, 0 <= k < N -> n <= size (vals k)) ->
  sumZ (map (fun k => size (encoded ser (take (Z.to_nat n) (vals k)))) (seqZ 0 N))
    <= Int.max_int ->
  let prog := fun comm : communicator =>
    Gather.array_ptr (mpl_false ser) comm (vals (rank comm)) n
      (outs (rank comm)) root in
  let payload := fun k => encoded ser (take (Z.to_nat n) (vals k)) in
  exists after results,
    (forall k, 0 <= k < N ->
       encode_values ser (vals k) n = Returned (payload k) /\
       exists c, pending_gather (prog {| rank := k; comm_size := N |}) = Some c /\
         g_sendbuf c = [size (payload k)] /\ g_sendcount c = 1 /\
         g_root c = root) /\
    step_group (group N prog) = Some after /\
    (forall k, 0 <= k < N ->
       exists p c, after !! Z.to_nat k = Some p /\ pending_gatherv p = Some c /\
         gv_sendbuf c = payload k /\ gv_sendcount c = size (payload k) /\
         gv_root c = root /\
         (k <> root ->
            gv_recvbuf c = [] /\ gv_recvcounts c = [] /\
            gv_displs c = replicate (Z.to_nat N) 0)) /\
    step_group after = Some (map Ret results) /\
    (forall k, 0 <= k < N -> k <> root ->
       results !! Z.to_nat k = Some (Returned (outs k))).
Proof.
  intros HN Hroot Hn Hvals Hsum prog payload.
  set (W := fun (k : Z) (p : coll Z (outcome (buffer T))) =>
    if k =? root then p
    else coll_map (outcome_map (fun _ => outs k))
           (coll_map (outcome_map (fun _ => tt)) p)).
  set (w := fun (k : Z) (r : outcome (buffer T)) =>
    if k =? root then r
    else outcome_map (fun _ => outs k) (outcome_map (fun _ => tt) r)).
  destruct (serialized_phases ser N n root vals (outs root) W w)
    as (Henter & Hstep1 & Henterv & Hstep2); try done.
  { intros k r. unfold W, w. by destruct (k =? root). }
  { intros k *. unfold W. by destruct (k =? root). }
  { intros k *. unfold W. by destruct (k =? root). }
  assert (forall k, 0 <= k < N ->
    prog {| rank := k; comm_size := N |}
    = W k (gather_impl_serialized_root ser {| rank := k; comm_size := N |}
             (vals k) n (if k =? root then outs root else None) root)) as Hprog.
  { intros k Hk. unfold prog, Gather.array_ptr, gather_array_ptr, W. cbn [rank].
    by destruct (Z.eqb_spec k root) as [->|]. }
  eexists. eexists. split; [|split; [|split; [|split]]].
  - intros k Hk. split.
    + apply encode_values_encoded. split; [done|by apply Hvals].
    + rewrite Hprog by done. by apply Henter.
  - unfold group. erewrite map_ext_seqZ; [exact Hstep1|]. intros k Hk.
    by apply Hprog.
  - intros k Hk. destruct (Henterv k Hk) as (c & Hc & Hsb & Hsc & Hrt & Hrc & Hds & Hrb).
    eexists. exists c. split; [by apply lookup_map_seqZ|].
    split; [exact Hc|]. split; [done|]. split; [done|]. split; [done|].
    intros Hne. apply Z.eqb_neq in Hne. rewrite Hne in Hrb, Hrc, Hds.
    exact (conj Hrb (conj Hrc Hds)).
  - etrans; [exact Hstep2|]. f_equal. symmetry. apply map_map.
  - intros k Hk Hne. rewrite lookup_map_seqZ by done. unfold w.
    by destruct (Z.eqb_spec k root).
Qed.

(** ** The theorems at concrete groups *)

Lemma root_contribution_copied_witness :
  exists assembled,
    Some [1; 0; 2; 5; 3; 1]%nat = Some assembled /\
    slice assembled (1 * 2) 2 = take (Z.to_nat 2) [2; 5]%nat /\
    read_events unary 2 1 (encoded unary [1; 0; 2; 5; 3; 1]%nat) [0; 3; 12] 1 = [] /\
    [ {| ev_src := 0; ev_position := 0 |}; {| ev_src := 0; ev_position := 2 |};
      {| ev_src := 2; ev_position := 12 |}; {| ev_src := 2; ev_position := 16 |} ]
    = concat (map (read_events unary 2 1
                     (encoded unary [1; 0; 2; 5; 3; 1]%nat) [0; 3; 12])
                (seqZ 0 3)) /\
    forall src, 0 <= src < 3 -> src <> 1 ->
      exists offset,
        vec_get [0; 3; 12] src = Some offset /\
        length (read_prefix unary (encoded unary [1; 0; 2; 5; 3; 1]%nat) offset
                  (Z.to_nat 2)) = Z.to_nat 2 /\
        slice assembled (src * 2) 2
        = read_prefix unary (encoded unary [1; 0; 2; 5; 3; 1]%nat) offset
            (Z.to_nat 2) /\
        map ev_src (read_events unary 2 1
                      (encoded unary [1; 0; 2; 5; 3; 1]%nat) [0; 3; 12] src)
        = replicate (Z.to_nat 2) src /\
        (0 < 2 ->
         head (read_events unary 2 1
                 (encoded unary [1; 0; 2; 5; 3; 1]%nat) [0; 3; 12] src)
         = Some {| ev_src := src; ev_position := offset |}).
Proof.
  apply (root_contribution_copied unary {| rank := 1; comm_size := 3 |}
           [2; 5]%nat 2 1 (replicate 6 O)
           (encoded unary [1; 0; 2; 5; 3; 1]%nat) [0; 3; 12]).
  - vm_compute. split; discriminate.
  - simpl. lia.
  - vm_compute. discriminate.
  - vm_compute. discriminate.
  - vm_compute. discriminate.
  - reflexivity.
Defined.

Lemma gather_zero_values_witness :
  (forall tag : mpi_tag nat,
     Gather.array_vec tag {| rank := 2; comm_size := 3 |} (scenario_vals 2) 0
       [4; 4]%nat 2
     = Ret (Crashed OutOfBounds)) /\
  run_group 2
    (group 3 (fun comm =>
       Gather.array_ptr (mpl_false unary) comm (scenario_vals (rank comm)) 0
         (scenario_outs (rank comm)) 2))
  = Some (map (fun k => Returned (scenario_outs k)) (seqZ 0 3)).
Proof.
  destruct (gather_zero_values unary 3 2 scenario_vals scenario_outs
              [9; 9; 9]%nat [4; 4]%nat 0)
    as (Hroot & after & _ & _ & _ & Hrun).
  - unfold Int.max_int. lia.
  - lia.
  - reflexivity.
  - split; [exact Hroot|exact Hrun].
Defined.

Lemma participants_symmetric_witness :
  exists after results,
    step_group
      (group 3 (fun comm =>
         Gather.array_ptr (mpl_false unary) comm (scenario_vals (rank comm)) 1
           (scenario_outs (rank comm)) 2))
    = Some after /\
    step_group after = Some (map Ret results) /\
    results !! Z.to_nat 0 = Some (Returned (scenario_outs 0)).
Proof.
  destruct (participants_symmetric unary 3 1 2 scenario_vals scenario_outs)
    as (after & results & _ & Hstep1 & _ & Hstep2 & Hother).
  - unfold Int.max_int. lia.
  - lia.
  - lia.
  - intros k Hk.
    assert (k = 0 \/ k = 1 \/ k = 2) as [->|[->| ->]] by lia;
      vm_compute; discriminate.
  - vm_compute. discriminate.
  - exists after, results. split; [done|]. split; [done|].
    apply Hother; lia.
Defined.

Lemma size_exchange_is_gather_witness :
  gather_impl_serialized_root unary {| rank := 0; comm_size := 2 |} [3]%nat 1 None 0
  = coll_bind
      (Gather.scalar_vec mpl_true {| rank := 0; comm_size := 2 |}
         (Int.wrap (size (encoded unary (take (Z.to_nat 1) [3]%nat)))) [] 0)
      (fun gathered =>
         within gathered None
           (payload_exchange unary {| rank := 0; comm_size := 2 |} [3]%nat 1 None 0
              (encoded unary (take (Z.to_nat 1) [3]%nat)))) /\
  run_group 1
    (group 2 (fun c => Gather.scalar_vec mpl_true c (5 + rank c) [] 0))
  = Some (map (fun k => Returned (if k =? 0 then map (fun k => 5 + k) (seqZ 0 2)
                                  else []))
            (seqZ 0 2)).
Proof.
  destruct (size_exchange_is_gather unary {| rank := 0; comm_size := 2 |}
              [3]%nat 1 0 0 None) as (_ & Hphases & _ & _ & Hrun).
  split.
  - apply Hphases. vm_compute. split; discriminate.
  - apply (Hrun (fun k => 5 + k) O). simpl. lia.
Defined.

Lemma decode_failure_propagates_witness :
  exists results assembled,
    run_group 2
      (group 3 (fun comm =>
         Gather.array_ptr (mpl_false flawed) comm (scenario_vals (rank comm)) 1
           (scenario_outs (rank comm)) 2))
    = Some results /\
    results !! Z.to_nat 2 = Some (Threw DecodeError (Some assembled)) /\
    results !! Z.to_nat 0 = Some (Returned (scenario_outs 0)) /\
    slice assembled (0 * 1) 1 = [1%nat] /\
    slice assembled (2 * 1) 1 = [9%nat].
Proof.
  destruct (decode_failure_propagates flawed 3 1 2 scenario_vals scenario_outs
              [9; 9; 9]%nat 1 0)
    as (results & assembled & Hrun & Hroot & Hother & _ & _ & Hlow & _ & Hhigh).
  - unfold Int.max_int. lia.
  - lia.
  - lia.
  - intros k Hk.
    assert (k = 0 \/ k = 1 \/ k = 2) as [->|[->| ->]] by lia;
      vm_compute; discriminate.
  - vm_compute. discriminate.
  - reflexivity.
  - vm_compute. discriminate.
  - vm_compute. discriminate.
  - lia.
  - intros src Hsrc. assert (src = 0) as -> by lia. reflexivity.
  - vm_compute. discriminate.
  - exists results, assembled. split; [done|]. split; [done|].
    split; [apply Hother; lia|]. split.
    + rewrite Hlow by lia. reflexivity.
    + rewrite Hhigh by lia. reflexivity.
Defined.

(** * Further properties of the code *)

(** ** [detail::sizes2offset] and [std::accumulate] *)

Lemma accumulate_snoc (l : list Z) (x : Z) :
  accumulate (l ++ [x]) = Int.add (accumulate l) x.
Proof. unfold accumulate. by rewrite foldl_app. Qed.

Lemma recurrence_accumulate sizes offs :
  offsets_recurrence Int.add sizes offs ->
  forall k, (k < length sizes)%nat -> offs !! k = Some (accumulate (take k sizes)).
Proof.
  intros (Hlen & H0 & Hstep) k. induction k as [|k IH]; intros Hk.
  - by rewrite take_0.
  - destruct (Hstep k Hk) as (o & s & Ho & Hs & HS).
    rewrite IH in Ho by lia. injection Ho as <-.
    by rewrite HS, (take_S_r _ _ s Hs), accumulate_snoc.
Qed.

(** The offsets in closed form: the offset of sender [k] is the [int] sum
    of the sizes of the senders before it. *)
Lemma sizes2offset_closed_form sizes offsets :
  sizes <> [] -> length offsets = length sizes -> size sizes <= Int.max_int ->
  sizes2offset sizes offsets
  = Returned (map (fun k => accumulate (take k sizes)) (seq 0 (length sizes))).
Proof.
  intros Hne Hlen Hmax.
  destruct (sizes2offset_returns sizes offsets Hne Hlen Hmax) as (offs & -> & Hrec).
  f_equal. apply list_eq. intros i. rewrite lookup_map.
  destruct (decide (i < length sizes)%nat) as [Hi|Hi].
  - rewrite (recurrence_accumulate sizes offs Hrec i Hi).
    by rewrite lookup_seq_lt.
  - destruct Hrec as (Hl & _).
    rewrite lookup_ge_None_2 by lia.
    by rewrite lookup_seq_ge by lia.
Qed.

(** X1: for a non-empty vector of sizes, whatever their values, the offset
    that [sizes2offset] stores for sender [k] is what [std::accumulate]
    yields on the sizes of the senders before [k]; and the last offset plus
    the last size is [std::accumulate] of all the sizes, the length with
    which [gather_impl] allocates the receive buffer. *)
Theorem sizes2offset_accumulate (sizes offsets : list Z) :
  sizes <> [] -> length offsets = length sizes -> size sizes <= Int.max_int ->
  exists offs,
    sizes2offset sizes offsets = Returned offs /\
    length offs = length sizes /\
    (forall k, (k < length sizes)%nat ->
       offs !! k = Some (accumulate (take k sizes))) /\
    (forall o s, last offs = Some o -> last sizes = Some s ->
       Int.add o s = accumulate sizes).
Proof.
  intros Hne Hlen Hmax.
  destruct (sizes2offset_returns sizes offsets Hne Hlen Hmax) as (offs & Hrun & Hrec).
  pose proof (recurrence_accumulate sizes offs Hrec) as Hoffs.
  exists offs. split; [done|]. destruct Hrec as (Hl & _). split; [done|].
  split; [done|]. intros o s Ho Hs.
  rewrite last_lookup in Ho, Hs. rewrite Hl in Ho.
  assert (pred (length sizes) < length sizes)%nat as Hlt
    by (destruct sizes; [done|simpl; lia]).
  rewrite Hoffs in Ho by done. injection Ho as <-.
  rewrite <- accumulate_snoc, <- (take_S_r _ _ s Hs).
  f_equal. apply take_ge. lia.
Qed.

Lemma sizes2offset_accumulate_witness :
  exists offs,
    sizes2offset [7; -2; 4] [9; 9; 9] = Returned offs /\
    offs !! 2%nat = Some (accumulate [7; -2]) /\
    Int.add 5 4 = accumulate [7; -2; 4].
Proof.
  destruct (sizes2offset_accumulate [7; -2; 4] [9; 9; 9])
    as (offs & Hrun & _ & Hoffs & Hlast).
  - done.
  - reflexivity.
  - vm_compute. discriminate.
  - exists offs. split; [done|]. split; [apply (Hoffs 2%nat); simpl; lia|].
    apply Hlast; [|reflexivity].
    rewrite last_lookup.
    vm_compute in Hrun. injection Hrun as <-. reflexivity.
Defined.

(** X2: [sizes2offset] reads neither the size of the last sender nor what
    the vector of offsets held before the call: two calls that differ only in
    these return the same offsets. *)
Theorem sizes2offset_last_size_unread (front : list Z) (a b : Z)
    (offsets offsets' : list Z) :
  length offsets = S (length front) -> length offsets' = S (length front) ->
  size front < Int.max_int ->
  exists offs,
    sizes2offset (front ++ [a]) offsets = Returned offs /\
    sizes2offset (front ++ [b]) offsets' = Returned offs.
Proof.
  intros Hlen Hlen' Hmax.
  assert (forall x, size (front ++ [x]) <= Int.max_int) as Hsize
    by (intros x; unfold size in *; rewrite length_app; simpl; lia).
  assert (forall x, length (front ++ [x]) = S (length front)) as Hl
    by (intros x; rewrite length_app; simpl; lia).
  eexists. split.
  - apply sizes2offset_closed_form; [by destruct front|by rewrite Hl|done].
  - rewrite sizes2offset_closed_form; [|by destruct front|by rewrite Hl|done].
    f_equal. rewrite !Hl. apply map_ext_elem. intros k Hk.
    apply elem_of_seq in Hk. by rewrite !take_app_le by lia.
Qed.

Lemma sizes2offset_last_size_unread_witness :
  exists offs,
    sizes2offset ([3; 4] ++ [5]) [0; 0; 0] = Returned offs /\
    sizes2offset ([3; 4] ++ [-8]) [6; 6; 6] = Returned offs.
Proof.
  apply (sizes2offset_last_size_unread [3; 4] 5 (-8) [0; 0; 0] [6; 6; 6]).
  - reflexivity.
  - reflexivity.
  - vm_compute. reflexivity.
Defined.

(** X3: for non-negative sizes whose sum is an [int], the receive buffer
    that [gather_impl] allocates with [std::accumulate] of the sizes holds
    every segment: each offset is non-negative, the offsets do not decrease
    with the rank, and the segment of every sender ends within the buffer. *)
Theorem sizes2offset_segments_fit (sizes offsets : list Z) :
  sizes <> [] -> length offsets = length sizes -> size sizes <= Int.max_int ->
  Forall (fun s => 0 <= s) sizes -> sumZ sizes <= Int.max_int ->
  exists offs recv_buffer,
    sizes2offset sizes offsets = Returned offs /\
    vec_new x00 (accumulate sizes) = Returned recv_buffer /\
    size recv_buffer = sumZ sizes /\
    forall k o s, offs !! k = Some o -> sizes !! k = Some s ->
      0 <= o /\ o + s <= size recv_buffer /\
      forall j o', (j <= k)%nat -> offs !! j = Some o' -> o' <= o.
Proof.
  intros Hne Hlen Hmax Hnn Hsum.
  destruct (sizes2offset_returns sizes offsets Hne Hlen Hmax) as (offs & Hrun & Hrec).
  pose proof (recurrence_prefix_sums sizes offs Hnn Hsum Hrec) as Hoffs.
  pose proof (sumZ_nonneg sizes Hnn) as Hpos.
  exists offs, (replicate (Z.to_nat (sumZ sizes)) x00).
  split; [done|]. split; [|split].
  - unfold vec_new. rewrite accumulate_sumZ by done.
    by destruct (Z.ltb_spec (sumZ sizes) 0); [lia|].
  - by apply size_replicate_Z.
  - intros k o s Ho Hs. rewrite size_replicate_Z by done.
    assert (k < length sizes)%nat as Hk by (by eapply lookup_lt_Some).
    rewrite Hoffs in Ho by done. injection Ho as <-.
    split; [by apply sumZ_take_le|]. split.
    + rewrite <- (sumZ_take_S _ _ _ Hs). by apply sumZ_take_le.
    + intros j o' Hj Ho'. rewrite Hoffs in Ho' by lia. injection Ho' as <-.
      by apply sumZ_take_mono.
Qed.

Lemma sizes2offset_segments_fit_witness :
  exists offs recv_buffer,
    sizes2offset [2; 0; 3] [0; 0; 0] = Returned offs /\
    vec_new x00 (accumulate [2; 0; 3]) = Returned recv_buffer /\
    size recv_buffer = sumZ [2; 0; 3] /\
    forall k o s, offs !! k = Some o -> [2; 0; 3] !! k = Some s ->
      0 <= o /\ o + s <= size recv_buffer /\
      forall j o', (j <= k)%nat -> offs !! j = Some o' -> o' <= o.
Proof.
  apply (sizes2offset_segments_fit [2; 0; 3] [0; 0; 0]).
  - done.
  - reflexivity.
  - vm_compute. discriminate.
  - repeat constructor; lia.
  - vm_compute. discriminate.
Defined.

(** ** The group runs of the public overloads, in closed form *)

(** [gather(comm, in_values, n, T* out_values, root)] called by every rank,
    on either path. *)
Lemma array_ptr_run {T} (tag : mpi_tag T) (N n root : Z)
    (vals : Z -> list T) (outs : Z -> buffer T) (mem : list T) (fuel : nat) :
  0 < N -> 0 <= root < N -> 0 <= n ->
  (forall k, 0 <= k < N -> size (vals k) = n) ->
  outs root = Some mem -> N * n <= size mem ->
  transmissible tag N n vals ->
  run_group (S (S fuel))
    (group N (fun comm =>
       Gather.array_ptr tag comm (vals (rank comm)) n (outs (rank comm)) root))
  = Some (map (fun k => Returned (if k =? root
            then Some (concat (map vals (seqZ 0 N)) ++ drop (Z.to_nat (N * n)) mem)
            else outs k)) (seqZ 0 N)).
Proof.
  intros HN Hroot Hn Hvals Hout Hroom Htag.
  assert (forall k, 0 <= k < N -> n <= size (vals k)) as Hvals'
    by (intros k Hk; specialize (Hvals k Hk); lia).
  destruct tag as [|ser].
  - rewrite (direct_run N n root vals outs mem) by (done || lia).
    f_equal. apply map_ext_seqZ. intros k Hk.
    destruct (k =? root); [|done]. do 4 f_equal.
    apply map_ext_seqZ. intros j Hj. apply take_all_Z. by apply Hvals.
  - destruct Htag as (Hser & HNint & Hint & Hsum).
    rewrite (serialized_array_ptr_run ser N n root vals) by done.
    f_equal. apply map_ext_seqZ. intros k Hk.
    destruct (k =? root); [|done]. rewrite Hout.
    destruct (decode_phase_roundtrip ser N n root vals mem) as (trace & ->);
      try done; lia.
Qed.

Section DirectVecRun.
Context {T : Type} `{DefaultConstructible T}.
Variables (N n root : Z) (vals : Z -> list T) (outs : Z -> list T).
Hypothesis HN : 0 < N.
Hypothesis Hroot : 0 <= root < N.
Hypothesis Hn : 0 < n.
Hypothesis Hvals : forall k, 0 <= k < N -> n <= size (vals k).
Hypothesis Hint : N * n <= Int.max_int.

(** [gather(comm, in_values, n, std::vector<T>& out_values, root)] called by
    every rank, on the direct path. *)
Lemma direct_array_vec_run (fuel : nat) :
  run_group (S fuel)
    (group N (fun comm =>
       Gather.array_vec mpl_true comm (vals (rank comm)) n (outs (rank comm)) root))
  = Some (map (fun k => Returned (if k =? root
            then concat (map (fun k => take (Z.to_nat n) (vals k)) (seqZ 0 N))
            else outs k)) (seqZ 0 N)).
Proof.
  unfold group.
  set (resized := resize (Z.to_nat (N * n)) value_init (outs root)).
  assert (size resized = N * n) as Hsize by (apply length_resize_Z; nia).
  set (call := fun k : Z =>
    {| g_sendbuf := vals k; g_sendcount := n;
       g_recvbuf := if k =? root then Some resized else None;
       g_recvcount := n; g_root := root;
       g_resume := fun status mem' =>
         Ret (E := T)
           (if k =? root
            then through_data resized (BOOST_MPI_CHECK_RESULT status mem')
            else outcome_map (fun _ => outs k)
                   (BOOST_MPI_CHECK_RESULT status tt)) |}).
  assert (forall k, 0 <= k < N ->
            pending_gather
              (Gather.array_vec mpl_true {| rank := k; comm_size := N |}
                 (vals k) n (outs k) root)
            = Some (call k)) as Hpending.
  { intros k Hk.
    unfold Gather.array_vec, gather_array_vec, gather_array_ptr,
      gather_array_nonroot, BOOST_ASSERT, call. cbn [rank comm_size].
    destruct (Z.eqb_spec k root) as [->|Hne]; [|done].
    unfold vec_resize, Int.mul. rewrite wrap_small by nia.
    destruct (Z.ltb_spec (N * n) 0); [nia|]. cbn [within].
    by rewrite address_of_first_nonempty by (fold resized; nia). }
  erewrite run_group_step; [|done| |].
  3:{ apply (step_group_gather N root n resized _ call); try done; try lia.
      - intros k Hk. cbn. split; [done|]. split; [done|]. by apply Hvals.
      - cbn. by rewrite Z.eqb_refl. }
  2:{ by destruct (pending_gather_not_returned _ _ (Hpending 0 ltac:(lia))). }
  rewrite gather_deliver_blocks.
  - rewrite ?map_map, ?size_map_seqZ by lia.
    etrans; [|apply (run_group_returned (E := T) fuel)]. f_equal.
    rewrite map_map. apply map_ext_seqZ. intros k Hk. cbn.
    destruct (k =? root); [|done]. cbn. do 2 f_equal.
    rewrite drop_ge by (unfold size in Hsize; lia).
    by rewrite app_nil_r.
  - lia.
  - intros s Hs. apply list_elem_of_In, in_map_iff in Hs as (k & <- & Hk).
    apply list_elem_of_In, elem_of_seqZ in Hk. cbn. apply Hvals. lia.
  - rewrite size_map_seqZ by lia. lia.
Qed.

End DirectVecRun.

(** [gather(comm, in_values, n, std::vector<T>& out_values, root)] called by
    every rank, on either path. *)
Lemma array_vec_run {T} `{DefaultConstructible T} (tag : mpi_tag T)
    (N n root : Z) (vals : Z -> list T) (outs : Z -> list T) (fuel : nat) :
  0 < N <= Int.max_int -> 0 <= root < N -> 0 < n ->
  (forall k, 0 <= k < N -> size (vals k) = n) ->
  N * n <= Int.max_int ->
  transmissible tag N n vals ->
  run_group (S (S fuel))
    (group N (fun comm =>
       Gather.array_vec tag comm (vals (rank comm)) n (outs (rank comm)) root))
  = Some (map (fun k => Returned (if k =? root then concat (map vals (seqZ 0 N))
                                  else outs k)) (seqZ 0 N)).
Proof.
  intros HN Hroot Hn Hvals Hint Htag.
  assert (forall k, 0 <= k < N -> n <= size (vals k)) as Hvals'
    by (intros k Hk; specialize (Hvals k Hk); lia).
  destruct tag as [|ser].
  - rewrite (direct_array_vec_run N n root vals outs) by (done || lia).
    f_equal. apply map_ext_seqZ. intros k Hk.
    destruct (k =? root); [|done]. do 2 f_equal.
    apply map_ext_seqZ. intros j Hj. apply take_all_Z. by apply Hvals.
  - destruct Htag as (Hser & _ & _ & Hsum).
    rewrite (serialized_array_vec_run ser N n root vals) by (done || lia).
    f_equal. apply map_ext_seqZ. intros k Hk.
    destruct (k =? root); [|done].
    set (resized := resize (Z.to_nat (N * n)) value_init (outs root)).
    assert (size resized = N * n) as Hsize by (apply length_resize_Z; nia).
    destruct (decode_phase_roundtrip ser N n root vals resized) as (trace & ->);
      try done; try lia.
    cbn. f_equal.
    rewrite drop_ge by (unfold size in Hsize; lia).
    by rewrite app_nil_r.
Qed.

(** The scalar overload that takes a [std::vector] is the array overload on
    an array of one value. *)
Lemma scalar_vec_array_vec {T} `{DefaultConstructible T} (tag : mpi_tag T)
    (comm : communicator) (in_value : T) (out_values : list T) (root : Z) :
  0 < comm_size comm <= Int.max_int ->
  Gather.scalar_vec tag comm in_value out_values root
  = Gather.array_vec tag comm [in_value] 1 out_values root.
Proof.
  intros HN.
  unfold Gather.scalar_vec, Gather.array_vec, gather_scalar_vec, gather_array_vec.
  unfold Int.mul. rewrite Z.mul_1_r, wrap_small by lia.
  destruct (rank comm =? root); [|done].
  unfold vec_resize. destruct (Z.ltb_spec (comm_size comm) 0); [lia|].
  cbn [within]. rewrite address_of_first_nonempty; [done|].
  rewrite length_resize_Z; lia.
Qed.

(** X4: when every rank [k] of a group calls
    [gather(comm, in_value, out_values, root)] with its value [v k], on
    either path, the buffer of the root holds [v k] at index [k] for every
    rank, its elements from index [N] on are as they were, and the buffers
    of the other ranks are as they were. *)
Theorem gather_scalar_in_rank_order {T} (tag : mpi_tag T) (N root : Z)
    (v : Z -> T) (outs : Z -> buffer T) (mem : list T) (fuel : nat) :
  0 < N -> 0 <= root < N ->
  outs root = Some mem -> N <= size mem ->
  transmissible tag N 1 (fun k => [v k]) ->
  run_group (S (S fuel))
    (group N (fun comm =>
       Gather.scalar_ptr tag comm (v (rank comm)) (outs (rank comm)) root))
  = Some (map (fun k => Returned (if k =? root
            then Some (map v (seqZ 0 N) ++ drop (Z.to_nat N) mem)
            else outs k)) (seqZ 0 N)).
Proof.
  intros HN Hroot Hout Hroom Htag.
  pose proof (array_ptr_run tag N 1 root (fun k => [v k]) outs mem fuel) as Hrun.
  rewrite concat_singletons, Z.mul_1_r in Hrun.
  apply Hrun; done || lia.
Qed.

Lemma gather_scalar_in_rank_order_witness :
  run_group 2
    (group 3 (fun comm =>
       Gather.scalar_ptr (mpl_false unary) comm (Z.to_nat (rank comm + 4))
         (if rank comm =? 2 then Some [9; 9; 9; 9]%nat else None) 2))
  = Some (map (fun k => Returned (if k =? 2
            then Some (map (fun k => Z.to_nat (k + 4)) (seqZ 0 3)
                         ++ drop (Z.to_nat 3) [9; 9; 9; 9]%nat)
            else if k =? 2 then Some [9; 9; 9; 9]%nat else None)) (seqZ 0 3)).
Proof.
  apply (gather_scalar_in_rank_order (mpl_false unary) 3 2
           (fun k => Z.to_nat (k + 4))
           (fun k => if k =? 2 then Some [9; 9; 9; 9]%nat else None)
           [9; 9; 9; 9]%nat 0).
  - lia.
  - lia.
  - reflexivity.
  - vm_compute. discriminate.
  - split; [apply unary_roundtrip|].
    repeat split; vm_compute; discriminate.
Defined.

(** X5: when every rank [k] of a group calls
    [gather(comm, in_value, std::vector<T>& out_values, root)] with its
    value [v k], on either path, the vector of the root becomes exactly the
    values of the ranks [0 .. N-1] in rank order, whatever it held and
    however long it was, and the vectors of the other ranks are as they
    were. *)
Theorem gather_scalar_into_vector {T} `{DefaultConstructible T}
    (tag : mpi_tag T) (N root : Z) (v : Z -> T) (outs : Z -> list T)
    (fuel : nat) :
  0 < N <= Int.max_int -> 0 <= root < N ->
  transmissible tag N 1 (fun k => [v k]) ->
  run_group (S (S fuel))
    (group N (fun comm =>
       Gather.scalar_vec tag comm (v (rank comm)) (outs (rank comm)) root))
  = Some (map (fun k => Returned (if k =? root then map v (seqZ 0 N) else outs k))
            (seqZ 0 N)).
Proof.
  intros HN Hroot Htag.
  pose proof (array_vec_run tag N 1 root (fun k => [v k]) outs fuel) as Hrun.
  rewrite concat_singletons in Hrun.
  rewrite <- Hrun by (done || lia).
  f_equal. unfold group. apply map_ext_seqZ. intros k Hk.
  apply scalar_vec_array_vec. cbn.
  unfold Int.in_range, Int.min_int. lia.
Qed.

Lemma gather_scalar_into_vector_witness :
  run_group 2
    (group 3 (fun comm =>
       Gather.scalar_vec (mpl_false unary) comm (Z.to_nat (rank comm + 4))
         (if rank comm =? 0 then [8; 8; 8; 8; 8]%nat else [6]%nat) 0))
  = Some (map (fun k => Returned (if k =? 0
            then map (fun k => Z.to_nat (k + 4)) (seqZ 0 3)
            else if k =? 0 then [8; 8; 8; 8; 8]%nat else [6]%nat)) (seqZ 0 3)).
Proof.
  apply (gather_scalar_into_vector (mpl_false unary) 3 0
           (fun k => Z.to_nat (k + 4))
           (fun k => if k =? 0 then [8; 8; 8; 8; 8]%nat else [6]%nat) 0).
  - vm_compute. split; [reflexivity|discriminate].
  - lia.
  - split; [apply unary_roundtrip|].
    repeat split; vm_compute; discriminate.
Defined.

(** X6: when every rank [k] of a group calls
    [gather(comm, in_values, n, std::vector<T>& out_values, root)] with its
    [n] values, [n] at least one, on either path, the vector of the root
    becomes exactly the concatenation of the values of the ranks in rank
    order, [N * n] elements whatever it held and however long it was, and
    the vectors of the other ranks are as they were. *)
Theorem gather_array_into_vector {T} `{DefaultConstructible T}
    (tag : mpi_tag T) (N n root : Z) (vals : Z -> list T) (outs : Z -> list T)
    (fuel : nat) :
  0 < N <= Int.max_int -> 0 <= root < N -> 0 < n ->
  (forall k, 0 <= k < N -> size (vals k) = n) ->
  N * n <= Int.max_int ->
  transmissible tag N n vals ->
  run_group (S (S fuel))
    (group N (fun comm =>
       Gather.array_vec tag comm (vals (rank comm)) n (outs (rank comm)) root))
  = Some (map (fun k => Returned (if k =? root then concat (map vals (seqZ 0 N))
                                  else outs k)) (seqZ 0 N)) /\
  size (concat (map vals (seqZ 0 N))) = N * n.
Proof.
  intros HN Hroot Hn Hvals Hint Htag.
  split; [by apply array_vec_run|].
  unfold size. rewrite (length_concat_blocks _ _ (Z.to_nat n)).
  - rewrite length_seqZ. nia.
  - intros k Hk. apply elem_of_seqZ in Hk.
    specialize (Hvals k ltac:(lia)). unfold size in Hvals. lia.
Qed.

Lemma gather_array_into_vector_witness :
  run_group 2
    (group 2 (fun comm =>
       Gather.array_vec (mpl_false unary) comm
         (nth (Z.to_nat (rank comm)) [[1; 0]; [2; 5]]%nat []) 2
         (if rank comm =? 1 then [8]%nat else [6; 6; 6; 6; 6; 6]%nat) 1))
  = Some (map (fun k => Returned (if k =? 1
            then concat (map (fun k => nth (Z.to_nat k) [[1; 0]; [2; 5]]%nat [])
                           (seqZ 0 2))
            else if k =? 1 then [8]%nat else [6; 6; 6; 6; 6; 6]%nat))
            (seqZ 0 2)) /\
  size (concat (map (fun k => nth (Z.to_nat k) [[1; 0]; [2; 5]]%nat [])
                  (seqZ 0 2))) = 2 * 2.
Proof.
  apply (gather_array_into_vector (mpl_false unary) 2 2 1
           (fun k => nth (Z.to_nat k) [[1; 0]; [2; 5]]%nat [])
           (fun k => if k =? 1 then [8]%nat else [6; 6; 6; 6; 6; 6]%nat) 0).
  - vm_compute. split; [reflexivity|discriminate].
  - lia.
  - lia.
  - intros k Hk. assert (k = 0 \/ k = 1) as [->| ->] by lia; reflexivity.
  - vm_compute. discriminate.
  - split; [apply unary_roundtrip|].
    repeat split; vm_compute; discriminate.
Defined.

(** X7: a completed [gather(comm, in_values, n, T* out_values, root)], on
    either path, writes only the first [N * n] elements of the buffer of the
    root: the buffer keeps its length and every element from index [N * n]
    on is as it was. *)
Theorem gather_writes_only_its_slots {T} (tag : mpi_tag T) (N n root : Z)
    (vals : Z -> list T) (outs : Z -> buffer T) (mem : list T) (fuel : nat) :
  0 < N -> 0 <= root < N -> 0 <= n ->
  (forall k, 0 <= k < N -> size (vals k) = n) ->
  outs root = Some mem -> N * n <= size mem ->
  transmissible tag N n vals ->
  exists results assembled,
    run_group (S (S fuel))
      (group N (fun comm =>
         Gather.array_ptr tag comm (vals (rank comm)) n (outs (rank comm)) root))
    = Some results /\
    results !! Z.to_nat root = Some (Returned (Some assembled)) /\
    size assembled = size mem /\
    forall i, N * n <= i -> vec_get assembled i = vec_get mem i.
Proof.
  intros HN Hroot Hn Hvals Hout Hroom Htag.
  assert (length (concat (map vals (seqZ 0 N))) = Z.to_nat (N * n)) as Hlen.
  { rewrite (length_concat_blocks _ _ (Z.to_nat n)).
    - rewrite length_seqZ. nia.
    - intros k Hk. apply elem_of_seqZ in Hk.
      specialize (Hvals k ltac:(lia)). unfold size in Hvals. lia. }
  eexists _, _. split; [by apply array_ptr_run|].
  split; [|split].
  - rewrite lookup_map_seqZ by done. by rewrite Z.eqb_refl.
  - unfold size in *. rewrite length_app, length_drop, Hlen. nia.
  - intros i Hi. unfold vec_get.
    destruct (Z.leb_spec 0 i); [|done].
    rewrite lookup_app_r by lia. rewrite lookup_drop, Hlen.
    f_equal. lia.
Qed.

Lemma gather_writes_only_its_slots_witness :
  exists results assembled,
    run_group 2
      (group 2 (fun comm =>
         Gather.array_ptr (@mpl_true Z) comm [10 * rank comm; 10 * rank comm + 1] 2
           (if rank comm =? 0 then Some [7; 7; 7; 7; 7; 7] else None) 0))
    = Some results /\
    results !! Z.to_nat 0 = Some (Returned (Some assembled)) /\
    size assembled = size [7; 7; 7; 7; 7; 7] /\
    vec_get assembled 5 = vec_get [7; 7; 7; 7; 7; 7] 5.
Proof.
  destruct (gather_writes_only_its_slots (@mpl_true Z) 2 2 0
              (fun k => [10 * k; 10 * k + 1])
              (fun k => if k =? 0 then Some [7; 7; 7; 7; 7; 7] else None)
              [7; 7; 7; 7; 7; 7] 0)
    as (results & assembled & Hrun & Hroot & Hsize & Hframe).
  - lia.
  - lia.
  - lia.
  - intros k Hk. reflexivity.
  - reflexivity.
  - vm_compute. discriminate.
  - exact I.
  - exists results, assembled. split; [done|]. split; [done|].
    split; [done|]. apply Hframe. lia.
Defined.

(** X8: the two paths agree.  With a serialization whose reads undo its
    writes, a group that gathers through the serialized [gather_impl] ends
    with the same outcome on every rank as the same group gathering the same
    values through the direct [gather_impl]. *)
Theorem serialized_agrees_with_direct {T} (ser : serializer T) (N n root : Z)
    (vals : Z -> list T) (outs : Z -> buffer T) (mem : list T) (fuel : nat) :
  0 < N -> 0 <= root < N -> 0 <= n ->
  (forall k, 0 <= k < N -> size (vals k) = n) ->
  outs root = Some mem -> N * n <= size mem ->
  transmissible (mpl_false ser) N n vals ->
  exists results,
    run_group (S (S fuel))
      (group N (fun comm =>
         Gather.array_ptr (mpl_false ser) comm (vals (rank comm)) n
           (outs (rank comm)) root))
    = Some results /\
    run_group (S fuel)
      (group N (fun comm =>
         Gather.array_ptr mpl_true comm (vals (rank comm)) n
           (outs (rank comm)) root))
    = Some results.
Proof.
  intros HN Hroot Hn Hvals Hout Hroom Htag.
  eexists. split; [by apply array_ptr_run|].
  rewrite (direct_run N n root vals outs mem); try done.
  - f_equal. apply map_ext_seqZ. intros k Hk.
    destruct (k =? root); [|done]. do 4 f_equal.
    apply map_ext_seqZ. intros j Hj. apply take_all_Z. by apply Hvals.
  - intros k Hk. specialize (Hvals k Hk). lia.
Qed.

Lemma serialized_agrees_with_direct_witness :
  exists results,
    run_group 2
      (group 2 (fun comm =>
         Gather.array_ptr (mpl_false unary) comm
           (nth (Z.to_nat (rank comm)) [[3; 0]; [1; 4]]%nat []) 2
           (if rank comm =? 1 then Some (replicate 4 O) else None) 1))
    = Some results /\
    run_group 1
      (group 2 (fun comm =>
         Gather.array_ptr mpl_true comm
           (nth (Z.to_nat (rank comm)) [[3; 0]; [1; 4]]%nat []) 2
           (if rank comm =? 1 then Some (replicate 4 O) else None) 1))
    = Some results.
Proof.
  apply (serialized_agrees_with_direct unary 2 2 1
           (fun k => nth (Z.to_nat k) [[3; 0]; [1; 4]]%nat [])
           (fun k => if k =? 1 then Some (replicate 4 O) else None)
           (replicate 4 O) 0).
  - lia.
  - lia.
  - lia.
  - intros k Hk. assert (k = 0 \/ k = 1) as [->| ->] by lia; reflexivity.
  - reflexivity.
  - vm_compute. discriminate.
  - split; [apply unary_roundtrip|].
    repeat split; vm_compute; discriminate.
Defined.

(** X9: in a group of one the serialized [gather_impl] reads nothing from
    an archive: whatever the serialization, even one whose reads always
    fail, the call returns with the first [n] elements of the buffer equal to
    the caller's own values and the rest of the buffer as it was. *)
Theorem gather_alone_never_decodes {T} (ser : serializer T)
    (in_values mem : list T) (n : Z) (fuel : nat) :
  0 <= n <= size in_values -> n <= size mem -> n <= Int.max_int ->
  size (encoded ser (take (Z.to_nat n) in_values)) <= Int.max_int ->
  run_group (S (S fuel))
    (group 1 (fun comm =>
       Gather.array_ptr (mpl_false ser) comm in_values n (Some mem) 0))
  = Some [Returned (Some (take (Z.to_nat n) in_values ++ drop (Z.to_nat n) mem))].
Proof.
  intros Hn Hroom Hint Hsize.
  pose proof (fun H1 H2 H3 H4 H5 =>
    serialized_array_ptr_run ser 1 n 0 (fun _ => in_values) H1 H2 H3 H4 H5
      (fun _ => Some mem) fuel) as Hrun.
  cbv beta in Hrun. rewrite Hrun.
  - change (seqZ 0 1) with [0]. cbn [map Z.eqb].
    rewrite (decode_phase_returns ser in_values n 0 _ _ mem 1); try done; try lia.
    + change (seqZ 0 1) with [0]. cbn [map concat outcome_map fst].
      unfold received. cbn [Z.eqb]. by rewrite app_nil_r, Z.mul_1_r.
    + intros src Hsrc. assert (src = 0) as -> by lia.
      by apply received_root_complete.
  - unfold Int.max_int. lia.
  - lia.
  - lia.
  - intros k _. lia.
  - change (seqZ 0 1) with [0]. cbn [map]. unfold sumZ. simpl. lia.
Qed.

Lemma gather_alone_never_decodes_witness :
  run_group 2
    (group 1 (fun comm =>
       Gather.array_ptr (mpl_false flawed) comm [7; 7; 2]%nat 2
         (Some [0; 0; 0]%nat) 0))
  = Some [Returned (Some (take (Z.to_nat 2) [7; 7; 2]%nat
                            ++ drop (Z.to_nat 2) [0; 0; 0]%nat))].
Proof.
  apply (gather_alone_never_decodes flawed [7; 7; 2]%nat [0; 0; 0]%nat 2 0).
  - vm_compute. split; discriminate.
  - vm_compute. discriminate.
  - vm_compute. discriminate.
  - vm_compute. discriminate.
Defined.

(** ** A collective call that fails *)

(** The serialized [gather_impl] up to its first collective call, on the
    root and on any other rank. *)
Lemma serialized_first_call {T} (ser : serializer T) (comm : communicator)
    (in_values : list T) (n : Z) (out_values : buffer T) (root : Z) :
  0 <= n <= size in_values -> 0 <= comm_size comm ->
  gather_impl_serialized_root ser comm in_values n out_values root
  = MPI_Gather [Int.wrap (size (encoded ser (take (Z.to_nat n) in_values)))] 1
      (if rank comm =? root
       then Some (replicate (Z.to_nat (comm_size comm)) 0) else None) 1 root
      (fun status mem' =>
         within
           (if rank comm =? root
            then through_data (replicate (Z.to_nat (comm_size comm)) 0)
                   (BOOST_MPI_CHECK_RESULT status mem')
            else outcome_map (fun _ => []) (BOOST_MPI_CHECK_RESULT status tt))
           out_values
           (payload_exchange ser comm in_values n out_values root
              (encoded ser (take (Z.to_nat n) in_values)))).
Proof.
  intros Hn HN. rewrite gather_impl_serialized_phases by done.
  destruct (Z.eqb_spec (rank comm) root) as [Hr|Hr].
  - by rewrite size_exchange_root.
  - by rewrite size_exchange_nonroot.
Qed.

(** X10: on the serialized path, when the collective call that exchanges
    the sizes reports a failure, [gather] throws the exception that carries
    the reported status, on the root and on any other rank: no payload is
    exchanged and [out_values] is as it was. *)
Theorem size_exchange_failure_propagates {T} (ser : serializer T)
    (comm : communicator) (in_values : list T) (n : Z) (out_values : buffer T)
    (root status : Z) :
  0 <= n <= size in_values -> 0 <= comm_size comm ->
  status <> MPI_SUCCESS ->
  exists c,
    pending_gather
      (Gather.array_ptr (mpl_false ser) comm in_values n out_values root)
    = Some c /\
    g_sendbuf c = [Int.wrap (size (encoded ser (take (Z.to_nat n) in_values)))] /\
    forall mem, g_resume c status mem = Ret (Threw (MpiException status) out_values).
Proof.
  intros Hn HN Hstatus. apply Z.eqb_neq in Hstatus.
  unfold Gather.array_ptr, gather_array_ptr.
  cbn [gather_impl_root gather_impl_nonroot].
  unfold gather_impl_serialized_nonroot.
  rewrite !serialized_first_call by done.
  destruct (rank comm =? root).
  - eexists. split; [reflexivity|]. split; [done|]. intros mem.
    cbn. unfold BOOST_MPI_CHECK_RESULT. by rewrite Hstatus.
  - eexists. split; [reflexivity|]. split; [done|]. intros mem.
    cbn. unfold BOOST_MPI_CHECK_RESULT. by rewrite Hstatus.
Qed.

Lemma size_exchange_failure_propagates_witness :
  exists c,
    pending_gather
      (Gather.array_ptr (mpl_false unary) {| rank := 0; comm_size := 2 |}
         [3; 1]%nat 2 (Some [0; 0; 0; 0]%nat) 0)
    = Some c /\
    g_sendbuf c = [Int.wrap (size (encoded unary (take (Z.to_nat 2) [3; 1]%nat)))] /\
    forall mem,
      g_resume c 16 mem = Ret (Threw (MpiException 16) (Some [0; 0; 0; 0]%nat)).
Proof.
  apply (size_exchange_failure_propagates unary {| rank := 0; comm_size := 2 |}
           [3; 1]%nat 2 (Some [0; 0; 0; 0]%nat) 0 16).
  - vm_compute. split; discriminate.
  - simpl. lia.
  - discriminate.
Defined.

(** X11: on the serialized path, when the sizes have been exchanged and the
    collective call that exchanges the payloads reports a failure, [gather]
    throws the exception that carries the reported status, on the root and on
    any other rank: nothing is decoded and [out_values] is as it was. *)
Theorem payload_exchange_failure_skips_decoding {T} (ser : serializer T)
    (comm : communicator) (in_values : list T) (n : Z) (out_values : buffer T)
    (root status : Z) (asizes : list Z) :
  0 <= n <= size in_values -> 0 < comm_size comm ->
  size asizes = comm_size comm -> 0 <= accumulate asizes ->
  status <> MPI_SUCCESS ->
  exists c c',
    pending_gather
      (Gather.array_ptr (mpl_false ser) comm in_values n out_values root)
    = Some c /\
    pending_gatherv
      (g_resume c MPI_SUCCESS (if rank comm =? root then Some asizes else None))
    = Some c' /\
    gv_sendbuf c' = encoded ser (take (Z.to_nat n) in_values) /\
    forall recv,
      gv_resume c' status recv = Ret (Threw (MpiException status) out_values).
Proof.
  intros Hn HN Hsize Hacc Hstatus. apply Z.eqb_neq in Hstatus.
  destruct (sizes2offset_in_bounds asizes
              (replicate (Z.to_nat (comm_size comm)) 0)) as (offs & Hoffs & _).
  { intros ->. unfold size in Hsize. simpl in Hsize. lia. }
  { rewrite length_replicate. unfold size in Hsize. lia. }
  unfold Gather.array_ptr, gather_array_ptr.
  cbn [gather_impl_root gather_impl_nonroot].
  unfold gather_impl_serialized_nonroot.
  rewrite !serialized_first_call by (done || lia).
  destruct (Z.eqb_spec (rank comm) root) as [Hr|Hr].
  - eexists _, _. split; [reflexivity|]. cbn.
    rewrite (payload_exchange_root ser comm in_values n out_values root _
               asizes offs) by (done || lia).
    split; [reflexivity|]. split; [done|]. intros recv.
    cbn. unfold BOOST_MPI_CHECK_RESULT. by rewrite Hstatus.
  - eexists _, _. split; [reflexivity|]. cbn.
    rewrite payload_exchange_nonroot by (done || lia).
    split; [reflexivity|]. split; [done|]. intros recv.
    cbn. unfold BOOST_MPI_CHECK_RESULT. by rewrite Hstatus.
Qed.

Lemma payload_exchange_failure_skips_decoding_witness :
  exists c c',
    pending_gather
      (Gather.array_ptr (mpl_false unary) {| rank := 0; comm_size := 2 |}
         [3; 1]%nat 2 (Some [0; 0; 0; 0]%nat) 0)
    = Some c /\
    pending_gatherv
      (g_resume c MPI_SUCCESS
         (if rank {| rank := 0; comm_size := 2 |} =? 0 then Some [6; 4] else None))
    = Some c' /\
    gv_sendbuf c' = encoded unary (take (Z.to_nat 2) [3; 1]%nat) /\
    forall recv,
      gv_resume c' 16 recv = Ret (Threw (MpiException 16) (Some [0; 0; 0; 0]%nat)).
Proof.
  apply (payload_exchange_failure_skips_decoding unary
           {| rank := 0; comm_size := 2 |} [3; 1]%nat 2 (Some [0; 0; 0; 0]%nat)
           0 16 [6; 4]).
  - vm_compute. split; discriminate.
  - simpl. lia.
  - reflexivity.
  - vm_compute. discriminate.
  - discriminate.
Defined.

(** X12: the overload that takes a [std::vector] resizes the vector of the
    root before a collective call can fail.  On the serialized path with [n]
    at least one, when the first collective call reports a failure, the call
    throws the exception that carries the reported status and the vector is
    left with [N * n] elements: those it held, cut or padded with
    value-initialised elements. *)
Theorem failed_gather_leaves_vector_resized {T} `{DefaultConstructible T}
    (ser : serializer T) (comm : communicator) (in_values : list T) (n : Z)
    (out_values : list T) (root status : Z) :
  rank comm = root ->
  0 < n <= size in_values -> 0 < comm_size comm ->
  comm_size comm * n <= Int.max_int ->
  status <> MPI_SUCCESS ->
  exists c,
    pending_gather
      (Gather.array_vec (mpl_false ser) comm in_values n out_values root)
    = Some c /\
    forall mem,
      g_resume c status mem
      = Ret (Threw (MpiException status)
               (resize (Z.to_nat (comm_size comm * n)) value_init out_values)).
Proof.
  intros Hr Hn HN Hint Hstatus.
  apply Z.eqb_neq in Hstatus. apply Z.eqb_eq in Hr.
  unfold Gather.array_vec, gather_array_vec, gather_array_ptr. rewrite Hr.
  unfold vec_resize, Int.mul. rewrite wrap_small by nia.
  destruct (Z.ltb_spec (comm_size comm * n) 0); [nia|].
  cbn [within].
  rewrite address_of_first_nonempty by (rewrite length_resize_Z; nia).
  cbn [within gather_impl_root].
  rewrite serialized_first_call by lia. rewrite Hr.
  eexists. split; [reflexivity|]. intros mem.
  cbn. unfold BOOST_MPI_CHECK_RESULT. by rewrite Hstatus.
Qed.

Lemma failed_gather_leaves_vector_resized_witness :
  exists c,
    pending_gather
      (Gather.array_vec (mpl_false unary) {| rank := 1; comm_size := 2 |}
         [3; 1]%nat 2 [8; 8; 8; 8; 8; 8]%nat 1)
    = Some c /\
    forall mem,
      g_resume c 16 mem
      = Ret (Threw (MpiException 16)
               (resize (Z.to_nat (2 * 2)) value_init [8; 8; 8; 8; 8; 8]%nat)).
Proof.
  apply (failed_gather_leaves_vector_resized unary {| rank := 1; comm_size := 2 |}
           [3; 1]%nat 2 [8; 8; 8; 8; 8; 8]%nat 1 16).
  - reflexivity.
  - vm_compute. split; [reflexivity|discriminate].
  - simpl. lia.
  - vm_compute. discriminate.
  - discriminate.
Defined.

(** ** The encoding loop *)

Lemma size_encoded {T} (ser : serializer T) (vs : list T) :
  size (encoded ser vs) = sumZ (map (fun v => size (save ser v)) vs).
Proof.
  unfold encoded. rewrite <- sumZ_sizes_concat. by rewrite map_map.
Qed.

(** X13: the encoding loop of the serialized [gather_impl] writes the first
    [n] values, in their order and nothing else: the payload is the
    concatenation of the bytes written for each of them, values after the
    first [n] do not change it, and its length, which the size exchange
    announces, is the sum of the lengths written for each value. *)
Theorem encode_values_first_n {T} (ser : serializer T) (in_values more : list T)
    (n : Z) :
  0 <= n <= size in_values ->
  exists oa,
    encode_values ser in_values n = Returned oa /\
    encode_values ser (in_values ++ more) n = Returned oa /\
    oa = concat (map (save ser) (take (Z.to_nat n) in_values)) /\
    size oa = sumZ (map (fun v => size (save ser v)) (take (Z.to_nat n) in_values)).
Proof.
  intros Hn. exists (encoded ser (take (Z.to_nat n) in_values)).
  split; [by apply encode_values_encoded|]. split; [|split].
  - rewrite encode_values_encoded.
    + rewrite take_app_le; [done|]. unfold size in Hn. lia.
    + unfold size in *. rewrite length_app. lia.
  - done.
  - apply size_encoded.
Qed.

Lemma encode_values_first_n_witness :
  exists oa,
    encode_values unary [2; 0; 5]%nat 2 = Returned oa /\
    encode_values unary ([2; 0; 5] ++ [9; 9])%nat 2 = Returned oa /\
    oa = concat (map (save unary) (take (Z.to_nat 2) [2; 0; 5]%nat)) /\
    size oa = sumZ (map (fun v => size (save unary v))
                      (take (Z.to_nat 2) [2; 0; 5]%nat)).
Proof.
  apply (encode_values_first_n unary [2; 0; 5]%nat [9; 9]%nat 2).
  vm_compute. split; discriminate.
Defined.

(** ** Arrays longer than [n] *)

(** The decoding loop when the arrays of the senders hold [n] values or
    more: the first [n] values of every sender, in rank order. *)
Lemma decode_phase_roundtrip_first_n {T} (ser : serializer T) (N n root : Z)
    (vals : Z -> list T) (mem : list T) :
  roundtrip ser ->
  0 < N -> 0 <= root < N -> 0 <= n ->
  (forall k, 0 <= k < N -> n <= size (vals k)) ->
  N * n <= size mem -> N * n <= Int.max_int ->
  exists trace,
    decode_phase ser {| rank := root; comm_size := N |} (vals root) n (Some mem)
      root
      (concat (map (fun k => encoded ser (take (Z.to_nat n) (vals k))) (seqZ 0 N)))
      (map (fun k =>
              sumZ (take (Z.to_nat k)
                      (map (fun k => size (encoded ser (take (Z.to_nat n) (vals k))))
                         (seqZ 0 N))))
         (seqZ 0 N))
    = Returned (Some (concat (map (fun k => take (Z.to_nat n) (vals k)) (seqZ 0 N))
                        ++ drop (Z.to_nat (N * n)) mem),
                trace).
Proof.
  intros Hser HN Hroot Hn Hvals Hroom Hint.
  assert (forall src, 0 <= src < N ->
    received ser (vals root) n root
      (concat (map (fun k => encoded ser (take (Z.to_nat n) (vals k))) (seqZ 0 N)))
      (map (fun k =>
              sumZ (take (Z.to_nat k)
                      (map (fun k => size (encoded ser (take (Z.to_nat n) (vals k))))
                         (seqZ 0 N))))
         (seqZ 0 N)) src
    = take (Z.to_nat n) (vals src)) as Hrecv.
  { intros src Hsrc. destruct (decide (src = root)) as [->|Hne].
    - unfold received. by rewrite Z.eqb_refl.
    - by rewrite (received_roundtrip ser Hser N n root vals). }
  eexists. rewrite (decode_phase_returns ser (vals root) n root _ _ mem N);
    try done.
  - rewrite (Z.mul_comm n N).
    rewrite (map_ext_seqZ _ (fun k => take (Z.to_nat n) (vals k)) N Hrecv).
    reflexivity.
  - specialize (Hvals root Hroot). lia.
  - rewrite size_map_seqZ; lia.
  - lia.
  - intros src Hsrc. rewrite Hrecv by done.
    specialize (Hvals src Hsrc). unfold size in Hvals.
    rewrite length_take. lia.
Qed.

Lemma array_ptr_run_first_n {T} (tag : mpi_tag T) (N n root : Z)
    (vals : Z -> list T) (outs : Z -> buffer T) (mem : list T) (fuel : nat) :
  0 < N -> 0 <= root < N -> 0 <= n ->
  (forall k, 0 <= k < N -> n <= size (vals k)) ->
  outs root = Some mem -> N * n <= size mem ->
  transmissible tag N n vals ->
  run_group (S (S fuel))
    (group N (fun comm =>
       Gather.array_ptr tag comm (vals (rank comm)) n (outs (rank comm)) root))
  = Some (map (fun k => Returned (if k =? root
            then Some (concat (map (fun k => take (Z.to_nat n) (vals k)) (seqZ 0 N))
                         ++ drop (Z.to_nat (N * n)) mem)
            else outs k)) (seqZ 0 N)).
Proof.
  intros HN Hroot Hn Hvals Hout Hroom Htag.
  destruct tag as [|ser].
  - by rewrite (direct_run N n root vals outs mem).
  - destruct Htag as (Hser & HNint & Hint & Hsum).
    rewrite (serialized_array_ptr_run ser N n root vals) by done.
    f_equal. apply map_ext_seqZ. intros k Hk.
    destruct (k =? root); [|done]. rewrite Hout.
    destruct (decode_phase_roundtrip_first_n ser N n root vals mem)
      as (trace & ->); try done; lia.
Qed.

(** X14: [gather] reads only the first [n] elements of [in_values]: when the
    arrays of the ranks hold [n] elements or more, on either path, the
    buffer of the root receives the first [n] elements of every rank in rank
    order, and whatever follows them in the arrays does not change the
    outcome of any rank. *)
Theorem gather_reads_first_n {T} (tag : mpi_tag T) (N n root : Z)
    (vals more : Z -> list T) (outs : Z -> buffer T) (mem : list T)
    (fuel : nat) :
  0 < N -> 0 <= root < N -> 0 <= n ->
  (forall k, 0 <= k < N -> n <= size (vals k)) ->
  outs root = Some mem -> N * n <= size mem ->
  transmissible tag N n vals ->
  run_group (S (S fuel))
    (group N (fun comm =>
       Gather.array_ptr tag comm (vals (rank comm)) n (outs (rank comm)) root))
  = Some (map (fun k => Returned (if k =? root
            then Some (concat (map (fun k => take (Z.to_nat n) (vals k)) (seqZ 0 N))
                         ++ drop (Z.to_nat (N * n)) mem)
            else outs k)) (seqZ 0 N)) /\
  run_group (S (S fuel))
    (group N (fun comm =>
       Gather.array_ptr tag comm (vals (rank comm) ++ more (rank comm)) n
         (outs (rank comm)) root))
  = run_group (S (S fuel))
      (group N (fun comm =>
         Gather.array_ptr tag comm (vals (rank comm)) n (outs (rank comm)) root)).
Proof.
  intros HN Hroot Hn Hvals Hout Hroom Htag.
  assert (forall k, 0 <= k < N ->
            take (Z.to_nat n) (vals k ++ more k) = take (Z.to_nat n) (vals k))
    as Htake.
  { intros k Hk. specialize (Hvals k Hk). unfold size in Hvals.
    apply take_app_le. lia. }
  split; [by apply array_ptr_run_first_n|].
  rewrite (array_ptr_run_first_n tag N n root vals outs mem) by done.
  rewrite (array_ptr_run_first_n tag N n root (fun k => vals k ++ more k) outs mem).
  - f_equal. apply map_ext_seqZ. intros k Hk.
    destruct (k =? root); [|done]. do 4 f_equal.
    by apply map_ext_seqZ.
  - done.
  - done.
  - done.
  - intros k Hk. specialize (Hvals k Hk). unfold size in *.
    rewrite length_app. lia.
  - done.
  - done.
  - destruct tag as [|ser]; [done|].
    destruct Htag as (Hser & HNint & Hint & Hsum).
    split; [done|]. split; [done|]. split; [done|].
    erewrite map_ext_seqZ; [exact Hsum|].
    intros k Hk. cbv beta. by rewrite Htake.
Qed.

Lemma gather_reads_first_n_witness :
  run_group 2
    (group 2 (fun comm =>
       Gather.array_ptr (mpl_false unary) comm
         (nth (Z.to_nat (rank comm)) [[3; 0; 8]; [1; 4]]%nat []) 2
         (if rank comm =? 1 then Some (replicate 5 O) else None) 1))
  = Some (map (fun k => Returned (if k =? 1
            then Some (concat (map (fun k =>
                           take (Z.to_nat 2)
                             (nth (Z.to_nat k) [[3; 0; 8]; [1; 4]]%nat []))
                         (seqZ 0 2))
                         ++ drop (Z.to_nat (2 * 2)) (replicate 5 O))
            else if k =? 1 then Some (replicate 5 O) else None)) (seqZ 0 2)) /\
  run_group 2
    (group 2 (fun comm =>
       Gather.array_ptr (mpl_false unary) comm
         (nth (Z.to_nat (rank comm)) [[3; 0; 8]; [1; 4]]%nat []
            ++ replicate (Z.to_nat (rank comm)) 6%nat) 2
         (if rank comm =? 1 then Some (replicate 5 O) else None) 1))
  = run_group 2
      (group 2 (fun comm =>
         Gather.array_ptr (mpl_false unary) comm
           (nth (Z.to_nat (rank comm)) [[3; 0; 8]; [1; 4]]%nat []) 2
           (if rank comm =? 1 then Some (replicate 5 O) else None) 1)).
Proof.
  apply (gather_reads_first_n (mpl_false unary) 2 2 1
           (fun k => nth (Z.to_nat k) [[3; 0; 8]; [1; 4]]%nat [])
           (fun k => replicate (Z.to_nat k) 6%nat)
           (fun k => if k =? 1 then Some (replicate 5 O) else None)
           (replicate 5 O) 0).
  - lia.
  - lia.
  - lia.
  - intros k Hk.
    assert (k = 0 \/ k = 1) as [->| ->] by lia; vm_compute; discriminate.
  - reflexivity.
  - vm_compute. discriminate.
  - split; [apply unary_roundtrip|].
    repeat split; vm_compute; discriminate.
Defined.

(** ** The usual way to call [gather] *)

(** X15: the usual call pattern.  When the root calls the overload that
    takes a [std::vector] and every other rank calls the overload without a
    receive buffer, on either path, every rank returns and the vector of the
    root becomes exactly the values of the ranks in rank order: the [n]
    values of each rank, [n] at least one, for the array overloads, the value
    of each rank for the scalar overloads.  (The result of a rank other than the root is
    shown as the empty vector.) *)
Theorem gather_usual_calls {T} `{DefaultConstructible T} (tag : mpi_tag T)
    (N n root : Z) (vals : Z -> list T) (v : Z -> T) (out_values : list T)
    (fuel : nat) :
  0 < N <= Int.max_int -> 0 <= root < N -> 0 < n ->
  (forall k, 0 <= k < N -> size (vals k) = n) ->
  N * n <= Int.max_int ->
  transmissible tag N n vals ->
  transmissible tag N 1 (fun k => [v k]) ->
  run_group (S (S fuel))
    (group N (fun comm =>
       if rank comm =? root
       then Gather.array_vec tag comm (vals (rank comm)) n out_values root
       else coll_map (outcome_map (fun _ => []))
              (Gather.array_nonroot tag comm (vals (rank comm)) n root)))
  = Some (map (fun k => Returned (if k =? root then concat (map vals (seqZ 0 N))
                                  else [])) (seqZ 0 N)) /\
  run_group (S (S fuel))
    (group N (fun comm =>
       if rank comm =? root
       then Gather.scalar_vec tag comm (v (rank comm)) out_values root
       else coll_map (outcome_map (fun _ => []))
              (Gather.scalar_nonroot tag comm (v (rank comm)) root)))
  = Some (map (fun k => Returned (if k =? root then map v (seqZ 0 N) else []))
            (seqZ 0 N)).
Proof.
  intros HN Hroot Hn Hvals Hint Htag Htag1.
  pose proof (array_vec_run tag N n root vals
                (fun k => if k =? root then out_values else []) fuel
                HN Hroot Hn Hvals Hint Htag) as Harray.
  pose proof (array_vec_run tag N 1 root (fun k => [v k])
                (fun k => if k =? root then out_values else []) fuel
                HN Hroot ltac:(lia) ltac:(done) ltac:(lia) Htag1) as Hscalar.
  rewrite concat_singletons in Hscalar.
  split.
  - etrans; [|etrans; [exact Harray|]].
    + f_equal. unfold group. apply map_ext_seqZ. intros k Hk. cbn [rank].
      unfold Gather.array_vec, gather_array_vec, Gather.array_nonroot.
      cbn [rank]. by destruct (k =? root).
    + f_equal. apply map_ext_seqZ. intros k Hk. by destruct (k =? root).
  - etrans; [|etrans; [exact Hscalar|]].
    + f_equal. unfold group. apply map_ext_seqZ. intros k Hk. cbn [rank].
      rewrite <- scalar_vec_array_vec
        by (cbn; unfold Int.in_range, Int.min_int; lia).
      unfold Gather.scalar_vec, gather_scalar_vec, Gather.scalar_nonroot.
      cbn [rank]. by destruct (k =? root).
    + f_equal. apply map_ext_seqZ. intros k Hk. by destruct (k =? root).
Qed.

Lemma gather_usual_calls_witness :
  run_group 2
    (group 2 (fun comm =>
       if rank comm =? 0
       then Gather.array_vec (mpl_false unary) comm
              (nth (Z.to_nat (rank comm)) [[3; 0]; [1; 4]]%nat []) 2 [7]%nat 0
       else coll_map (outcome_map (fun _ => []))
              (Gather.array_nonroot (mpl_false unary) comm
                 (nth (Z.to_nat (rank comm)) [[3; 0]; [1; 4]]%nat []) 2 0)))
  = Some (map (fun k => Returned (if k =? 0
            then concat (map (fun k => nth (Z.to_nat k) [[3; 0]; [1; 4]]%nat [])
                           (seqZ 0 2))
            else [])) (seqZ 0 2)) /\
  run_group 2
    (group 2 (fun comm =>
       if rank comm =? 0
       then Gather.scalar_vec (mpl_false unary) comm (Z.to_nat (rank comm + 4))
              [7]%nat 0
       else coll_map (outcome_map (fun _ => []))
              (Gather.scalar_nonroot (mpl_false unary) comm
                 (Z.to_nat (rank comm + 4)) 0)))
  = Some (map (fun k => Returned (if k =? 0
            then map (fun k => Z.to_nat (k + 4)) (seqZ 0 2) else []))
            (seqZ 0 2)).
Proof.
  apply (gather_usual_calls (mpl_false unary) 2 2 0
           (fun k => nth (Z.to_nat k) [[3; 0]; [1; 4]]%nat [])
           (fun k => Z.to_nat (k + 4)) [7]%nat 0).
  - vm_compute. split; [reflexivity|discriminate].
  - lia.
  - lia.
  - intros k Hk. assert (k = 0 \/ k = 1) as [->| ->] by lia; reflexivity.
  - vm_compute. discriminate.
  - split; [apply unary_roundtrip|].
    repeat split; vm_compute; discriminate.
  - split; [apply unary_roundtrip|].
    repeat split; vm_compute; discriminate.
Defined.
